(** * merge-deep: a shallow embedding of ember-changeset's [mergeDeep]

    The merge utility walks two JavaScript object graphs and mutates the
    target in place.  Everything it does is observable only through the
    heap: prototype chains, own/enumerable flags, the accessor pair stored
    on the [options] object.  The model therefore keeps an explicit object
    heap and threads it through every operation; the functions below follow
    the JavaScript source line by line.

    Scope of the object model: data properties with their [enumerable] and
    [writable] attributes, the built-in [__proto__] accessor, extensible
    flags, ordinary/array/Date/RegExp/Map/function objects, strict-mode
    assignment (the source is an ES module).  User-defined getters and
    setters and [Proxy] objects are outside the model; numbers are integers
    (only their truthiness is ever inspected).  Strings are byte strings,
    so the [length] of a string agrees with JavaScript's for ASCII text;
    the [length] of an array is not kept up to date by assignments, and
    the merge never assigns into an array. *)

From stdpp Require Import base strings list numbers pretty.
From Stdlib Require Import ZArith Lia.

Set Warnings "-register-all".

Local Open Scope string_scope.
Local Open Scope list_scope.
Local Open Scope nat_scope.

(** ** Values, objects, heap *)

Abbreviation loc := nat.

Inductive key :=
| KStr (s : string)
| KSym (n : nat).

#[global] Instance key_eq_dec : EqDecision key.
Proof. solve_decision. Defined.

Inductive value :=
| VUndef
| VNull
| VBool (b : bool)
| VNum (z : Z)
| VStr (s : string)
| VSym (n : nat)
| VRef (l : loc).

#[global] Instance value_eq_dec : EqDecision value.
Proof. solve_decision. Defined.

(** Function objects: the two default accessors created by [mergeDeep]
    itself, and host functions whose behaviour is supplied from outside
    (custom [safeGet]/[safeSet], built-in methods, constructors). *)
Inductive fn_id :=
| FDefaultGet
| FDefaultSet
| FHost (n : nat).

Inductive kind :=
| KOrdinary
| KArray
| KDate
| KRegExp
| KMap (entries : list value)
| KFunction (f : fn_id).

(** A property is a data property or the built-in accessor that
    [Object.prototype.__proto__] carries (never enumerable). *)
Inductive prop :=
| PData (v : value) (enumerable writable : bool)
| PProtoAccessor.

Record obj := Obj {
  o_proto : option loc;
  o_kind : kind;
  o_ext : bool;
  o_props : list (key * prop)
}.

Abbreviation heap := (list obj).

(** Well-known objects every realm starts with. *)
Definition ObjectProto : loc := 0.
Definition FunctionProto : loc := 1.
Definition ArrayProto : loc := 2.
Definition MapProto : loc := 3.
Definition ChangeProto : loc := 4.
Definition NumberProto : loc := 5.
Definition BooleanProto : loc := 6.
Definition StringProto : loc := 7.
Definition SymbolProto : loc := 8.

(** ** Outcomes and the heap monad *)

Inductive exn :=
| TypeError
| Error (msg : string)
| Thrown (v : value).

Inductive outcome (A : Type) :=
| Ret (a : A) (h : heap)
| Throw (e : exn) (h : heap)
| OutOfFuel.
Arguments Ret {A} a h.
Arguments Throw {A} e h.
Arguments OutOfFuel {A}.

Definition M (A : Type) : Type := heap → outcome A.

Definition ret {A} (a : A) : M A := λ h, Ret a h.
Definition throw {A} (e : exn) : M A := λ h, Throw e h.

Definition bind {A B} (m : M A) (f : A → M B) : M B := λ h,
  match m h with
  | Ret a h' => f a h'
  | Throw e h' => Throw e h'
  | OutOfFuel => OutOfFuel
  end.

Definition try_catch {A} (m : M A) (handler : exn → M A) : M A := λ h,
  match m h with
  | Ret a h' => Ret a h'
  | Throw e h' => handler e h'
  | OutOfFuel => OutOfFuel
  end.

Notation "'let!' x ':=' m 'in' k" := (bind m (λ x, k))
  (at level 10, x binder, m at level 100, k at level 200).
Notation "m ';;!' k" := (bind m (λ _, k))
  (at level 100, k at level 200, right associativity).

(** [array.forEach(callback)] over a snapshot of the elements. *)
Fixpoint forEach {A} (f : A → M unit) (xs : list A) : M unit :=
  match xs with
  | [] => ret tt
  | x :: rest => f x ;;! forEach f rest
  end.

(** ** Property tables *)

Definition present {A} (o : option A) : bool :=
  match o with
  | Some _ => true
  | None => false
  end.

Fixpoint plookup (k : key) (ps : list (key * prop)) : option prop :=
  match ps with
  | [] => None
  | (k', p) :: rest => if decide (k = k') then Some p else plookup k rest
  end.

Fixpoint pupdate (k : key) (p : prop) (ps : list (key * prop)) : list (key * prop) :=
  match ps with
  | [] => []
  | (k', p') :: rest =>
      if decide (k = k') then (k', p) :: rest else (k', p') :: pupdate k p rest
  end.

(** Own keys are enumerated array indices first (ascending), then strings
    in creation order, then symbols in creation order; the table is kept
    in that order. *)
Definition digit_of (c : Ascii.ascii) : option N :=
  let n := Ascii.N_of_ascii c in
  if ((48 <=? n) && (n <=? 57))%N then Some (n - 48)%N else None.

Fixpoint parse_digits (s : string) (acc : N) : option N :=
  match s with
  | EmptyString => Some acc
  | String c rest =>
      match digit_of c with
      | Some d => parse_digits rest (acc * 10 + d)%N
      | None => None
      end
  end.

Definition key_index (k : key) : option N :=
  match k with
  | KStr EmptyString => None
  | KStr s =>
      match parse_digits s 0 with
      | Some n => if decide (pretty n = s) then
                    if (n <? 4294967295)%N then Some n else None
                  else None
      | None => None
      end
  | KSym _ => None
  end.

Definition goes_before (k k' : key) : bool :=
  match key_index k, key_index k' with
  | Some i, Some j => (i <? j)%N
  | Some _, None => true
  | None, Some _ => false
  | None, None =>
      match k, k' with
      | KStr _, KSym _ => true
      | _, _ => false
      end
  end.

Fixpoint pinsert (k : key) (p : prop) (ps : list (key * prop)) : list (key * prop) :=
  match ps with
  | [] => [(k, p)]
  | (k', p') :: rest =>
      if goes_before k k' then (k, p) :: ps else (k', p') :: pinsert k p rest
  end.

Definition is_enumerable (p : prop) : bool :=
  match p with
  | PData _ e _ => e
  | PProtoAccessor => false
  end.

(** ** Heap access *)

Definition own_props (h : heap) (l : loc) : list (key * prop) :=
  match h !! l with
  | Some o => o_props o
  | None => []
  end.

Definition proto_of (h : heap) (l : loc) : option loc :=
  match h !! l with
  | Some o => o_proto o
  | None => None
  end.

Definition kind_of (h : heap) (l : loc) : kind :=
  match h !! l with
  | Some o => o_kind o
  | None => KOrdinary
  end.

Definition extensible (h : heap) (l : loc) : bool :=
  match h !! l with
  | Some o => o_ext o
  | None => false
  end.

(** Walk of a prototype chain.  Chains are acyclic, so [length h] links
    exhaust any of them. *)
Fixpoint find_prop (n : nat) (h : heap) (l : loc) (k : key) : option prop :=
  match n with
  | 0 => None
  | S n' =>
      match plookup k (own_props h l) with
      | Some p => Some p
      | None =>
          match proto_of h l with
          | Some l' => find_prop n' h l' k
          | None => None
          end
      end
  end.

Definition chain_prop (h : heap) (l : loc) (k : key) : option prop :=
  find_prop (S (length h)) h l k.

Fixpoint on_chain (n : nat) (h : heap) (l : loc) (target : loc) : bool :=
  match n with
  | 0 => false
  | S n' =>
      if decide (l = target) then true
      else match proto_of h l with
           | Some l' => on_chain n' h l' target
           | None => false
           end
  end.

(** Own properties of a string primitive once boxed: its indices and
    [length]. *)
Definition str_own (s : string) (k : key) : option prop :=
  match k with
  | KStr ks =>
      if decide (ks = "length")
      then Some (PData (VNum (Z.of_nat (String.length s))) false false)
      else match list_find (λ i : nat, pretty i = ks) (seq 0 (String.length s)) with
           | Some (_, i) => Some (PData (VStr (String.substring i 1 s)) true false)
           | None => None
           end
  | KSym _ => None
  end.

(** The property a primitive or object answers for [k], own or inherited. *)
Definition resolve (h : heap) (v : value) (k : key) : option prop :=
  match v with
  | VRef l => chain_prop h l k
  | VStr s =>
      match str_own s k with
      | Some p => Some p
      | None => chain_prop h StringProto k
      end
  | VNum _ => chain_prop h NumberProto k
  | VBool _ => chain_prop h BooleanProto k
  | VSym _ => chain_prop h SymbolProto k
  | VUndef | VNull => None
  end.

Definition proto_value (h : heap) (v : value) : value :=
  match v with
  | VRef l => match proto_of h l with Some p => VRef p | None => VNull end
  | VStr _ => VRef StringProto
  | VNum _ => VRef NumberProto
  | VBool _ => VRef BooleanProto
  | VSym _ => VRef SymbolProto
  | VUndef | VNull => VUndef
  end.

Definition is_nullish (v : value) : bool :=
  match v with
  | VUndef | VNull => true
  | _ => false
  end.

(** [v[k]] *)
Definition get (v : value) (k : key) : M value := λ h,
  if is_nullish v then Throw TypeError h
  else match resolve h v k with
       | Some (PData x _ _) => Ret x h
       | Some PProtoAccessor => Ret (proto_value h v) h
       | None => Ret VUndef h
       end.

Definition set_obj (l : loc) (f : obj → obj) (h : heap) : heap :=
  match h !! l with
  | Some o => <[l := f o]> h
  | None => h
  end.

Definition with_props (f : list (key * prop) → list (key * prop)) (o : obj) : obj :=
  Obj (o_proto o) (o_kind o) (o_ext o) (f (o_props o)).

Definition with_proto (p : option loc) (o : obj) : obj :=
  Obj p (o_kind o) (o_ext o) (o_props o).

(** The setter half of [Object.prototype.__proto__]. *)
Definition proto_setter (recv : value) (x : value) : M unit := λ h,
  match recv with
  | VRef l =>
      let new_proto :=
        match x with
        | VRef p => Some (Some p)
        | VNull => Some None
        | _ => None
        end in
      match new_proto with
      | None => Ret tt h
      | Some np =>
          if decide (np = proto_of h l) then Ret tt h
          else if negb (extensible h l) then Throw TypeError h
          else if decide (l = ObjectProto) then Throw TypeError h
          else match np with
               | Some p =>
                   if on_chain (S (length h)) h p l then Throw TypeError h
                   else Ret tt (set_obj l (with_proto np) h)
               | None => Ret tt (set_obj l (with_proto np) h)
               end
      end
  | _ => Ret tt h
  end.

(** [v[k] = x] in strict mode. *)
Definition set (v : value) (k : key) (x : value) : M unit := λ h,
  if is_nullish v then Throw TypeError h
  else match v with
       | VRef l =>
           match plookup k (own_props h l) with
           | Some (PData _ e w) =>
               if w then Ret tt (set_obj l (with_props (pupdate k (PData x e w))) h)
               else Throw TypeError h
           | Some PProtoAccessor => proto_setter v x h
           | None =>
               let inherited :=
                 match proto_of h l with
                 | Some p => chain_prop h p k
                 | None => None
                 end in
               match inherited with
               | Some PProtoAccessor => proto_setter v x h
               | Some (PData _ _ false) => Throw TypeError h
               | _ =>
                   if extensible h l
                   then Ret tt (set_obj l (with_props (pinsert k (PData x true true))) h)
                   else Throw TypeError h
               end
           end
       | _ =>
           match resolve h v k with
           | Some PProtoAccessor => proto_setter v x h
           | _ => Throw TypeError h
           end
       end.

(** [k in v] *)
Definition has_property (v : value) (k : key) : M bool := λ h,
  match v with
  | VRef l => Ret (present (chain_prop h l k)) h
  | _ => Throw TypeError h
  end.

Definition own_of (h : heap) (v : value) (k : key) : option prop :=
  match v with
  | VRef l => plookup k (own_props h l)
  | VStr s => str_own s k
  | _ => None
  end.

(** [Object.prototype.hasOwnProperty.call(v, k)] *)
Definition hasOwnProperty (v : value) (k : key) : M bool := λ h,
  if is_nullish v then Throw TypeError h
  else Ret (present (own_of h v k)) h.

(** [Object.prototype.propertyIsEnumerable.call(v, k)] *)
Definition propertyIsEnumerable (v : value) (k : key) : M bool := λ h,
  if is_nullish v then Throw TypeError h
  else Ret (match own_of h v k with Some p => is_enumerable p | None => false end) h.

Definition is_str_key (k : key) : bool :=
  match k with
  | KStr _ => true
  | KSym _ => false
  end.

Definition enumerable_keys (strings : bool) (ps : list (key * prop)) : list key :=
  fst <$> filter (λ kp, is_enumerable kp.2 && bool_decide (is_str_key kp.1 = strings)) ps.

Definition str_index_keys (s : string) : list key :=
  (λ i : nat, KStr (pretty i)) <$> seq 0 (String.length s).

(** [Object.keys(v)] *)
Definition object_keys (v : value) : M (list key) := λ h,
  match v with
  | VUndef | VNull => Throw TypeError h
  | VRef l => Ret (enumerable_keys true (own_props h l)) h
  | VStr s => Ret (str_index_keys s) h
  | _ => Ret [] h
  end.

(** [Array.isArray(v)] *)
Definition isArray (h : heap) (v : value) : bool :=
  match v with
  | VRef l => match kind_of h l with KArray => true | _ => false end
  | _ => false
  end.

Definition truthy (v : value) : bool :=
  match v with
  | VUndef | VNull => false
  | VBool b => b
  | VNum z => negb (z =? 0)%Z
  | VStr s => negb (bool_decide (s = ""))
  | VSym _ | VRef _ => true
  end.

(** [typeof v === 'object'] *)
Definition typeof_object (h : heap) (v : value) : bool :=
  match v with
  | VNull => true
  | VRef l => match kind_of h l with KFunction _ => false | _ => true end
  | _ => false
  end.

(** [v instanceof C] where [C.prototype] lives at [cproto]. *)
Definition instanceof (h : heap) (v : value) (cproto : loc) : bool :=
  match v with
  | VRef l =>
      match proto_of h l with
      | Some p => on_chain (S (length h)) h p cproto
      | None => false
      end
  | _ => false
  end.

(** The well-known symbol [Symbol.toStringTag]. *)
Definition toStringTag : key := KSym 0.

(** [Object.prototype.toString.call(v)]: the tag is the value's
    [Symbol.toStringTag], own or inherited, when that is a string, and
    the built-in tag of its kind otherwise. *)
Definition builtin_tag (h : heap) (v : value) : string :=
  match v with
  | VUndef => "Undefined"
  | VNull => "Null"
  | VBool _ => "Boolean"
  | VNum _ => "Number"
  | VStr _ => "String"
  | VSym _ => "Object"
  | VRef l =>
      match kind_of h l with
      | KArray => "Array"
      | KFunction _ => "Function"
      | KDate => "Date"
      | KRegExp => "RegExp"
      | KOrdinary | KMap _ => "Object"
      end
  end.

Definition object_toString (h : heap) (v : value) : string :=
  let tag := match resolve h v toStringTag with
             | Some (PData (VStr s) _ _) => s
             | _ => builtin_tag h v
             end in
  "[object " ++ tag ++ "]".

Definition alloc (o : obj) : M value := λ h, Ret (VRef (length h)) (h ++ [o]).

Definition empty_object : obj := Obj (Some ObjectProto) KOrdinary true [].
Definition function_object (f : fn_id) : obj := Obj (Some FunctionProto) (KFunction f) true [].

(** ** The merge, function by function *)

Section Merge.

(** Behaviour of host functions: [host n this args] is the call
    [f.apply(this, args)] for the function object tagged [FHost n]. *)
Variable host : nat → value → list value → M value.

Definition key_value (k : key) : value :=
  match k with
  | KStr s => VStr s
  | KSym n => VSym n
  end.

(** [f.call(this, obj, key)] and [f.call(this, obj, key, x)]; every call
    site in the source passes a property key as second argument. *)
Definition call (f : value) (this obj : value) (k : key) (x : option value) : M value := λ h,
  match f with
  | VRef l =>
      match kind_of h l with
      | KFunction FDefaultGet => get obj k h
      | KFunction FDefaultSet =>
          let v := default VUndef x in
          (set obj k v ;;! ret v) h
      | KFunction (FHost n) =>
          host n this (obj :: key_value k :: match x with Some v => [v] | None => [] end) h
      | _ => Throw TypeError h
      end
  | _ => Throw TypeError h
  end.

(** [options.safeGet(obj, key)] *)
Definition safeGet (options obj : value) (k : key) : M value :=
  let! f := get options (KStr "safeGet") in
  call f options obj k None.

Definition isSpecial (h : heap) (v : value) : bool :=
  let stringValue := object_toString h v in
  bool_decide (stringValue = "[object RegExp]") || bool_decide (stringValue = "[object Date]").

Definition isNonNullObject (h : heap) (v : value) : bool :=
  truthy v && typeof_object h v.

Definition isMergeableObject (h : heap) (v : value) : bool :=
  isNonNullObject h v && negb (isSpecial h v).

Definition getEnumerableOwnPropertySymbols (target : value) : M (list key) := λ h,
  match target with
  | VUndef | VNull => Throw TypeError h
  | VRef l => Ret (enumerable_keys false (own_props h l)) h
  | _ => Ret [] h
  end.

Definition getKeys (target : value) : M (list key) :=
  let! ks := object_keys target in
  let! syms := getEnumerableOwnPropertySymbols target in
  ret (ks ++ syms).

Definition propertyIsOnObject (object : value) (property : key) : M bool :=
  try_catch (has_property object property) (λ _, ret false).

(** [fields.has(key)], with [has] the built-in [Map.prototype.has]: it
    rejects a receiver that is not a real [Map]. *)
Definition map_has (fields : value) (k : key) : M bool := λ h,
  match fields with
  | VRef l =>
      match kind_of h l with
      | KMap entries => Ret (bool_decide (key_value k ∈ entries)) h
      | _ => Throw TypeError h
      end
  | _ => Throw TypeError h
  end.

Definition hasEmberDataProperty (target : value) (k : key) (options : value) : M bool :=
  let! fields := safeGet options target (KStr "constructor.fields") in
  λ h, if instanceof h fields MapProto then map_has fields k h else Ret false h.

Definition propertyIsUnsafe (target : value) (k : key) (options : value) : M bool :=
  let! dyn := hasEmberDataProperty target k options in
  if dyn then ret false
  else
    let! found := propertyIsOnObject target k in
    if found then
      let! own := hasOwnProperty target k in
      if own then
        let! enum := propertyIsEnumerable target k in
        ret (negb enum)
      else ret true
    else ret false.

Definition join_path (ks : list string) : string := String.concat "." ks.

Definition key_string (k : key) : string :=
  match k with
  | KStr s => s
  | KSym _ => ""
  end.

(** The body of the [forEach] callback in [buildPathToValue]; [recurse]
    is the call of line 70. *)
Definition visit_key (recurse : value → list string → M value)
    (source kv : value) (possibleKeys : list string) (k : key) : M unit :=
  let! possible := get source k in
  let! wrapped :=
    (if truthy possible then hasOwnProperty possible (KStr "value") else ret false) in
  if wrapped then
    let! payload := get possible (KStr "value") in
    set kv (KStr (join_path (possibleKeys ++ [key_string k]))) payload
  else λ h,
    if typeof_object h possible
    then (recurse possible (possibleKeys ++ [key_string k]) ;;! ret tt) h
    else Ret tt h.

Fixpoint buildPathToValue (fuel : nat) (source options kv : value)
    (possibleKeys : list string) : M value :=
  match fuel with
  | 0 => λ _, OutOfFuel
  | S fuel' =>
      let! ks := object_keys source in
      forEach (visit_key (λ possible path, buildPathToValue fuel' possible options kv path)
                 source kv possibleKeys) ks ;;!
      ret kv
  end.

(** Keys visited by [for (key in o)]: enumerable string keys, own ones
    first, then up the chain, skipping names already met. *)
Fixpoint for_in_keys (n : nat) (h : heap) (l : loc) (seen : list key) : list key :=
  match n with
  | 0 => []
  | S n' =>
      let ps := filter (λ kp, is_str_key kp.1) (own_props h l) in
      let fresh := filter (λ kp, bool_decide (kp.1 ∉ seen)) ps in
      (fst <$> filter (λ kp, is_enumerable kp.2) fresh) ++
      match proto_of h l with
      | Some p => for_in_keys n' h p (seen ++ (fst <$> ps))
      | None => []
      end
  end.

Definition for_in (v : value) : M (list key) := λ h,
  match v with
  | VRef l => Ret (for_in_keys (S (length h)) h l []) h
  | VStr s => Ret (str_index_keys s ++ for_in_keys (S (length h)) h StringProto (str_index_keys s)) h
  | _ => Ret [] h
  end.

Definition merge_failure : exn := Error "Unable to `mergeDeep` with your data".

(** The body of the [forEach] callback in [mergeTargetAndSource];
    [mergeDeep_rec] is the recursive call of line 104. *)
Definition merge_key (fuel : nat) (mergeDeep_rec : value → value → value → M value)
    (target source options : value) (k : key) : M unit :=
  let! unsafe := propertyIsUnsafe target k options in
  if unsafe then
    let! ss := get options (KStr "safeSet") in
    if truthy ss then
      let! fresh := alloc empty_object in
      let! kv := buildPathToValue fuel source options fresh [] in
      let! found := object_keys kv in
      if (0 <? length found)%nat then
        let! paths := for_in kv in
        forEach (λ path,
          let! val := get kv path in
          let! f := get options (KStr "safeSet") in
          call f options target path (Some val) ;;! ret tt) paths
      else ret tt
    else ret tt
  else
    let! onTarget := propertyIsOnObject target k in
    let! sk := (if onTarget then get source k else ret VUndef) in
    let! wrapped :=
      (λ h, if onTarget && isMergeableObject h sk
            then hasOwnProperty sk (KStr "value") h else Ret false h) in
    (λ h,
      if onTarget && isMergeableObject h sk && negb wrapped then
        (let! f := get options (KStr "safeSet") in
         let! t := safeGet options target k in
         let! s := safeGet options source k in
         let! merged := mergeDeep_rec t s options in
         call f options target k (Some merged) ;;! ret tt) h
      else
        (let! next := get source k in
         λ h',
           if truthy next && instanceof h' next ChangeProto then
             (let! f := get options (KStr "safeSet") in
              let! payload := get next (KStr "value") in
              call f options target k (Some payload) ;;! ret tt) h'
           else
             (let! f := get options (KStr "safeSet") in
              call f options target k (Some next) ;;! ret tt) h') h).

Definition mergeTargetAndSource (fuel : nat)
    (mergeDeep_rec : value → value → value → M value)
    (target source options : value) : M value :=
  let! ks := getKeys source in
  forEach (merge_key fuel mergeDeep_rec target source options) ks ;;!
  ret target.

(** Lines 129-130: [options.safeGet = options.safeGet || function ...]. *)
Definition install_default (options : value) (name : string) (f : fn_id) : M unit :=
  let! current := get options (KStr name) in
  let! chosen := (if truthy current then ret current else alloc (function_object f)) in
  set options (KStr name) chosen.

Definition normalize_options (options : value) : M value :=
  let! opts := (match options with
                | VUndef => alloc empty_object
                | _ => ret options
                end) in
  install_default opts "safeGet" FDefaultGet ;;!
  install_default opts "safeSet" FDefaultSet ;;!
  ret opts.

Fixpoint mergeDeep (fuel : nat) (target source options : value) : M value :=
  match fuel with
  | 0 => λ _, OutOfFuel
  | S fuel' =>
      let! opts := normalize_options options in
      λ h,
        let sourceIsArray := isArray h source in
        let targetIsArray := isArray h target in
        let sourceAndTargetTypesMatch := bool_decide (sourceIsArray = targetIsArray) in
        if negb sourceAndTargetTypesMatch then Ret source h
        else if sourceIsArray then Ret source h
        else try_catch (mergeTargetAndSource fuel' (mergeDeep fuel') target source opts)
               (λ _, throw merge_failure) h
  end.

End Merge.

(** ** A concrete realm for the examples *)

Definition hidden (v : value) : prop := PData v false true.
Definition data (v : value) : prop := PData v true true.
Definition plain (ps : list (key * prop)) : obj := Obj (Some ObjectProto) KOrdinary true ps.
Definition builtin_fn (n : nat) : obj := Obj (Some FunctionProto) (KFunction (FHost n)) true [].

(** [Object.prototype] with all twelve of its properties, the other
    well-known prototypes (each with the properties the merge can meet:
    [length], [has], [constructor], [Symbol.toStringTag]), and the
    function objects they refer to (locations 9 to 12: [Object], two
    built-in methods, [Change]).  The merge never calls a built-in method
    through these properties and never compares them, so the methods of
    [Object.prototype] are represented by the two method objects. *)
Definition realm : heap :=
  [ Obj None KOrdinary true
      [ (KStr "constructor", hidden (VRef 9));
        (KStr "__proto__", PProtoAccessor);
        (KStr "hasOwnProperty", hidden (VRef 10));
        (KStr "toString", hidden (VRef 11));
        (KStr "valueOf", hidden (VRef 11));
        (KStr "toLocaleString", hidden (VRef 11));
        (KStr "isPrototypeOf", hidden (VRef 10));
        (KStr "propertyIsEnumerable", hidden (VRef 10));
        (KStr "__defineGetter__", hidden (VRef 10));
        (KStr "__defineSetter__", hidden (VRef 10));
        (KStr "__lookupGetter__", hidden (VRef 10));
        (KStr "__lookupSetter__", hidden (VRef 10)) ];
    Obj (Some ObjectProto) (KFunction (FHost 0)) true [];
    Obj (Some ObjectProto) KArray true [ (KStr "length", PData (VNum 0) false true) ];
    Obj (Some ObjectProto) KOrdinary true
      [ (KStr "has", hidden (VRef 10)); (toStringTag, PData (VStr "Map") false false) ];
    Obj (Some ObjectProto) KOrdinary true [ (KStr "constructor", hidden (VRef 12)) ];
    Obj (Some ObjectProto) KOrdinary true [];
    Obj (Some ObjectProto) KOrdinary true [];
    Obj (Some ObjectProto) KOrdinary true [ (KStr "length", PData (VNum 0) false false) ];
    Obj (Some ObjectProto) KOrdinary true [ (toStringTag, PData (VStr "Symbol") false false) ];
    builtin_fn 1; builtin_fn 2; builtin_fn 3; builtin_fn 4 ].

(** Host functions of the examples take no part in the merge. *)
Definition no_host : nat → value → list value → M value := λ _ _ _, throw TypeError.

(** [new Change(v)] of validated-changeset: an object whose prototype is
    [Change.prototype] and whose own field [value] holds the payload. *)
Definition Wrap (v : value) : obj := Obj (Some ChangeProto) KOrdinary true [ (KStr "value", data v) ].

Definition pollution_heap : heap :=
  realm ++
  [ plain [];
    plain [ (KStr "polluted", data (VBool true)) ];
    plain [ (KStr "__proto__", data (VRef 14)) ] ].


(** Fallback scenario: the target inherits [rel] from its prototype, the
    source carries a pending change below that key. *)
Definition fallback_heap : heap :=
  realm ++
  [ plain [ (KStr "rel", data VNull) ];
    Obj (Some 13) KOrdinary true [];
    Wrap (VNum 7);
    plain [ (KStr "sub", data (VRef 15)) ];
    plain [ (KStr "rel", data (VRef 16)) ] ].

(** A record with one field and two candidate updates: a plain object
    that happens to own a [value] field, and a genuine [Change]. *)
Definition wrapper_heap : heap :=
  realm ++
  [ plain [ (KStr "name", data (VStr "Ada")) ];
    plain [ (KStr "value", data (VStr "Grace")) ];
    plain [ (KStr "name", data (VRef 14)) ];
    Wrap (VStr "Grace");
    plain [ (KStr "name", data (VRef 16)) ] ].

(** A host model: the constructor (location 13) exposes [fields], a [Map]
    with the key [age]; the prototype (15) defines [age], the instance
    (16) does not own it. *)
Definition model_heap : heap :=
  realm ++
  [ Obj (Some FunctionProto) (KFunction (FHost 5)) true [ (KStr "fields", data (VRef 14)) ];
    Obj (Some MapProto) (KMap [VStr "age"]) true [];
    plain [ (KStr "constructor", hidden (VRef 13)); (KStr "age", hidden VUndef) ];
    Obj (Some 15) KOrdinary true [];
    plain [ (KStr "age", data (VNum 30)) ] ].

(** A path-aware reader in the style of Ember's [get]: host function 6
    resolves the one dotted path the classifier asks for. *)
Definition path_host : nat → value → list value → M value := λ n _ args,
  match n, args with
  | 6, [o; VStr "constructor.fields"] =>
      let! c := get o (KStr "constructor") in get c (KStr "fields")
  | 6, [o; VStr s] => get o (KStr s)
  | _, _ => throw TypeError
  end.

Definition model_heap_with_options : heap :=
  model_heap ++
  [ builtin_fn 6;
    plain [ (KStr "safeGet", data (VRef 18)) ] ].

(** The same model once line 129-130 have run on a fresh [options]. *)
Definition model_heap_defaults : heap :=
  model_heap ++
  [ plain [ (KStr "safeGet", data (VRef 19)); (KStr "safeSet", data (VRef 20)) ];
    function_object FDefaultGet;
    function_object FDefaultSet ].

(** A target with one own field and an inherited [rel]; the source updates
    the field and then trips over a [null] below the inherited key. *)
Definition partial_heap : heap :=
  realm ++
  [ plain [ (KStr "rel", data VNull) ];
    Obj (Some 13) KOrdinary true [ (KStr "a", data (VNum 1)) ];
    plain [ (KStr "x", data VNull) ];
    plain [ (KStr "a", data (VNum 2)); (KStr "rel", data (VRef 15)) ] ].

(** The [in]-style existence check with a failing check read as "absent". *)
Definition exists_in (h : heap) (v : value) (k : key) : bool :=
  match has_property v k h with
  | Ret b _ => b
  | _ => false
  end.

Definition own_enumerable (h : heap) (v : value) (k : key) : bool :=
  match own_of h v k with
  | Some p => is_enumerable p
  | None => false
  end.

(** ** Well-formed heaps and result predicates *)

(** References point into the heap. *)
Definition value_ok (n : nat) (v : value) : bool :=
  match v with
  | VRef l => (l <? n)%nat
  | _ => true
  end.

Definition prop_ok (n : nat) (p : prop) : bool :=
  match p with
  | PData v _ _ => value_ok n v
  | PProtoAccessor => true
  end.

Definition obj_ok (n : nat) (o : obj) : bool :=
  match o_proto o with
  | Some p => (p <? n)%nat
  | None => true
  end && forallb (λ kp, prop_ok n kp.2) (o_props o).

(** The well-known prototypes exist, [Object.prototype] ends every chain
    that reaches it, and no object holds a dangling reference. *)
Definition heap_ok (h : heap) : bool :=
  (SymbolProto <? length h)%nat &&
  negb (present (proto_of h ObjectProto)) &&
  forallb (obj_ok (length h)) h.

(** [Object.prototype] has not been given properties named after the two
    accessors. *)
Definition accessors_not_inherited (h : heap) : bool :=
  negb (present (plookup (KStr "safeGet") (own_props h ObjectProto))) &&
  negb (present (plookup (KStr "safeSet") (own_props h ObjectProto))).

(** The [options] object as lines 129-130 leave a fresh [{}] allocated at
    location [n]. *)
Definition default_options (n : nat) : obj :=
  plain [ (KStr "safeGet", data (VRef (S n))); (KStr "safeSet", data (VRef (S (S n)))) ].

Definition with_defaults (h : heap) : heap :=
  h ++ [ default_options (length h); function_object FDefaultGet; function_object FDefaultSet ].

(** Objects that existed in [h] are the same in [h']. *)
Definition preserved (h h' : heap) : Prop :=
  ∀ l, l < length h → h' !! l = h !! l.

(** [[1, 2, 3]], [[4, 5]] and an empty object. *)
Definition array_of (vs : list value) : obj :=
  Obj (Some ArrayProto) KArray true
    (imap (λ i v, (KStr (pretty i), data v)) vs ++
     [ (KStr "length", PData (VNum (Z.of_nat (length vs))) false true) ]).

Definition array_heap : heap :=
  realm ++
  [ array_of [VNum 1; VNum 2; VNum 3];
    array_of [VNum 4; VNum 5];
    plain [] ].

(** ** The shape of a source tree, as the fallback path builder sees it *)







(** Objects below location [n] are the same in [h] and [h']. *)
Definition same_below (n : nat) (h h' : heap) : Prop :=
  ∀ l, l < n → h' !! l = h !! l.

(** The record of [wrapper_heap] after lines 129-130 have run. *)
Definition wrapper_heap_defaults : heap := with_defaults wrapper_heap.

(** ** Protected objects

    A set [P] of locations the merge has no business with: the [options]
    object and whatever the caller keeps away from target and source.
    Objects outside [P] never refer to one inside, so no read of target or
    source data can produce a protected reference. *)

Definition outside (P : list loc) (v : value) : bool :=
  match v with
  | VRef l => bool_decide (l ∉ P)
  | _ => true
  end.

Definition prop_outside (P : list loc) (p : prop) : bool :=
  match p with
  | PData v _ _ => outside P v
  | PProtoAccessor => true
  end.

Definition obj_outside (P : list loc) (o : obj) : bool :=
  match o_proto o with
  | Some p => bool_decide (p ∉ P)
  | None => true
  end && forallb (λ kp, prop_outside P kp.2) (o_props o).

Definition sealed (P : list loc) (h : heap) : bool :=
  forallb (λ lo, bool_decide (lo.1 ∈ P) || obj_outside P lo.2) (imap pair h).

(** What a merge preserves: the heap only grows, protected objects keep
    their contents, unprotected ones keep clear of protected references. *)
Definition frame_inv (P : list loc) (h1 h' : heap) : Prop :=
  length h1 ≤ length h' ∧
  (∀ l, l ∈ P → h' !! l = h1 !! l) ∧
  (∀ l o, h' !! l = Some o → l ∉ P → obj_outside P o = true).

Definition keeps {A} (P : list loc) (h1 : heap) (Q : A → Prop) (m : M A) : Prop :=
  ∀ h', frame_inv P h1 h' →
    match m h' with
    | Ret a h'' => frame_inv P h1 h'' ∧ Q a
    | Throw _ h'' => frame_inv P h1 h''
    | OutOfFuel => True
    end.

(** A computation that only reads. *)
Definition reads {A} (m : M A) : Prop :=
  ∀ h, (∃ a, m h = Ret a h) ∨ (∃ e, m h = Throw e h).

(** An accessor is supplied on [options]: an own writable data property
    with a truthy value. *)
Definition supplied (h : heap) (lo : loc) (name : string) : Prop :=
  ∃ v e, plookup (KStr name) (own_props h lo) = Some (PData v e true) ∧ truthy v = true.

(** The heap after one of lines 129-130 has run on the object at [lo]: a
    missing accessor is created as a fresh function object and stored
    under [name]; a supplied one leaves everything as it is. *)
Definition install (name : string) (f : fn_id) (lo : loc) (h : heap) : heap :=
  match plookup (KStr name) (own_props h lo) with
  | None =>
      set_obj lo (with_props (pinsert (KStr name) (data (VRef (length h)))))
        (h ++ [function_object f])
  | Some _ => h
  end.

Definition normalized (lo : loc) (h : heap) : heap :=
  install "safeSet" FDefaultSet lo (install "safeGet" FDefaultGet lo h).

Definition lacks (h : heap) (lo : loc) (name : string) : Prop :=
  plookup (KStr name) (own_props h lo) = None.

(** A caller's [options] next to the record of [wrapper_heap]. *)
Definition options_heap : heap := wrapper_heap ++ [ plain [] ].

(** ** JSON-like trees

    Plain data as [JSON.parse] or a structural clone produces it: objects
    and arrays whose properties are enumerable writable data properties,
    with primitive leaves.  A tree names the location of each of its
    objects, so that it can be laid out in a heap. *)

Inductive ht :=
| HPrim (v : value)
| HNode (l : loc) (arr : bool) (fields : list (string * ht)).

Definition root (t : ht) : value :=
  match t with
  | HPrim v => v
  | HNode l _ _ => VRef l
  end.

Definition node_table (fields : list (string * ht)) : list (key * prop) :=
  (λ kc, (KStr kc.1, data (root kc.2))) <$> fields.

Definition node_obj (arr : bool) (fields : list (string * ht)) : obj :=
  if arr
  then Obj (Some ArrayProto) KArray true
         (node_table fields ++
          [ (KStr "length", PData (VNum (Z.of_nat (length fields))) false true) ])
  else plain (node_table fields).

(** The objects of a tree, each with the location it lives at. *)
Fixpoint cells (t : ht) : list (loc * obj) :=
  match t with
  | HPrim _ => []
  | HNode l arr fields => (l, node_obj arr fields) :: flat_map (λ kc, cells kc.2) fields
  end.

Definition locs (t : ht) : list loc := (cells t).*1.

Definition holds (h : heap) (t : ht) : Prop :=
  ∀ l o, (l, o) ∈ cells t → h !! l = Some o.

Fixpoint depth (t : ht) : nat :=
  match t with
  | HPrim _ => 0
  | HNode _ _ fields => S (foldr (λ kc n, max (depth kc.2) n) 0 fields)
  end.

Definition is_prim (v : value) : bool :=
  match v with
  | VRef _ => false
  | _ => true
  end.

(** The dotted name the classifier reserves for the host-model
    convention. *)
Definition fields_key : string := "constructor.fields".

(** Leaves are primitives, keys are distinct, and no property is named
    after the host-model convention. *)
Fixpoint wf_tree (t : ht) : bool :=
  match t with
  | HPrim v => is_prim v
  | HNode _ _ fields =>
      bool_decide (NoDup fields.*1) &&
      forallb (λ kc, negb (bool_decide (kc.1 = fields_key)) && wf_tree kc.2) fields
  end.

(** No object of the tree owns a [value] property: the tree holds no
    pending-change wrapper, however recognised. *)
Fixpoint no_value_key (t : ht) : bool :=
  match t with
  | HPrim _ => true
  | HNode _ _ fields =>
      forallb (λ kc, negb (bool_decide (kc.1 = "value")) && no_value_key kc.2) fields
  end.

Fixpoint has_null (t : ht) : bool :=
  match t with
  | HPrim v => bool_decide (v = VNull)
  | HNode _ _ fields => existsb (λ kc, has_null kc.2) fields
  end.

Definition is_node (t : ht) : bool :=
  match t with
  | HPrim _ => false
  | HNode _ _ _ => true
  end.

(** The heap starts with the standard realm. *)
Definition standard (h : heap) : Prop :=
  ∀ l, l < length realm → h !! l = realm !! l.

(** The [options] object at [lo] and the two default accessors right
    after it, as a call without [options] creates them. *)
Definition defaults_at (lo : loc) (h : heap) : Prop :=
  h !! lo = Some (default_options lo) ∧
  h !! S lo = Some (function_object FDefaultGet) ∧
  h !! S (S lo) = Some (function_object FDefaultSet).

(** A key [Object.prototype] defines. *)
Definition inherited (k : string) : bool :=
  present (plookup (KStr k) (own_props realm ObjectProto)).

(** Assigning to [x[k]] on a primitive [x] succeeds only through an
    inherited setter. *)
Definition prim_accepts (x : value) (k : key) : bool :=
  negb (is_nullish x) &&
  match resolve realm x k with
  | Some PProtoAccessor => true
  | _ => false
  end.

(** [merged D h v s]: in heap [h] the value [v] already incorporates the
    source tree [s]; the target objects involved lie in [D]. *)
Inductive merged (D : list loc) (h : heap) : value → ht → Prop :=
| merged_alias s :
    merged D h (root s) s
| merged_prim x l fields :
    is_prim x = true →
    (fields = [] ∨ is_nullish x = false) →
    (∀ k c, (k, c) ∈ fields → prim_accepts x (KStr k) = true) →
    merged D h x (HNode l false fields)
| merged_node lt tb l fields :
    lt ∈ D →
    h !! lt = Some (plain tb) →
    plookup (KStr fields_key) tb = None →
    ((∃ k c, (k, c) ∈ fields ∧ plookup (KStr k) tb = None ∧ inherited k = true) →
     has_null (HNode l false fields) = false) →
    (∀ k c, (k, c) ∈ fields →
       (plookup (KStr k) tb = None ∧ inherited k = true) ∨
       (∃ x, plookup (KStr k) tb = Some (data x) ∧ merged D h x c)) →
    merged D h (VRef lt) (HNode l false fields).

(** Only objects in [W] may differ between [h] and [h']. *)
Definition frame (W : list loc) (h h' : heap) : Prop :=
  length h ≤ length h' ∧ ∀ l, l < length h → l ∉ W → h' !! l = h !! l.

(** A source that was frozen in part: the nested object is neither
    extensible nor writable. *)
Definition frozen_heap : heap :=
  realm ++
  [ plain [];
    Obj (Some ObjectProto) KOrdinary false [ (KStr "x", PData (VNum 1) true false) ];
    plain [ (KStr "a", data (VRef 14)) ] ].

(** The state of [mergeTargetAndSource] on a target object at [lt] that
    was, in heap [h], the tree node with fields [tf]: the source keys in
    [seen] have been handled and the target incorporates their values;
    the other keys and the subtrees below them are as they were.
    [nulls] tells whether the source holds a [null]. *)
Definition merging (h : heap) (lt : loc) (tf sf : list (string * ht)) (nulls : bool)
    (seen : list key) (g : heap) : Prop :=
  frame (locs (HNode lt false tf)) h g ∧
  ∃ tb,
    g !! lt = Some (plain tb) ∧
    plookup (KStr fields_key) tb = None ∧
    (∀ k c, (k, c) ∈ sf → KStr k ∈ seen →
       (plookup (KStr k) tb = None ∧ inherited k = true ∧ nulls = false) ∨
       (∃ x D, plookup (KStr k) tb = Some (data x) ∧ merged D g x c ∧
               ∀ l, l ∈ D → ∃ t, (k, t) ∈ tf ∧ l ∈ locs t)) ∧
    (∀ k, KStr k ∉ seen → plookup (KStr k) tb = plookup (KStr k) (node_table tf)) ∧
    (∀ k t l, (k, t) ∈ tf → KStr k ∉ seen → l ∈ locs t → g !! l = h !! l).

(** [{a: {x: 1}, b: 2}] as target and
    [{a: {y: 3}, c: [4], toString: 5}] as source, laid out after the
    realm. *)
Definition target_tree : ht :=
  HNode 13 false [ ("a", HNode 14 false [ ("x", HPrim (VNum 1)) ]); ("b", HPrim (VNum 2)) ].

Definition source_tree : ht :=
  HNode 15 false
    [ ("a", HNode 16 false [ ("y", HPrim (VNum 3)) ]);
      ("c", HNode 17 true [ ("0", HPrim (VNum 4)) ]);
      ("toString", HPrim (VNum 5)) ].

Definition tree_heap : heap :=
  realm ++ (cells target_tree).*2 ++ (cells source_tree).*2.

(** A source with no key for [getKeys] to list: a number, a boolean, a
    symbol, the empty string, or an object other than an array that owns
    no enumerable property. *)
Definition keyless (h : heap) (v : value) : bool :=
  match v with
  | VNum _ | VBool _ | VSym _ => true
  | VStr s => bool_decide (s = "")
  | VRef l =>
      (l <? length h)%nat && negb (isArray h v) &&
      forallb (λ kp : key * prop, negb (is_enumerable kp.2)) (own_props h l)
  | VUndef | VNull => false
  end.

Definition is_array (t : ht) : bool :=
  match t with
  | HNode _ arr _ => arr
  | HPrim _ => false
  end.

(** What line 104 or line 112 stores under a key the target [t] already
    owns when the source holds [c] there: the target's own value when
    both are mergeable non-arrays (it was merged in place), the source's
    value otherwise. *)
Definition merge_value (t c : ht) : value :=
  if is_node c && negb (is_array c) && negb (is_array t) then root t else root c.

(** [merging], with the exact entries of the target's table for the keys
    handled so far: a key the target had holds [merge_value]; a new key
    holds the source's value, unless [Object.prototype] defines it, in
    which case it was skipped. *)
Definition merging_exact (h : heap) (lt : loc) (tf sf : list (string * ht)) (nulls : bool)
    (seen : list key) (g : heap) : Prop :=
  merging h lt tf sf nulls seen g ∧
  ∃ tb,
    g !! lt = Some (plain tb) ∧
    (∀ k c t, (k, c) ∈ sf → KStr k ∈ seen → (k, t) ∈ tf →
       plookup (KStr k) tb = Some (data (merge_value t c))) ∧
    (∀ k c, (k, c) ∈ sf → KStr k ∈ seen → k ∉ tf.*1 →
       plookup (KStr k) tb = if inherited k then None else Some (data (root c))).

(** [{when: {}}] as target (13, 14), [{when: new Date()}] as source
    (15, 16), and the options a call creates (17 to 19). *)
Definition date_heap : heap :=
  with_defaults
    (realm ++
     [ plain [ (KStr "when", data (VRef 14)) ];
       plain [];
       plain [ (KStr "when", data (VRef 16)) ];
       Obj (Some ObjectProto) KDate true [] ]).

(** ** What the path builder collects

    The child a node holds under a key. *)
Definition field (fields : list (string * ht)) (k : string) : option ht :=
  snd <$> find (λ kc : string * ht, bool_decide (kc.1 = k)) fields.

(** The payload of a subtree the path builder takes for a pending
    change: an object with an own [value] property. *)
Definition wrapped_value (c : ht) : option value :=
  match c with
  | HNode _ _ fields => root <$> field fields "value"
  | HPrim _ => None
  end.

(** The dotted paths the depth-first walk reaches, in the order of the
    walk, each with the payload found there. *)
Fixpoint paths (t : ht) (prefix : list string) : list (string * value) :=
  match t with
  | HPrim _ => []
  | HNode _ _ fields =>
      flat_map (λ kc : string * ht,
                  match wrapped_value kc.2 with
                  | Some v => [ (join_path (prefix ++ [kc.1]), v) ]
                  | None => paths kc.2 (prefix ++ [kc.1])
                  end) fields
  end.

(** No [null] on the way: the walk does not look below a wrapper. *)
Fixpoint walkable (t : ht) : bool :=
  match t with
  | HPrim v => negb (bool_decide (v = VNull))
  | HNode _ _ fields =>
      forallb (λ kc : string * ht, present (wrapped_value kc.2) || walkable kc.2) fields
  end.

(** [{profile: {first: {value: "Grace"}, last: {value: "Hopper"}},
      age: {value: 36}, tags: [1]}] at 14 to 19, after an empty object
    at 13. *)
Definition changes_tree : ht :=
  HNode 14 false
    [ ("profile",
       HNode 15 false
         [ ("first", HNode 16 false [ ("value", HPrim (VStr "Grace")) ]);
           ("last", HNode 17 false [ ("value", HPrim (VStr "Hopper")) ]) ]);
      ("age", HNode 18 false [ ("value", HPrim (VNum 36)) ]);
      ("tags", HNode 19 true [ ("0", HPrim (VNum 1)) ]) ].

Definition changes_heap : heap :=
  realm ++ [ plain [] ] ++ (cells changes_tree).*2.

(** ** When a merge of plain data goes through

    [fits s t]: nothing stands in the way of merging the source tree [s]
    into the target tree [t].  An array on either side ends the descent
    (the source replaces the target); a primitive target takes only keys
    that assign through an inherited setter; a key the target has is
    merged recursively; a key only [Object.prototype] has sends the path
    builder over the whole source object, which must then hold no
    [null]. *)
Fixpoint fits (s t : ht) {struct s} : bool :=
  match s with
  | HPrim _ => true
  | HNode _ sarr sf =>
      sarr ||
      match t with
      | HPrim x => forallb (λ kc : string * ht, prim_accepts x (KStr kc.1)) sf
      | HNode _ tarr tf =>
          tarr ||
          forallb (λ kc : string * ht,
                     match field tf kc.1 with
                     | Some t' => fits kc.2 t'
                     | None => negb (inherited kc.1) || negb (has_null s)
                     end) sf
      end
  end.

(** [{b: {y: 3}}], a source that meets the primitive [b] of
    [target_tree], laid out after [tree_heap]. *)
Definition misfit_tree : ht :=
  HNode 18 false [ ("b", HNode 19 false [ ("y", HPrim (VNum 3)) ]) ].

Definition misfit_heap : heap := tree_heap ++ (cells misfit_tree).*2.

(** [{}] as target (13) and [{profile: {name: new Change("Grace")}}] as
    source (16): a genuine [Change] (14) below a key the target lacks. *)
Definition nested_change_heap : heap :=
  realm ++
  [ plain [];
    Wrap (VStr "Grace");
    plain [ (KStr "name", data (VRef 14)) ];
    plain [ (KStr "profile", data (VRef 15)) ] ].

(** A target (13), the source [{a: 1}] (14) and [Object.freeze({})]
    passed as [options] (15). *)
Definition frozen_options_heap : heap :=
  realm ++
  [ plain [];
    plain [ (KStr "a", data (VNum 1)) ];
    Obj (Some ObjectProto) KOrdinary false [] ].

(** An empty object (13) passed both as target and as [options], and the
    source [{safeGet: 0}] (14). *)
Definition aliased_options_heap : heap :=
  realm ++
  [ plain [];
    plain [ (KStr "safeGet", data (VNum 0)) ] ].

(** * Properties *)

(** ** Classifier *)

Lemma propertyIsOnObject_total object property h :
  propertyIsOnObject object property h = Ret (exists_in h object property) h.
Proof.
  unfold propertyIsOnObject, try_catch, exists_in, has_property.
  destruct object; reflexivity.
Qed.

Lemma exists_in_is_ref h v k : exists_in h v k = true → ∃ l, v = VRef l.
Proof. destruct v; simpl; try discriminate. eauto. Qed.

Lemma propertyIsUnsafe_after_dynamic host target k options h h1 :
  hasEmberDataProperty host target k options h = Ret false h1 →
  propertyIsUnsafe host target k options h =
    Ret (exists_in h1 target k && negb (own_enumerable h1 target k)) h1.
Proof.
  intros Hdyn. unfold propertyIsUnsafe, bind. rewrite Hdyn.
  rewrite propertyIsOnObject_total.
  destruct (exists_in h1 target k) eqn:Hin; [|reflexivity].
  destruct (exists_in_is_ref _ _ _ Hin) as [l ->].
  unfold hasOwnProperty, propertyIsEnumerable, own_enumerable, ret. simpl.
  destruct (plookup k (own_props h1 l)) as [p|] eqn:Hown; simpl; rewrite ?Hown; reflexivity.
Qed.

(** C5: once the dynamic-field allowance has answered "no", the classifier
    returns [true] exactly when the key exists somewhere in the target
    (with a failing existence check counting as "absent" and never
    propagating) and is not an own enumerable property of it. *)
Theorem C5_unsafe_iff_present_not_own_enumerable host target k options h h1 :
  hasEmberDataProperty host target k options h = Ret false h1 →
  propertyIsOnObject target k h1 = Ret (exists_in h1 target k) h1 ∧
  (∀ e h2, has_property target k h1 = Throw e h2 → exists_in h1 target k = false) ∧
  ∃ b, propertyIsUnsafe host target k options h = Ret b h1 ∧
       (b = true ↔
          exists_in h1 target k = true ∧
          ¬ (present (own_of h1 target k) = true ∧ own_enumerable h1 target k = true)).
Proof.
  intros Hdyn. split; [apply propertyIsOnObject_total|]. split.
  { intros e h2 Hthrow. unfold exists_in. rewrite Hthrow. reflexivity. }
  eexists. split; [apply propertyIsUnsafe_after_dynamic, Hdyn|].
  rewrite andb_true_iff, negb_true_iff. split.
  - intros [Hin Hne]. split; [exact Hin|]. intros [_ He]. congruence.
  - intros [Hin Hne]. split; [exact Hin|].
    destruct (own_enumerable h1 target k) eqn:He; [|reflexivity].
    exfalso. apply Hne. split; [|reflexivity].
    unfold own_enumerable in He. destruct (own_of h1 target k); [reflexivity|discriminate].
Qed.

Lemma C5_witness :
  hasEmberDataProperty no_host (VRef 16) (KStr "age") (VRef 18) model_heap_defaults
    = Ret false model_heap_defaults ∧
  ∃ b, propertyIsUnsafe no_host (VRef 16) (KStr "age") (VRef 18) model_heap_defaults
         = Ret b model_heap_defaults ∧ b = true.
Proof.
  assert (H : hasEmberDataProperty no_host (VRef 16) (KStr "age") (VRef 18) model_heap_defaults
                = Ret false model_heap_defaults) by (vm_compute; reflexivity).
  split; [exact H|].
  destruct (C5_unsafe_iff_present_not_own_enumerable _ _ _ _ _ _ H) as (_ & _ & b & Hb & Hiff).
  exists b. split; [exact Hb|]. apply Hiff. split; [vm_compute; reflexivity|].
  intros [_ He]. vm_compute in He. discriminate.
Defined.

(** ** Worked examples of the spec *)

(** C1: merging [JSON.parse('{"__proto__":{"polluted":true}}')] into [{}]
    returns the target and leaves [Object.prototype] as it was, without
    any [polluted] property: [__proto__] is reachable on the target only
    through the prototype chain, so the classifier answers "unsafe" and the
    key is never leaf-assigned. *)
Theorem C1_no_prototype_pollution host n :
  ∃ h', mergeDeep host (3 + n) (VRef 13) (VRef 15) VUndef pollution_heap = Ret (VRef 13) h' ∧
        h' !! ObjectProto = pollution_heap !! ObjectProto ∧
        resolve h' (VRef ObjectProto) (KStr "polluted") = None ∧
        resolve h' (VRef 13) (KStr "polluted") = None ∧
        h' !! 13 = pollution_heap !! 13 ∧
        exists_in h' (VRef 13) (KStr "__proto__") = true ∧
        own_of h' (VRef 13) (KStr "__proto__") = None ∧
        propertyIsUnsafe host (VRef 13) (KStr "__proto__") (VRef 16) h' = Ret true h'.
Proof. eexists. repeat split; vm_compute; reflexivity. Qed.

(** C2 (observed behaviour): called without [options], the merge still
    resolves the unsafe key [rel] through the fallback path builder and
    writes the payload under the literal key ["rel.sub"] of the target;
    the guard on [options.safeSet] never sees it absent. *)
Theorem C2_unsafe_key_path_resolved_without_safeSet host n :
  ∃ h', mergeDeep host (3 + n) (VRef 14) (VRef 17) VUndef fallback_heap = Ret (VRef 14) h' ∧
        propertyIsUnsafe host (VRef 14) (KStr "rel") (VRef 18) h' = Ret true h' ∧
        own_of fallback_heap (VRef 14) (KStr "rel.sub") = None ∧
        own_of h' (VRef 14) (KStr "rel.sub") = Some (data (VNum 7)).
Proof. eexists. repeat split; vm_compute; reflexivity. Qed.

(** C3 (observed behaviour): wrappers do reach the target.  At a key the
    target has, a source value recognised structurally (it owns a
    [value] field, without being a [Change]) is stored in the target as
    it is; and a genuine [Change] that sits below a key the target lacks
    arrives with the source object that holds it, which line 112 stores
    by reference: [target.profile.name] is then the wrapper itself, not
    its payload. *)
Theorem C3_wrappers_are_stored_in_target host n :
  (∃ h', mergeDeep host (2 + n) (VRef 13) (VRef 15) VUndef wrapper_heap = Ret (VRef 13) h' ∧
         own_of h' (VRef 13) (KStr "name") = Some (data (VRef 14)) ∧
         own_of h' (VRef 14) (KStr "value") = Some (data (VStr "Grace")) ∧
         instanceof h' (VRef 14) ChangeProto = false) ∧
  (∃ h', mergeDeep host (2 + n) (VRef 13) (VRef 16) VUndef nested_change_heap
         = Ret (VRef 13) h' ∧
         own_of nested_change_heap (VRef 13) (KStr "profile") = None ∧
         own_of h' (VRef 13) (KStr "profile") = Some (data (VRef 15)) ∧
         own_of h' (VRef 15) (KStr "name") = Some (data (VRef 14)) ∧
         own_of h' (VRef 14) (KStr "value") = Some (data (VStr "Grace")) ∧
         instanceof h' (VRef 14) ChangeProto = true).
Proof. split; eexists; repeat split; vm_compute; reflexivity. Qed.

(** The first of the two runs, step by step: a source value that merely
    owns a [value] field is stored in the target as it is. *)
Lemma structural_wrapper_is_stored_whole :
  ∃ h', mergeDeep no_host 2 (VRef 13) (VRef 15) VUndef wrapper_heap = Ret (VRef 13) h' ∧
        own_of wrapper_heap (VRef 15) (KStr "name") = Some (data (VRef 14)) ∧
        present (own_of wrapper_heap (VRef 14) (KStr "value")) = true ∧
        own_of h' (VRef 13) (KStr "name") = Some (data (VRef 14)) ∧
        present (own_of h' (VRef 14) (KStr "value")) = true.
Proof. eexists. repeat split; vm_compute; reflexivity. Qed.

(** C4, as stated, fails for the default accessors: [fields] is reachable
    at [target.constructor.fields] and contains ["age"], yet the classifier
    answers "unsafe" and the merge of [{age: 30}] does not write [age]. *)
Lemma C4_counterexample :
  get (VRef 16) (KStr "constructor") model_heap_defaults = Ret (VRef 13) model_heap_defaults ∧
  get (VRef 13) (KStr "fields") model_heap_defaults = Ret (VRef 14) model_heap_defaults ∧
  instanceof model_heap_defaults (VRef 14) MapProto = true ∧
  map_has (VRef 14) (KStr "age") model_heap_defaults = Ret true model_heap_defaults ∧
  propertyIsUnsafe no_host (VRef 16) (KStr "age") (VRef 18) model_heap_defaults
    = Ret true model_heap_defaults ∧
  ∃ h', mergeDeep no_host 3 (VRef 16) (VRef 17) VUndef model_heap = Ret (VRef 16) h' ∧
        own_of h' (VRef 16) (KStr "age") = None.
Proof. repeat split; try (vm_compute; reflexivity). eexists. split; vm_compute; reflexivity. Qed.

(** C4 (amended): whenever the configured [safeGet] answers the request
    for ["constructor.fields"] on the target with a [Map] that has the key,
    the classifier returns "safe", whatever the target's own properties
    and prototype chain are. *)
Theorem C4_dynamic_field_is_safe host target k options h h1 fields :
  safeGet host options target (KStr "constructor.fields") h = Ret fields h1 →
  instanceof h1 fields MapProto = true →
  map_has fields k h1 = Ret true h1 →
  propertyIsUnsafe host target k options h = Ret false h1.
Proof.
  intros Hget Hinst Hhas.
  unfold propertyIsUnsafe, hasEmberDataProperty, bind. rewrite Hget, Hinst, Hhas. reflexivity.
Qed.

Lemma C4_witness :
  safeGet path_host (VRef 19) (VRef 16) (KStr "constructor.fields") model_heap_with_options
    = Ret (VRef 14) model_heap_with_options ∧
  exists_in model_heap_with_options (VRef 16) (KStr "age") = true ∧
  own_of model_heap_with_options (VRef 16) (KStr "age") = None ∧
  propertyIsUnsafe path_host (VRef 16) (KStr "age") (VRef 19) model_heap_with_options
    = Ret false model_heap_with_options ∧
  ∃ h', mergeDeep path_host 3 (VRef 16) (VRef 17) (VRef 19) model_heap_with_options
          = Ret (VRef 16) h' ∧
        own_of h' (VRef 16) (KStr "age") = Some (data (VNum 30)).
Proof.
  split; [vm_compute; reflexivity|].
  split; [vm_compute; reflexivity|].
  split; [vm_compute; reflexivity|].
  split.
  - apply (C4_dynamic_field_is_safe path_host (VRef 16) (KStr "age") (VRef 19)
             model_heap_with_options model_heap_with_options (VRef 14));
      vm_compute; reflexivity.
  - eexists. split; vm_compute; reflexivity.
Defined.

(** ** Top-level error handling *)

Lemma mergeDeep_object_case host fuel target source options opts h h1 :
  normalize_options options h = Ret opts h1 →
  isArray h1 target = false →
  isArray h1 source = false →
  mergeDeep host (S fuel) target source options h =
    try_catch (mergeTargetAndSource host fuel (mergeDeep host fuel) target source opts)
      (λ _, throw merge_failure) h1.
Proof. intros Hnorm Ht Hs. simpl. unfold bind at 1. rewrite Hnorm, Ht, Hs. reflexivity. Qed.

(** C7: in the object-merge case every exception raised by the merger,
    whatever its origin, surfaces as the one generic failure, raised on
    the heap the merger left behind (nothing is rolled back); the merge
    never lets any other exception through. *)
Theorem C7_failures_rewrapped_without_rollback host fuel target source options opts h h1 :
  normalize_options options h = Ret opts h1 →
  isArray h1 target = false →
  isArray h1 source = false →
  (∀ e h2,
     mergeTargetAndSource host fuel (mergeDeep host fuel) target source opts h1 = Throw e h2 →
     mergeDeep host (S fuel) target source options h = Throw merge_failure h2) ∧
  (∀ e h2,
     mergeDeep host (S fuel) target source options h = Throw e h2 → e = merge_failure).
Proof.
  intros Hnorm Ht Hs.
  pose proof (mergeDeep_object_case host fuel _ _ _ _ _ _ Hnorm Ht Hs) as Hstep.
  split; intros e h2 H.
  - rewrite Hstep. unfold try_catch. rewrite H. reflexivity.
  - rewrite Hstep in H. unfold try_catch in H.
    destruct (mergeTargetAndSource _ _ _ _ _ _ _); try discriminate.
    unfold throw in H. congruence.
Qed.

Lemma C7_witness :
  ∃ h1 h2,
    normalize_options VUndef partial_heap = Ret (VRef 17) h1 ∧
    mergeTargetAndSource no_host 3 (mergeDeep no_host 3) (VRef 14) (VRef 16) (VRef 17) h1
      = Throw TypeError h2 ∧
    mergeDeep no_host 4 (VRef 14) (VRef 16) VUndef partial_heap = Throw merge_failure h2 ∧
    own_of partial_heap (VRef 14) (KStr "a") = Some (data (VNum 1)) ∧
    own_of h2 (VRef 14) (KStr "a") = Some (data (VNum 2)).
Proof.
  eexists. eexists.
  assert (Hn : normalize_options VUndef partial_heap =
               Ret (VRef 17) (partial_heap ++
                 [ plain [ (KStr "safeGet", data (VRef 18)); (KStr "safeSet", data (VRef 19)) ];
                   function_object FDefaultGet; function_object FDefaultSet ]))
    by (vm_compute; reflexivity).
  split; [exact Hn|].
  split; [vm_compute; reflexivity|].
  split.
  - apply (proj1 (C7_failures_rewrapped_without_rollback no_host 3 (VRef 14) (VRef 16)
                    VUndef (VRef 17) partial_heap _ Hn eq_refl eq_refl) TypeError).
    vm_compute; reflexivity.
  - split; vm_compute; reflexivity.
Defined.
(** ** Heap lemmas *)

Lemma bind_Ret {A B} (m : M A) (f : A → M B) h a h1 :
  m h = Ret a h1 → bind m f h = f a h1.
Proof. intros H. unfold bind. rewrite H. reflexivity. Qed.

Lemma bind_Throw {A B} (m : M A) (f : A → M B) h e h1 :
  m h = Throw e h1 → bind m f h = Throw e h1.
Proof. intros H. unfold bind. rewrite H. reflexivity. Qed.

Lemma present_false {A} (o : option A) : negb (present o) = true → o = None.
Proof. destruct o; [discriminate|reflexivity]. Qed.

Lemma heap_ok_length h : heap_ok h = true → SymbolProto < length h.
Proof. unfold heap_ok. rewrite !andb_true_iff, Nat.ltb_lt. tauto. Qed.

Lemma heap_ok_root h : heap_ok h = true → proto_of h ObjectProto = None.
Proof. unfold heap_ok. rewrite !andb_true_iff. intros [[_ H] _]. apply present_false, H. Qed.

Lemma heap_ok_obj h l o : heap_ok h = true → h !! l = Some o → obj_ok (length h) o = true.
Proof.
  unfold heap_ok. rewrite !andb_true_iff, forallb_forall. intros [_ H] Hl.
  apply H, list_elem_of_In, list_elem_of_lookup. eauto.
Qed.

Lemma own_props_app h ext l : l < length h → own_props (h ++ ext) l = own_props h l.
Proof. intros Hl. unfold own_props. rewrite lookup_app_l by exact Hl. reflexivity. Qed.

Lemma proto_of_app h ext l : l < length h → proto_of (h ++ ext) l = proto_of h l.
Proof. intros Hl. unfold proto_of. rewrite lookup_app_l by exact Hl. reflexivity. Qed.

Lemma kind_of_app h ext l : l < length h → kind_of (h ++ ext) l = kind_of h l.
Proof. intros Hl. unfold kind_of. rewrite lookup_app_l by exact Hl. reflexivity. Qed.

Lemma isArray_app h ext v : value_ok (length h) v = true → isArray (h ++ ext) v = isArray h v.
Proof.
  destruct v; simpl; try reflexivity. rewrite Nat.ltb_lt. intros Hl.
  rewrite kind_of_app by exact Hl. reflexivity.
Qed.

(** Lookup on an object whose prototype is [Object.prototype]. *)
Lemma chain_prop_plain h l k :
  proto_of h l = Some ObjectProto →
  proto_of h ObjectProto = None →
  chain_prop h l k =
    match plookup k (own_props h l) with
    | Some p => Some p
    | None => plookup k (own_props h ObjectProto)
    end.
Proof.
  intros Hl Hroot. unfold chain_prop.
  destruct h as [|o h]; [unfold proto_of in Hl; rewrite lookup_nil in Hl; discriminate|].
  cbn [length find_prop]. rewrite Hl, Hroot.
  destruct (plookup k (own_props (o :: h) l)); [reflexivity|].
  destruct (plookup k (own_props (o :: h) ObjectProto)); reflexivity.
Qed.

Lemma set_obj_length l f h : length (set_obj l f h) = length h.
Proof. unfold set_obj. destruct (h !! l); [apply length_insert|reflexivity]. Qed.

Lemma set_obj_other l f h l' : l ≠ l' → set_obj l f h !! l' = h !! l'.
Proof.
  intros Hne. unfold set_obj. destruct (h !! l); [|reflexivity].
  apply list_lookup_insert_ne, Hne.
Qed.

Lemma set_obj_same l f h o : h !! l = Some o → set_obj l f h !! l = Some (f o).
Proof.
  intros Hl. unfold set_obj. rewrite Hl. apply list_lookup_insert_eq.
  eapply lookup_lt_Some, Hl.
Qed.

Lemma set_obj_app_fresh h o ext f :
  set_obj (length h) f (h ++ o :: ext) = h ++ f o :: ext.
Proof.
  unfold set_obj. rewrite list_lookup_middle by reflexivity.
  rewrite insert_app_r_alt by lia. rewrite Nat.sub_diag. reflexivity.
Qed.

Lemma chain_prop_root h k :
  proto_of h ObjectProto = None →
  chain_prop h ObjectProto k = plookup k (own_props h ObjectProto).
Proof.
  intros Hroot. unfold chain_prop. cbn [find_prop]. rewrite Hroot.
  destruct (plookup k (own_props h ObjectProto)); reflexivity.
Qed.

(** One of lines 129-130 on an object that lacks the accessor: a function
    object is created and stored under [name]. *)
Lemma install_default_fresh h ps ext name f :
  ObjectProto < length h →
  proto_of h ObjectProto = None →
  plookup (KStr name) (own_props h ObjectProto) = None →
  plookup (KStr name) ps = None →
  install_default (VRef (length h)) name f (h ++ plain ps :: ext) =
    Ret tt (h ++ plain (pinsert (KStr name) (data (VRef (length (h ++ plain ps :: ext)))) ps)
              :: ext ++ [function_object f]).
Proof.
  intros Hlen Hroot Hinh Hown.
  set (l := length h). set (h0 := h ++ plain ps :: ext).
  assert (Hobj : ∀ ext', (h ++ plain ps :: ext') !! l = Some (plain ps))
    by (intros; apply list_lookup_middle; reflexivity).
  assert (Hr : ∀ ext', proto_of (h ++ ext') ObjectProto = None)
    by (intros; rewrite proto_of_app by exact Hlen; exact Hroot).
  assert (Hro : ∀ ext', plookup (KStr name) (own_props (h ++ ext') ObjectProto) = None)
    by (intros; rewrite own_props_app by exact Hlen; exact Hinh).
  assert (Hget : get (VRef l) (KStr name) h0 = Ret VUndef h0).
  { unfold get, resolve. simpl is_nullish. cbn iota.
    rewrite chain_prop_plain; [|unfold proto_of, h0; rewrite Hobj; reflexivity|apply Hr].
    unfold own_props at 1. unfold h0 at 1. rewrite Hobj. simpl o_props. rewrite Hown.
    unfold h0 at 1. rewrite Hro. reflexivity. }
  unfold install_default. rewrite (bind_Ret _ _ _ _ _ Hget). simpl truthy. cbn iota.
  unfold alloc. unfold bind at 1.
  assert (Hh1 : h0 ++ [function_object f] = h ++ plain ps :: (ext ++ [function_object f])).
  { unfold h0. rewrite <- app_assoc. reflexivity. }
  rewrite Hh1. unfold set. simpl is_nullish. cbn iota.
  unfold own_props at 1. rewrite Hobj. simpl o_props. rewrite Hown.
  unfold proto_of at 1. rewrite Hobj. simpl o_proto. cbn iota.
  rewrite chain_prop_root by apply Hr. rewrite Hro.
  unfold extensible. rewrite Hobj. simpl o_ext. cbn iota.
  unfold l. rewrite set_obj_app_fresh. reflexivity.
Qed.

(** Lines 129-130 on a call without [options]. *)
Lemma normalize_fresh h :
  heap_ok h = true → accessors_not_inherited h = true →
  normalize_options VUndef h = Ret (VRef (length h)) (with_defaults h).
Proof.
  intros Hok Hacc. pose proof (heap_ok_length _ Hok) as Hlen. unfold SymbolProto in Hlen.
  pose proof (heap_ok_root _ Hok) as Hroot.
  unfold accessors_not_inherited in Hacc. rewrite andb_true_iff in Hacc.
  destruct Hacc as [Hg%present_false Hs%present_false].
  assert (H0 : ObjectProto < length h) by (unfold ObjectProto; lia).
  unfold normalize_options. unfold alloc at 1. unfold bind at 1.
  erewrite bind_Ret
    by (apply (install_default_fresh h [] [] "safeGet" FDefaultGet); auto).
  cbn [pinsert app].
  erewrite bind_Ret
    by (apply (install_default_fresh h [_] [_] "safeSet" FDefaultSet); auto).
  unfold ret, with_defaults, default_options. rewrite !length_app. cbn [length app].
  rewrite !Nat.add_1_r, Nat.add_succ_r, Nat.add_1_r. reflexivity.
Qed.
(** ** Entry dispatcher *)

Lemma preserved_app h ext : preserved h (h ++ ext).
Proof. intros l Hl. apply lookup_app_l, Hl. Qed.

(** C6: when exactly one of target and source is an array, or both are,
    [mergeDeep(target, source)] returns [source] itself and every object
    that existed before the call, the target included, is left as it was;
    the only effect is the allocation of the call's own [options]. *)
Theorem C6_arrays_are_replaced_wholesale host fuel h target source :
  heap_ok h = true →
  accessors_not_inherited h = true →
  value_ok (length h) target = true →
  value_ok (length h) source = true →
  isArray h target ≠ isArray h source ∨ (isArray h target = true ∧ isArray h source = true) →
  ∃ h', mergeDeep host (S fuel) target source VUndef h = Ret source h' ∧
        preserved h h' ∧
        h' = with_defaults h.
Proof.
  intros Hok Hacc Ht Hs Hshape. exists (with_defaults h).
  split; [|split; [apply preserved_app|reflexivity]].
  cbn [mergeDeep]. rewrite (bind_Ret _ _ _ _ _ (normalize_fresh h Hok Hacc)).
  unfold with_defaults. rewrite !isArray_app by assumption.
  destruct Hshape as [Hne|[Hta Hsa]].
  - rewrite bool_decide_eq_false_2 by congruence. reflexivity.
  - rewrite Hta, Hsa. reflexivity.
Qed.

Lemma C6_witness :
  heap_ok array_heap = true ∧
  isArray array_heap (VRef 13) = true ∧ isArray array_heap (VRef 14) = true ∧
  isArray array_heap (VRef 15) = false ∧
  (∃ h', mergeDeep no_host 1 (VRef 13) (VRef 14) VUndef array_heap = Ret (VRef 14) h' ∧
         preserved array_heap h' ∧ h' = with_defaults array_heap) ∧
  (∃ h', mergeDeep no_host 1 (VRef 15) (VRef 14) VUndef array_heap = Ret (VRef 14) h' ∧
         preserved array_heap h' ∧ h' = with_defaults array_heap) ∧
  (∃ h', mergeDeep no_host 1 (VRef 13) (VRef 15) VUndef array_heap = Ret (VRef 15) h' ∧
         preserved array_heap h' ∧ h' = with_defaults array_heap).
Proof.
  split; [reflexivity|]. split; [reflexivity|]. split; [reflexivity|]. split; [reflexivity|].
  split; [|split].
  - apply (C6_arrays_are_replaced_wholesale no_host 0 array_heap (VRef 13) (VRef 14));
      try reflexivity. right. split; reflexivity.
  - apply (C6_arrays_are_replaced_wholesale no_host 0 array_heap (VRef 15) (VRef 14));
      try reflexivity. left. vm_compute. discriminate.
  - apply (C6_arrays_are_replaced_wholesale no_host 0 array_heap (VRef 13) (VRef 15));
      try reflexivity. left. vm_compute. discriminate.
Defined.
(** ** Reads leave the heap alone, writes touch one object *)

Lemma get_pure v k h :
  (∃ x, get v k h = Ret x h) ∨ get v k h = Throw TypeError h.
Proof.
  unfold get. destruct (is_nullish v); [right; reflexivity|]. left.
  destruct (resolve h v k) as [[x e w|]|]; eauto.
Qed.

Lemma get_Ret v k h x h' : get v k h = Ret x h' → h' = h.
Proof. destruct (get_pure v k h) as [[y Hy]|Hy]; rewrite Hy; congruence. Qed.

Lemma get_Throw v k h e h' : get v k h = Throw e h' → h' = h.
Proof. destruct (get_pure v k h) as [[y Hy]|Hy]; rewrite Hy; congruence. Qed.

Lemma proto_setter_cases recv x h :
  proto_setter recv x h = Ret tt h ∨
  proto_setter recv x h = Throw TypeError h ∨
  ∃ l np, recv = VRef l ∧ proto_setter recv x h = Ret tt (set_obj l (with_proto np) h) ∧
          match np with Some p => x = VRef p | None => x = VNull end.
Proof.
  unfold proto_setter. destruct recv; auto.
  destruct x; auto.
  - destruct (decide _); auto. destruct (negb _); auto. destruct (decide _); auto.
    right. right. exists l, None. auto.
  - destruct (decide _); auto. destruct (negb _); auto. destruct (decide _); auto.
    destruct (on_chain _ _ _ _); auto.
    right. right. eexists l, (Some _). auto.
Qed.

(** What an assignment can do: nothing, fail, or replace the receiver by
    an object with one more or one updated property, or a new prototype. *)
Lemma set_cases v k x h :
  set v k x h = Ret tt h ∨
  set v k x h = Throw TypeError h ∨
  ∃ l, v = VRef l ∧
       ((∃ np, set v k x h = Ret tt (set_obj l (with_proto np) h) ∧
               match np with Some p => x = VRef p | None => x = VNull end) ∨
        (∃ e w, set v k x h = Ret tt (set_obj l (with_props (pupdate k (PData x e w))) h)) ∨
        set v k x h = Ret tt (set_obj l (with_props (pinsert k (PData x true true))) h)).
Proof.
  assert (Hps : ∀ l, v = VRef l →
      proto_setter v x h = Ret tt h ∨ proto_setter v x h = Throw TypeError h ∨
      ∃ l, v = VRef l ∧
       ((∃ np, proto_setter v x h = Ret tt (set_obj l (with_proto np) h) ∧
               match np with Some p => x = VRef p | None => x = VNull end) ∨
        (∃ e w, proto_setter v x h = Ret tt (set_obj l (with_props (pupdate k (PData x e w))) h)) ∨
        proto_setter v x h = Ret tt (set_obj l (with_props (pinsert k (PData x true true))) h))).
  { intros l ->. destruct (proto_setter_cases (VRef l) x h) as [H|[H|(l' & np & Hl & H & Hx)]]; auto.
    right. right. exists l'. split; [exact Hl|]. left. eauto. }
  unfold set. destruct (is_nullish v) eqn:Hn; auto.
  destruct v; try discriminate.
  1-4: destruct (resolve h _ k) as [[? ? ?|]|]; auto;
       destruct (proto_setter_cases _ x h) as [H|[H|(l' & np & Hl & _)]]; auto; discriminate.
  destruct (plookup k (own_props h l)) as [[y e w|]|].
  - destruct w; auto. right. right. exists l. split; [reflexivity|]. right. left. eauto.
  - eapply Hps. reflexivity.
  - destruct (match proto_of h l with Some p => chain_prop h p k | None => None end)
      as [[y e [|]|]|].
    + destruct (extensible h l); auto. right. right. exists l. auto.
    + auto.
    + eapply Hps. reflexivity.
    + destruct (extensible h l); auto. right. right. exists l. auto.
Qed.


Lemma set_Ret v k x h h' :
  set v k x h = Ret tt h' →
  h' = h ∨ ∃ l f, v = VRef l ∧ h' = set_obj l f h.
Proof.
  destruct (set_cases v k x h) as [H|[H|(l & Hl & [(np & H & _)|[(e' & w & H)|H]])]];
    rewrite H; intros [= <-]; eauto.
Qed.

Lemma set_length v k x h h' : set v k x h = Ret tt h' → length h' = length h.
Proof.
  intros H. destruct (set_Ret _ _ _ _ _ H) as [->|(l & f & _ & ->)]; [reflexivity|].
  apply set_obj_length.
Qed.

Lemma set_other v k x h h' l :
  set v k x h = Ret tt h' → v ≠ VRef l → h' !! l = h !! l.
Proof.
  intros H Hne. destruct (set_Ret _ _ _ _ _ H) as [->|(l' & f & -> & ->)]; [reflexivity|].
  apply set_obj_other. congruence.
Qed.
(** ** The fallback path builder on a source with a [null] in it *)

Lemma same_below_refl n h : same_below n h h.
Proof. intros l _. reflexivity. Qed.

Lemma same_below_trans n h1 h2 h3 :
  same_below n h1 h2 → same_below n h2 h3 → same_below n h1 h3.
Proof. intros H12 H23 l Hl. rewrite H23, H12 by exact Hl. reflexivity. Qed.






Lemma child_own h l k p :
  plookup k (own_props h l) = Some p →
  get (VRef l) k h =
    Ret (match p with PData x _ _ => x | PProtoAccessor => proto_value h (VRef l) end) h.
Proof.
  intros Hown. unfold get, resolve, chain_prop. cbn [is_nullish find_prop]. rewrite Hown.
  destruct p; reflexivity.
Qed.








Section Builder.

Variables (g0 : heap) (options : value) (kvl : loc).
Hypothesis Hok : heap_ok g0 = true.
Hypothesis Hkv : length g0 ≤ kvl.




End Builder.

(** ** Pending changes at safe keys *)

(** A safe key whose source value owns a [value] field is never merged
    recursively: the merger goes straight to the leaf branch of line 106. *)
Lemma merge_key_value_leaf host fuel rec target source options k h h1 w p :
  propertyIsUnsafe host target k options h = Ret false h1 →
  get source k h1 = Ret (VRef w) h1 →
  own_of h1 (VRef w) (KStr "value") = Some p →
  merge_key host fuel rec target source options k h =
    (if instanceof h1 (VRef w) ChangeProto then
       let! f := get options (KStr "safeSet") in
       let! payload := get (VRef w) (KStr "value") in
       call host f options target k (Some payload) ;;! ret tt
     else
       let! f := get options (KStr "safeSet") in
       call host f options target k (Some (VRef w)) ;;! ret tt) h1.
Proof.
  intros Hunsafe Hget Hown. unfold merge_key.
  rewrite (bind_Ret _ _ _ _ _ Hunsafe). cbn iota.
  rewrite (bind_Ret _ _ _ _ _ (propertyIsOnObject_total target k h1)).
  assert (Hwrapped : hasOwnProperty (VRef w) (KStr "value") h1 = Ret true h1).
  { unfold hasOwnProperty. simpl is_nullish. cbn iota. rewrite Hown. reflexivity. }
  destruct (exists_in h1 target k).
  - rewrite (bind_Ret _ _ _ _ _ Hget). unfold bind at 1. cbn [andb].
    destruct (isMergeableObject h1 (VRef w)) eqn:Hm.
    + rewrite Hwrapped, Hm. cbn [andb negb].
      rewrite (bind_Ret _ _ _ _ _ Hget). cbn [truthy andb].
      destruct (instanceof h1 (VRef w) ChangeProto); reflexivity.
    + rewrite Hm. cbn [andb].
      rewrite (bind_Ret _ _ _ _ _ Hget). cbn [truthy andb].
      destruct (instanceof h1 (VRef w) ChangeProto); reflexivity.
  - unfold ret at 1. unfold bind at 1. unfold bind at 1. cbn [andb].
    rewrite (bind_Ret _ _ _ _ _ Hget). cbn [truthy andb].
      destruct (instanceof h1 (VRef w) ChangeProto); reflexivity.
Qed.

(** What line 107 does unwrap: at a key classified safe, a source value
    that is an instance of [Change] and owns a [value] field is never
    written itself; the one write the merger performs for that key is
    [options.safeSet(target, key, payload)] with the wrapper's payload. *)
Theorem C3_change_payload_written
    host fuel rec target source options k h h1 w payload e wr :
  propertyIsUnsafe host target k options h = Ret false h1 →
  get source k h1 = Ret (VRef w) h1 →
  own_of h1 (VRef w) (KStr "value") = Some (PData payload e wr) →
  instanceof h1 (VRef w) ChangeProto = true →
  merge_key host fuel rec target source options k h =
    (let! f := get options (KStr "safeSet") in
     call host f options target k (Some payload) ;;! ret tt) h1.
Proof.
  intros Hunsafe Hget Hown Hinst.
  rewrite (merge_key_value_leaf _ _ _ _ _ _ _ _ _ _ _ Hunsafe Hget Hown), Hinst.
  destruct (get_pure options (KStr "safeSet") h1) as [[f Hf]|Hf].
  - rewrite !(bind_Ret _ _ _ _ _ Hf).
    rewrite (bind_Ret _ _ _ _ _ (child_own h1 w (KStr "value") _ Hown)). reflexivity.
  - rewrite !(bind_Throw _ _ _ _ _ Hf). reflexivity.
Qed.

Lemma C3_witness :
  propertyIsUnsafe no_host (VRef 13) (KStr "name") (VRef 18) wrapper_heap_defaults
    = Ret false wrapper_heap_defaults ∧
  get (VRef 17) (KStr "name") wrapper_heap_defaults = Ret (VRef 16) wrapper_heap_defaults ∧
  instanceof wrapper_heap_defaults (VRef 16) ChangeProto = true ∧
  merge_key no_host 1 (mergeDeep no_host 1) (VRef 13) (VRef 17) (VRef 18) (KStr "name")
      wrapper_heap_defaults =
    (let! f := get (VRef 18) (KStr "safeSet") in
     call no_host f (VRef 18) (VRef 13) (KStr "name") (Some (VStr "Grace")) ;;! ret tt)
      wrapper_heap_defaults ∧
  ∃ h', mergeDeep no_host 2 (VRef 13) (VRef 17) VUndef wrapper_heap = Ret (VRef 13) h' ∧
        own_of h' (VRef 13) (KStr "name") = Some (data (VStr "Grace")).
Proof.
  split; [vm_compute; reflexivity|].
  split; [vm_compute; reflexivity|].
  split; [vm_compute; reflexivity|].
  split.
  - apply (C3_change_payload_written no_host 1 (mergeDeep no_host 1) (VRef 13) (VRef 17)
             (VRef 18) (KStr "name") wrapper_heap_defaults wrapper_heap_defaults 16
             (VStr "Grace") true true); vm_compute; reflexivity.
  - eexists. split; vm_compute; reflexivity.
Defined.

(** The other half of the leaf branch: an object that owns a [value]
    field without being a [Change] is handed to [safeSet] as it is. *)
Lemma plain_value_object_written host fuel rec target source options k h h1 w p :
  propertyIsUnsafe host target k options h = Ret false h1 →
  get source k h1 = Ret (VRef w) h1 →
  own_of h1 (VRef w) (KStr "value") = Some p →
  instanceof h1 (VRef w) ChangeProto = false →
  merge_key host fuel rec target source options k h =
    (let! f := get options (KStr "safeSet") in
     call host f options target k (Some (VRef w)) ;;! ret tt) h1.
Proof.
  intros Hunsafe Hget Hown Hinst.
  rewrite (merge_key_value_leaf _ _ _ _ _ _ _ _ _ _ _ Hunsafe Hget Hown), Hinst. reflexivity.
Qed.
(** ** What the merge cannot touch *)

Lemma keeps_ret {A} P h1 (Q : A → Prop) a : Q a → keeps P h1 Q (ret a).
Proof. intros Ha h' Hinv. split; assumption. Qed.

Lemma keeps_throw {A} P h1 (Q : A → Prop) e : keeps P h1 Q (throw e).
Proof. intros h' Hinv. exact Hinv. Qed.

Lemma keeps_bind {A B} P h1 (Q1 : A → Prop) (Q2 : B → Prop) m f :
  keeps P h1 Q1 m → (∀ a, Q1 a → keeps P h1 Q2 (f a)) → keeps P h1 Q2 (bind m f).
Proof.
  intros Hm Hf h' Hinv. unfold bind. specialize (Hm h' Hinv).
  destruct (m h') as [a h''|e h''|]; [|exact Hm|exact I].
  destruct Hm as [Hinv' Ha]. apply Hf; assumption.
Qed.

Lemma keeps_weaken {A} P h1 (Q1 Q2 : A → Prop) m :
  keeps P h1 Q1 m → (∀ a, Q1 a → Q2 a) → keeps P h1 Q2 m.
Proof.
  intros Hm Hq h' Hinv. specialize (Hm h' Hinv).
  destruct (m h') as [a h''|e h''|]; [|exact Hm|exact I].
  destruct Hm as [Hinv' Ha]. split; auto.
Qed.

Lemma keeps_if {A} P h1 (Q : A → Prop) (c : heap → bool) (m1 m2 : M A) :
  keeps P h1 Q m1 → keeps P h1 Q m2 → keeps P h1 Q (λ h, if c h then m1 h else m2 h).
Proof. intros H1 H2 h' Hinv. destruct (c h'); [apply H1|apply H2]; exact Hinv. Qed.

Lemma keeps_reads {A} P h1 (m : M A) : reads m → keeps P h1 (λ _, True) m.
Proof.
  intros Hr h' Hinv. destruct (Hr h') as [[a ->]|[e ->]]; [split; [exact Hinv|exact I]|exact Hinv].
Qed.

Lemma keeps_try_catch {A} P h1 (Q : A → Prop) m handler :
  keeps P h1 Q m → (∀ e, keeps P h1 Q (handler e)) → keeps P h1 Q (try_catch m handler).
Proof.
  intros Hm Hh h' Hinv. unfold try_catch. specialize (Hm h' Hinv).
  destruct (m h') as [a h''|e h''|]; [exact Hm| |exact I].
  apply Hh, Hm.
Qed.

Lemma keeps_forEach {A} P h1 (f : A → M unit) xs :
  (∀ x, keeps P h1 (λ _, True) (f x)) → keeps P h1 (λ _, True) (forEach f xs).
Proof.
  intros Hf. induction xs as [|x xs IH]; simpl.
  - apply keeps_ret. exact I.
  - eapply keeps_bind; [apply Hf|]. intros _ _. exact IH.
Qed.

Lemma reads_get v k : reads (get v k).
Proof. intros h. destruct (get_pure v k h) as [[x H]|H]; eauto. Qed.

Lemma reads_has_property v k : reads (has_property v k).
Proof. intros h. unfold has_property. destruct v; eauto. Qed.

Lemma reads_hasOwnProperty v k : reads (hasOwnProperty v k).
Proof. intros h. unfold hasOwnProperty. destruct (is_nullish v); eauto. Qed.

Lemma reads_propertyIsEnumerable v k : reads (propertyIsEnumerable v k).
Proof. intros h. unfold propertyIsEnumerable. destruct (is_nullish v); eauto. Qed.

Lemma reads_object_keys v : reads (object_keys v).
Proof. intros h. unfold object_keys. destruct v; eauto. Qed.

Lemma reads_getKeys v : reads (getKeys v).
Proof.
  intros h. unfold getKeys, bind, object_keys, getEnumerableOwnPropertySymbols, ret.
  destruct v; eauto.
Qed.

Lemma reads_for_in v : reads (for_in v).
Proof. intros h. unfold for_in. destruct v; eauto. Qed.

Lemma reads_propertyIsOnObject v k : reads (propertyIsOnObject v k).
Proof. intros h. rewrite propertyIsOnObject_total. eauto. Qed.

Lemma reads_map_has v k : reads (map_has v k).
Proof. intros h. unfold map_has. destruct v; eauto. destruct (kind_of h l); eauto. Qed.
Lemma plookup_In k ps p : plookup k ps = Some p → In (k, p) ps.
Proof.
  induction ps as [|[k0 p0] ps IH]; simpl; [discriminate|].
  destruct (decide (k = k0)) as [->|]; [intros [= ->]; left; reflexivity|right; auto].
Qed.

Lemma forallb_pupdate (Q : key * prop → bool) k p ps :
  forallb Q ps = true → (∀ k', Q (k', p) = true) → forallb Q (pupdate k p ps) = true.
Proof.
  intros Hps Hp. induction ps as [|[k0 p0] ps IH]; simpl in *; [reflexivity|].
  apply andb_true_iff in Hps. destruct Hps as [H0 Hps].
  destruct (decide (k = k0)); simpl; rewrite ?Hp, ?H0, ?Hps, ?IH; auto.
Qed.

Lemma forallb_pinsert (Q : key * prop → bool) k p ps :
  forallb Q ps = true → Q (k, p) = true → forallb Q (pinsert k p ps) = true.
Proof.
  intros Hps Hp. induction ps as [|[k0 p0] ps IH]; simpl in *; [rewrite Hp; reflexivity|].
  apply andb_true_iff in Hps as Hps'. destruct Hps' as [H0 Hps'].
  destruct (goes_before k k0); simpl.
  - rewrite Hp, H0, Hps'. reflexivity.
  - rewrite H0, IH; auto.
Qed.

Section Sealed.

Variables (P : list loc) (h1 : heap).
Hypothesis P_valid : ∀ l, l ∈ P → l < length h1.
Hypothesis P_builtins : ∀ l, l ≤ SymbolProto → l ∉ P.

Lemma sealed_own_prop h l k p :
  frame_inv P h1 h → l ∉ P → plookup k (own_props h l) = Some p → prop_outside P p = true.
Proof.
  intros (_ & _ & Hseal) Hl Hp. unfold own_props in Hp.
  destruct (h !! l) as [o|] eqn:Ho; [|discriminate].
  specialize (Hseal l o Ho Hl). unfold obj_outside in Hseal.
  apply andb_true_iff in Hseal. destruct Hseal as [_ Hprops].
  rewrite forallb_forall in Hprops. apply (Hprops _ (plookup_In _ _ _ Hp)).
Qed.

Lemma sealed_proto h l p :
  frame_inv P h1 h → l ∉ P → proto_of h l = Some p → p ∉ P.
Proof.
  intros (_ & _ & Hseal) Hl Hp. unfold proto_of in Hp.
  destruct (h !! l) as [o|] eqn:Ho; [|discriminate].
  specialize (Hseal l o Ho Hl). unfold obj_outside in Hseal.
  apply andb_true_iff in Hseal. destruct Hseal as [Hproto _].
  rewrite Hp in Hproto. apply bool_decide_eq_true in Hproto. exact Hproto.
Qed.

Lemma sealed_find_prop h n l k p :
  frame_inv P h1 h → l ∉ P → find_prop n h l k = Some p → prop_outside P p = true.
Proof.
  intros Hinv. revert l. induction n as [|n IH]; intros l Hl; simpl; [discriminate|].
  destruct (plookup k (own_props h l)) as [p'|] eqn:Hown.
  - intros [= ->]. eapply sealed_own_prop; eauto.
  - destruct (proto_of h l) as [l'|] eqn:Hproto; [|discriminate].
    apply IH. eapply sealed_proto; eauto.
Qed.

Lemma sealed_proto_value h v :
  frame_inv P h1 h → outside P v = true → outside P (proto_value h v) = true.
Proof.
  intros Hinv Hv. destruct v; simpl; try reflexivity;
    try (apply bool_decide_eq_true, P_builtins; unfold SymbolProto, NumberProto, BooleanProto,
         StringProto; lia).
  simpl in Hv. apply bool_decide_eq_true in Hv.
  destruct (proto_of h l) as [p|] eqn:Hp; [|reflexivity].
  apply bool_decide_eq_true. eapply sealed_proto; eauto.
Qed.

Lemma sealed_resolve h v k p :
  frame_inv P h1 h → outside P v = true → resolve h v k = Some p → prop_outside P p = true.
Proof.
  intros Hinv Hv. unfold resolve, chain_prop.
  assert (Hb : ∀ l, l ≤ SymbolProto → find_prop (S (length h)) h l k = Some p →
                    prop_outside P p = true).
  { intros l Hl. apply sealed_find_prop; [exact Hinv|apply P_builtins, Hl]. }
  destruct v; try discriminate.
  - apply Hb. unfold BooleanProto, SymbolProto. lia.
  - apply Hb. unfold NumberProto, SymbolProto. lia.
  - destruct (str_own s k) as [p'|] eqn:Hs.
    + intros [= ->]. unfold str_own in Hs. destruct k; [|discriminate].
      destruct (decide _); [injection Hs as <-; reflexivity|].
      destruct (list_find _ _) as [[? ?]|]; [injection Hs as <-; reflexivity|discriminate].
    + apply Hb. unfold StringProto, SymbolProto. lia.
  - apply Hb. unfold SymbolProto. lia.
  - simpl in Hv. apply bool_decide_eq_true in Hv. apply sealed_find_prop; assumption.
Qed.

Lemma keeps_get v k :
  outside P v = true → keeps P h1 (λ x, outside P x = true) (get v k).
Proof.
  intros Hv h Hinv. unfold get. destruct (is_nullish v); [exact Hinv|].
  destruct (resolve h v k) as [[x e w|]|] eqn:Hr.
  - split; [exact Hinv|]. apply (sealed_resolve _ _ _ _ Hinv Hv Hr).
  - split; [exact Hinv|]. apply sealed_proto_value; assumption.
  - split; [exact Hinv|reflexivity].
Qed.

Lemma frame_inv_set_obj h l f :
  frame_inv P h1 h → l ∉ P →
  (∀ o, h !! l = Some o → obj_outside P o = true → obj_outside P (f o) = true) →
  frame_inv P h1 (set_obj l f h).
Proof.
  intros (Hlen & Hprot & Hseal) Hl Hf. split; [rewrite set_obj_length; exact Hlen|]. split.
  - intros l' Hl'. rewrite set_obj_other by congruence. apply Hprot, Hl'.
  - intros l' o' Ho' Hl'. destruct (decide (l = l')) as [<-|Hne].
    + destruct (h !! l) as [o|] eqn:Ho.
      * rewrite (set_obj_same _ _ _ _ Ho) in Ho'. injection Ho' as <-.
        apply Hf; [reflexivity|]. apply (Hseal l o Ho Hl).
      * unfold set_obj in Ho'. rewrite Ho in Ho'. congruence.
    + rewrite set_obj_other in Ho' by exact Hne. apply (Hseal l' o' Ho' Hl').
Qed.

Lemma keeps_set v k x :
  outside P v = true → outside P x = true → keeps P h1 (λ _, True) (set v k x).
Proof.
  intros Hv Hx h Hinv.
  destruct (set_cases v k x h) as [H|[H|(l & -> & [(np & H & Hnp)|[(e & w & H)|H]])]];
    rewrite H; try (split; [|exact I]); try exact Hinv;
    simpl in Hv; apply bool_decide_eq_true in Hv;
    (apply frame_inv_set_obj; [exact Hinv|exact Hv|]); intros o _ Ho;
    unfold obj_outside in *; apply andb_true_iff in Ho; destruct Ho as [Hproto Hprops];
    apply andb_true_iff; simpl.
  - split; [|exact Hprops]. destruct np as [p|]; [|reflexivity]. subst x. exact Hx.
  - split; [exact Hproto|]. apply forallb_pupdate; [exact Hprops|]. intros; exact Hx.
  - split; [exact Hproto|]. apply forallb_pinsert; [exact Hprops|]. exact Hx.
Qed.

Lemma keeps_alloc o :
  obj_outside P o = true → keeps P h1 (λ x, outside P x = true) (alloc o).
Proof.
  intros Ho h (Hlen & Hprot & Hseal). unfold alloc. split; [split; [|split]|].
  - rewrite length_app. lia.
  - intros l Hl. rewrite lookup_app_l by (specialize (P_valid l Hl); lia). apply Hprot, Hl.
  - intros l o' Ho' Hl. destruct (decide (l < length h)) as [Hlt|Hge].
    + rewrite lookup_app_l in Ho' by exact Hlt. apply (Hseal l o' Ho' Hl).
    + rewrite lookup_app_r in Ho' by lia.
      destruct (l - length h) as [|m] eqn:Hm; simpl in Ho'; [congruence|].
      rewrite lookup_nil in Ho'. discriminate.
  - simpl. apply bool_decide_eq_true. intros Hin. specialize (P_valid _ Hin). lia.
Qed.

Lemma empty_object_outside : obj_outside P empty_object = true.
Proof.
  unfold obj_outside. simpl. rewrite andb_true_r. apply bool_decide_eq_true, P_builtins.
  unfold ObjectProto, SymbolProto. lia.
Qed.

End Sealed.
Lemma pupdate_same k p ps : plookup k ps = Some p → pupdate k p ps = ps.
Proof.
  induction ps as [|[k0 p0] ps IH]; simpl; [reflexivity|].
  destruct (decide (k = k0)) as [->|]; [intros [= ->]; reflexivity|].
  intros H. rewrite IH by exact H. reflexivity.
Qed.

Lemma set_obj_id l f h :
  (∀ o, h !! l = Some o → f o = o) → set_obj l f h = h.
Proof.
  intros Hf. unfold set_obj. destruct (h !! l) as [o|] eqn:Ho; [|reflexivity].
  rewrite (Hf o eq_refl). apply list_insert_id, Ho.
Qed.

(** One of lines 129-130 on an object that already carries the accessor:
    the truthy value is written back over itself. *)
Lemma install_default_supplied h lo name f :
  supplied h lo name → install_default (VRef lo) name f h = Ret tt h.
Proof.
  intros (v & e & Hown & Htruthy). unfold install_default.
  rewrite (bind_Ret _ _ _ _ _ (child_own h lo _ _ Hown)). rewrite Htruthy.
  unfold ret at 1. unfold bind. unfold set. cbn [is_nullish]. rewrite Hown. f_equal.
  apply set_obj_id. intros o Ho. unfold own_props in Hown. rewrite Ho in Hown.
  unfold with_props. rewrite (pupdate_same _ _ _ Hown). destruct o; reflexivity.
Qed.

Lemma normalize_supplied h lo :
  supplied h lo "safeGet" → supplied h lo "safeSet" →
  normalize_options (VRef lo) h = Ret (VRef lo) h.
Proof.
  intros Hg Hs. unfold normalize_options. unfold ret at 1. unfold bind at 1.
  rewrite (bind_Ret _ _ _ _ _ (install_default_supplied h lo _ FDefaultGet Hg)).
  rewrite (bind_Ret _ _ _ _ _ (install_default_supplied h lo _ FDefaultSet Hs)).
  reflexivity.
Qed.

Section Frame.

Variable host : nat → value → list value → M value.
Variables (P : list loc) (h1 : heap) (lo : loc).
Hypothesis P_valid : ∀ l, l ∈ P → l < length h1.
Hypothesis P_builtins : ∀ l, l ≤ SymbolProto → l ∉ P.
Hypothesis options_protected : lo ∈ P.
Hypothesis safeGet_supplied : supplied h1 lo "safeGet".
Hypothesis safeSet_supplied : supplied h1 lo "safeSet".
Hypothesis host_confined :
  ∀ n args, Forall (λ v, outside P v = true) args →
            keeps P h1 (λ x, outside P x = true) (host n (VRef lo) args).

Lemma supplied_frame h name : frame_inv P h1 h → supplied h1 lo name → supplied h lo name.
Proof.
  intros (_ & Hprot & _) (v & e & Hown & Ht). exists v, e. split; [|exact Ht].
  unfold own_props in *. rewrite (Hprot lo options_protected). exact Hown.
Qed.

Lemma keeps_normalize :
  keeps P h1 (λ o, o = VRef lo) (normalize_options (VRef lo)).
Proof.
  intros h Hinv.
  rewrite (normalize_supplied h lo (supplied_frame _ _ Hinv safeGet_supplied)
             (supplied_frame _ _ Hinv safeSet_supplied)).
  split; [exact Hinv|reflexivity].
Qed.

Lemma keeps_call f obj k x :
  outside P obj = true →
  match x with Some v => outside P v = true | None => True end →
  keeps P h1 (λ r, outside P r = true) (call host f (VRef lo) obj k x).
Proof.
  intros Hobj Hx h Hinv. unfold call. destruct f; try exact Hinv.
  destruct (kind_of h l) as [| | | | |[| |n]]; try exact Hinv.
  - apply (keeps_get P h1 P_builtins); assumption.
  - assert (Hv : outside P (default VUndef x) = true) by (destruct x; [exact Hx|reflexivity]).
    apply (keeps_bind P h1 (λ _, True)); [apply keeps_set; assumption| |exact Hinv].
    intros _ _. apply keeps_ret. exact Hv.
  - apply host_confined; [|exact Hinv].
    constructor; [exact Hobj|]. constructor; [destruct k; reflexivity|].
    destruct x; constructor; [exact Hx|constructor].
Qed.

Lemma keeps_safeGet obj k :
  outside P obj = true →
  keeps P h1 (λ r, outside P r = true) (safeGet host (VRef lo) obj k).
Proof.
  intros Hobj. unfold safeGet.
  eapply keeps_bind; [apply keeps_reads, reads_get|].
  intros f _. apply keeps_call; [exact Hobj|exact I].
Qed.

Lemma keeps_propertyIsUnsafe target k :
  outside P target = true →
  keeps P h1 (λ _, True) (propertyIsUnsafe host target k (VRef lo)).
Proof.
  intros Ht. unfold propertyIsUnsafe, hasEmberDataProperty.
  eapply (keeps_bind _ _ (λ _, True)).
  { eapply keeps_bind; [apply keeps_safeGet, Ht|]. intros fields _.
    apply (keeps_if _ _ _ (λ h, instanceof h fields MapProto) (map_has fields k) (ret false)).
    - apply keeps_reads, reads_map_has.
    - apply keeps_ret. exact I. }
  intros dyn _. destruct dyn; [apply keeps_ret; exact I|].
  eapply keeps_bind; [apply keeps_reads, reads_propertyIsOnObject|].
  intros found _. destruct found; [|apply keeps_ret; exact I].
  eapply keeps_bind; [apply keeps_reads, reads_hasOwnProperty|].
  intros own _. destruct own; [|apply keeps_ret; exact I].
  eapply keeps_bind; [apply keeps_reads, reads_propertyIsEnumerable|].
  intros enum _. apply keeps_ret. exact I.
Qed.

Lemma keeps_visit_key recurse source kv path k :
  (∀ v p, outside P v = true → keeps P h1 (λ r, outside P r = true) (recurse v p)) →
  outside P source = true → outside P kv = true →
  keeps P h1 (λ _, True) (visit_key recurse source kv path k).
Proof.
  intros Hrec Hsrc Hkv. unfold visit_key.
  eapply keeps_bind; [apply (keeps_get P h1 P_builtins), Hsrc|]. intros possible Hp.
  eapply (keeps_bind _ _ (λ _, True)).
  { destruct (truthy possible); [apply keeps_reads, reads_hasOwnProperty|apply keeps_ret; exact I]. }
  intros wrapped _. destruct wrapped.
  - eapply keeps_bind; [apply (keeps_get P h1 P_builtins), Hp|]. intros payload Hpay.
    apply keeps_set; assumption.
  - apply (keeps_if _ _ _ (λ h, typeof_object h possible)
             (recurse possible (path ++ [key_string k]) ;;! ret tt) (ret tt)).
    + eapply keeps_bind; [apply Hrec, Hp|]. intros _ _. apply keeps_ret. exact I.
    + apply keeps_ret. exact I.
Qed.

Lemma keeps_buildPathToValue fuel :
  ∀ source kv path, outside P source = true → outside P kv = true →
    keeps P h1 (λ r, outside P r = true) (buildPathToValue fuel source (VRef lo) kv path).
Proof.
  induction fuel as [|fuel IH]; intros source kv path Hsrc Hkv.
  - intros h _. exact I.
  - cbn [buildPathToValue].
    eapply keeps_bind; [apply keeps_reads, reads_object_keys|]. intros ks _.
    eapply keeps_bind.
    + apply keeps_forEach. intros k. apply keeps_visit_key; [|exact Hsrc|exact Hkv].
      intros v p Hv. apply IH; assumption.
    + intros _ _. apply keeps_ret. exact Hkv.
Qed.

Lemma keeps_merge_key fuel rec target source k :
  (∀ t s, outside P t = true → outside P s = true →
          keeps P h1 (λ r, outside P r = true) (rec t s (VRef lo))) →
  outside P target = true → outside P source = true →
  keeps P h1 (λ _, True) (merge_key host fuel rec target source (VRef lo) k).
Proof.
  intros Hrec Ht Hs. unfold merge_key.
  eapply keeps_bind; [apply keeps_propertyIsUnsafe, Ht|]. intros unsafe _.
  destruct unsafe.
  - eapply keeps_bind; [apply keeps_reads, reads_get|]. intros ss _.
    destruct (truthy ss); [|apply keeps_ret; exact I].
    eapply keeps_bind; [apply (keeps_alloc P h1 P_valid), (empty_object_outside P P_builtins)|].
    intros fresh Hfresh.
    eapply keeps_bind; [apply keeps_buildPathToValue; assumption|]. intros kv Hkv.
    eapply keeps_bind; [apply keeps_reads, reads_object_keys|]. intros found _.
    destruct (0 <? length found); [|apply keeps_ret; exact I].
    eapply keeps_bind; [apply keeps_reads, reads_for_in|]. intros paths _.
    apply keeps_forEach. intros path.
    eapply keeps_bind; [apply (keeps_get P h1 P_builtins), Hkv|]. intros val Hval.
    eapply keeps_bind; [apply keeps_reads, reads_get|]. intros f _.
    eapply keeps_bind; [apply keeps_call; [exact Ht|exact Hval]|].
    intros _ _. apply keeps_ret. exact I.
  - eapply keeps_bind; [apply keeps_reads, reads_propertyIsOnObject|]. intros onTarget _.
    eapply (keeps_bind _ _ (λ _, True)).
    { destruct onTarget; [apply keeps_reads, reads_get|apply keeps_ret; exact I]. }
    intros sk _.
    eapply (keeps_bind _ _ (λ _, True)).
    { apply (keeps_if _ _ _ (λ h, onTarget && isMergeableObject h sk)
               (hasOwnProperty sk (KStr "value")) (ret false)).
      - apply keeps_reads, reads_hasOwnProperty.
      - apply keeps_ret. exact I. }
    intros wrapped _.
    apply (keeps_if _ _ _ (λ h, onTarget && isMergeableObject h sk && negb wrapped)).
    + eapply keeps_bind; [apply keeps_reads, reads_get|]. intros f _.
      eapply keeps_bind; [apply keeps_safeGet, Ht|]. intros t Htv.
      eapply keeps_bind; [apply keeps_safeGet, Hs|]. intros s Hsv.
      eapply keeps_bind; [apply Hrec; assumption|]. intros merged Hm.
      eapply keeps_bind; [apply keeps_call; [exact Ht|exact Hm]|].
      intros _ _. apply keeps_ret. exact I.
    + eapply keeps_bind; [apply (keeps_get P h1 P_builtins), Hs|]. intros next Hnext.
      apply (keeps_if _ _ _ (λ h, truthy next && instanceof h next ChangeProto)).
      * eapply keeps_bind; [apply keeps_reads, reads_get|]. intros f _.
        eapply keeps_bind; [apply (keeps_get P h1 P_builtins), Hnext|]. intros payload Hpay.
        eapply keeps_bind; [apply keeps_call; [exact Ht|exact Hpay]|].
        intros _ _. apply keeps_ret. exact I.
      * eapply keeps_bind; [apply keeps_reads, reads_get|]. intros f _.
        eapply keeps_bind; [apply keeps_call; [exact Ht|exact Hnext]|].
        intros _ _. apply keeps_ret. exact I.
Qed.

(** The frame property of the whole merge: whatever it does, protected
    objects come out as they went in. *)
Lemma keeps_mergeDeep fuel :
  ∀ target source, outside P target = true → outside P source = true →
    keeps P h1 (λ r, outside P r = true) (mergeDeep host fuel target source (VRef lo)).
Proof.
  induction fuel as [|fuel IH]; intros target source Ht Hs.
  - intros h _. exact I.
  - cbn [mergeDeep].
    eapply keeps_bind; [apply keeps_normalize|]. intros opts ->.
    intros h Hinv. cbv zeta.
    destruct (negb _); [split; assumption|].
    destruct (isArray h source); [split; assumption|].
    revert h Hinv. fold (keeps P h1 (λ r, outside P r = true)
      (try_catch (mergeTargetAndSource host fuel (mergeDeep host fuel) target source (VRef lo))
         (λ _, throw merge_failure))).
    apply keeps_try_catch; [|intros e; apply keeps_throw].
    unfold mergeTargetAndSource.
    eapply keeps_bind; [apply keeps_reads, reads_getKeys|]. intros ks _.
    eapply keeps_bind.
    + apply keeps_forEach. intros k. apply keeps_merge_key; [|exact Ht|exact Hs].
      intros t s Htv Hsv. apply IH; assumption.
    + intros _ _. apply keeps_ret. exact Ht.
Qed.

End Frame.
(** ** Lines 129-130 on a caller's [options] *)

Lemma plookup_pinsert_eq k p ps : plookup k ps = None → plookup k (pinsert k p ps) = Some p.
Proof.
  induction ps as [|[k0 p0] ps IH]; simpl.
  - intros _. rewrite decide_True by reflexivity. reflexivity.
  - destruct (decide (k = k0)) as [->|Hne]; [discriminate|]. intros Hps.
    destruct (goes_before k k0); simpl.
    + rewrite decide_True by reflexivity. reflexivity.
    + rewrite decide_False by exact Hne. apply IH, Hps.
Qed.

Lemma plookup_pinsert_ne k p ps k' : k' ≠ k → plookup k' (pinsert k p ps) = plookup k' ps.
Proof.
  intros Hne. induction ps as [|[k0 p0] ps IH]; simpl.
  - rewrite decide_False by exact Hne. reflexivity.
  - destruct (goes_before k k0); simpl.
    + rewrite decide_False by exact Hne. reflexivity.
    + destruct (decide (k' = k0)); [reflexivity|exact IH].
Qed.

Lemma proto_of_lt h l p : proto_of h l = Some p → l < length h.
Proof.
  unfold proto_of. destruct (h !! l) eqn:Hl; [|discriminate]. intros _.
  eapply lookup_lt_Some, Hl.
Qed.

Lemma install_default_spec h lo name f :
  proto_of h ObjectProto = None →
  proto_of h lo = Some ObjectProto →
  extensible h lo = true →
  plookup (KStr name) (own_props h ObjectProto) = None →
  lacks h lo name ∨ supplied h lo name →
  install_default (VRef lo) name f h = Ret tt (install name f lo h).
Proof.
  intros Hroot Hproto Hext Hinh [Hlack|Hsup].
  - pose proof (proto_of_lt _ _ _ Hproto) as Hlo.
    assert (H0 : ObjectProto < length h) by (unfold ObjectProto; lia).
    unfold lacks in Hlack. unfold install. rewrite Hlack. unfold install_default.
    assert (Hget : get (VRef lo) (KStr name) h = Ret VUndef h).
    { unfold get, resolve. cbn [is_nullish]. rewrite (chain_prop_plain _ _ _ Hproto Hroot).
      rewrite Hlack, Hinh. reflexivity. }
    rewrite (bind_Ret _ _ _ _ _ Hget). cbn [truthy]. unfold alloc, bind. unfold set.
    cbn [is_nullish]. rewrite own_props_app by exact Hlo. rewrite Hlack.
    rewrite proto_of_app by exact Hlo. rewrite Hproto.
    rewrite chain_prop_root by (rewrite proto_of_app by exact H0; exact Hroot).
    rewrite own_props_app by exact H0. rewrite Hinh.
    unfold extensible in *. rewrite lookup_app_l by exact Hlo.
    destruct (h !! lo); [|discriminate]. rewrite Hext. reflexivity.
  - unfold install. destruct Hsup as (v & e & Hown & Ht). rewrite Hown.
    apply install_default_supplied. exists v, e. auto.
Qed.

(** What [install] changes and what it keeps. *)
Lemma install_facts h lo name f :
  proto_of h lo = Some ObjectProto →
  lacks h lo name ∨ supplied h lo name →
  let h' := install name f lo h in
  length h ≤ length h' ∧
  (∀ l, l < length h → l ≠ lo → h' !! l = h !! l) ∧
  (∀ l, l < length h → proto_of h' l = proto_of h l) ∧
  extensible h' lo = extensible h lo ∧
  (∀ k, k ≠ KStr name → plookup k (own_props h' lo) = plookup k (own_props h lo)) ∧
  supplied h' lo name ∧
  (lacks h lo name →
     length h' = S (length h) ∧
     plookup (KStr name) (own_props h' lo) = Some (data (VRef (length h))) ∧
     h' !! length h = Some (function_object f)) ∧
  (supplied h lo name → h' = h).
Proof.
  intros Hproto Hcase. pose proof (proto_of_lt _ _ _ Hproto) as Hlo. cbv zeta.
  destruct Hcase as [Hlack|Hsup].
  - unfold lacks in Hlack. unfold install. rewrite Hlack.
    assert (Hobj : ∃ o, h !! lo = Some o) by (apply lookup_lt_is_Some; exact Hlo).
    destruct Hobj as [o Ho].
    assert (Ho' : (h ++ [function_object f]) !! lo = Some o)
      by (rewrite lookup_app_l by exact Hlo; exact Ho).
    set (g := with_props (pinsert (KStr name) (data (VRef (length h))))).
    assert (Hnew : set_obj lo g (h ++ [function_object f]) !! lo = Some (g o))
      by (apply set_obj_same, Ho').
    assert (Hown : own_props (set_obj lo g (h ++ [function_object f])) lo
                   = pinsert (KStr name) (data (VRef (length h))) (own_props h lo)).
    { unfold own_props. rewrite Hnew, Ho. reflexivity. }
    rewrite set_obj_length, length_app. cbn [length].
    split; [lia|]. split.
    { intros l Hl Hne. rewrite set_obj_other by congruence. apply lookup_app_l, Hl. }
    split.
    { intros l Hl. unfold proto_of. destruct (decide (lo = l)) as [<-|Hne].
      - rewrite Hnew, Ho. reflexivity.
      - rewrite set_obj_other by exact Hne. rewrite lookup_app_l by exact Hl. reflexivity. }
    split; [unfold extensible; rewrite Hnew, Ho; reflexivity|].
    split; [intros k Hk; rewrite Hown; apply plookup_pinsert_ne, Hk|].
    split.
    { exists (VRef (length h)), true. rewrite Hown. split; [|reflexivity].
      apply plookup_pinsert_eq, Hlack. }
    split.
    { intros _. split; [lia|]. split; [rewrite Hown; apply plookup_pinsert_eq, Hlack|].
      rewrite set_obj_other by lia. apply list_lookup_middle. reflexivity. }
    intros (v & e & Hv & _). congruence.
  - unfold install. destruct Hsup as (v & e & Hown & Ht). rewrite Hown.
    split; [lia|]. split; [reflexivity|]. split; [reflexivity|]. split; [reflexivity|].
    split; [reflexivity|]. split; [exists v, e; auto|].
    split; [unfold lacks; congruence|reflexivity].
Qed.
Lemma sealed_spec P h l o :
  sealed P h = true → h !! l = Some o → l ∉ P → obj_outside P o = true.
Proof.
  unfold sealed. rewrite forallb_forall. intros Hall Ho Hl.
  specialize (Hall (l, o)). simpl in Hall.
  rewrite bool_decide_eq_false_2 in Hall by exact Hl. apply Hall.
  apply list_elem_of_In, elem_of_lookup_imap. eauto.
Qed.

Lemma outside_extend P Q n v :
  outside P v = true → value_ok n v = true → (∀ l, l ∈ Q → n ≤ l) →
  outside (P ++ Q) v = true.
Proof.
  intros Hout Hok HQ. destruct v; try reflexivity. simpl in *.
  apply bool_decide_eq_true in Hout. apply Nat.ltb_lt in Hok.
  apply bool_decide_eq_true. rewrite elem_of_app. intros [Hin|Hin]; [contradiction|].
  specialize (HQ _ Hin). lia.
Qed.

Lemma obj_outside_extend P Q n o :
  obj_outside P o = true → obj_ok n o = true → (∀ l, l ∈ Q → n ≤ l) →
  obj_outside (P ++ Q) o = true.
Proof.
  unfold obj_outside, obj_ok. rewrite !andb_true_iff, !forallb_forall.
  intros [Hp Hps] [Hokp Hokps] HQ. split.
  - destruct (o_proto o) as [p|]; [|reflexivity].
    apply (outside_extend P Q n (VRef p)); assumption.
  - intros [k p] Hin. specialize (Hps _ Hin). specialize (Hokps _ Hin). simpl in *.
    destruct p as [v e w|]; [|reflexivity]. simpl in *.
    apply (outside_extend P Q n v); assumption.
Qed.

(** C9, as stated for every call, fails twice over.  A frozen [options]
    object makes line 129 throw a [TypeError] (outside the [try]) and
    nothing is installed; and when the [options] object is also the
    target, the merge itself overwrites the accessor just installed:
    the call returns with [options.safeGet = 0]. *)
Lemma C9_counterexample :
  (lacks frozen_options_heap 15 "safeGet" ∧
   ∀ host n, ∃ h',
     mergeDeep host (S n) (VRef 13) (VRef 14) (VRef 15) frozen_options_heap
     = Throw TypeError h' ∧
     own_of h' (VRef 15) (KStr "safeGet") = None ∧
     own_of h' (VRef 15) (KStr "safeSet") = None) ∧
  (lacks aliased_options_heap 13 "safeGet" ∧
   ∀ host n, ∃ h',
     mergeDeep host (2 + n) (VRef 13) (VRef 14) (VRef 13) aliased_options_heap
     = Ret (VRef 13) h' ∧
     own_of h' (VRef 13) (KStr "safeGet") = Some (data (VNum 0))).
Proof.
  split; (split; [reflexivity|]); intros host n; eexists; repeat split; vm_compute; reflexivity.
Qed.

(** C9 (amended): lines 129-130 work on the caller's own [options]
    object.  When that object is an extensible ordinary object whose
    prototype is [Object.prototype], on which each accessor is either
    absent or supplied (an own writable property with a truthy value),
    and which target and source data never refer to (it sits in a set
    [P] of objects, apart from the built-ins, that no object outside [P]
    refers to, and the supplied accessors respect [P]): each accessor it
    lacks is created as a fresh default function and stored as an own
    property of that very object; the object still carries them whatever
    way the call ends, and handing the same object to a later call
    installs nothing anew. *)
Theorem C9_defaults_installed_on_the_callers_options
    host fuel target source lo h P :
  heap_ok h = true →
  accessors_not_inherited h = true →
  proto_of h lo = Some ObjectProto →
  extensible h lo = true →
  lacks h lo "safeGet" ∨ supplied h lo "safeGet" →
  lacks h lo "safeSet" ∨ supplied h lo "safeSet" →
  lo ∈ P →
  sealed P h = true →
  (∀ l, l ∈ P → l < length h) →
  (∀ l, l ≤ SymbolProto → l ∉ P) →
  outside P target = true → value_ok (length h) target = true →
  outside P source = true → value_ok (length h) source = true →
  let h1 := normalized lo h in
  let P1 := P ++ seq (length h) (length h1 - length h) in
  (∀ n args, Forall (λ v, outside P1 v = true) args →
             keeps P1 h1 (λ x, outside P1 x = true) (host n (VRef lo) args)) →
  normalize_options (VRef lo) h = Ret (VRef lo) h1 ∧
  (∀ name f, (name, f) = ("safeGet", FDefaultGet) ∨ (name, f) = ("safeSet", FDefaultSet) →
     lacks h lo name →
     ∃ fn, own_of h1 (VRef lo) (KStr name) = Some (data (VRef fn)) ∧
           length h ≤ fn ∧ h1 !! fn = Some (function_object f)) ∧
  match mergeDeep host (S fuel) target source (VRef lo) h with
  | Ret _ h' | Throw _ h' =>
      h' !! lo = h1 !! lo ∧
      (∀ fn, length h ≤ fn < length h1 → h' !! fn = h1 !! fn) ∧
      normalize_options (VRef lo) h' = Ret (VRef lo) h'
  | OutOfFuel => True
  end.
Proof.
  intros Hok Hacc Hproto Hext Hget Hset Hlo Hsealed Pvalid Pbuiltin Ht Htok Hs Hsok.
  pose proof (heap_ok_length _ Hok) as Hlen. pose proof (heap_ok_root _ Hok) as Hroot.
  pose proof (proto_of_lt _ _ _ Hproto) as Hlolt.
  unfold accessors_not_inherited in Hacc. apply andb_true_iff in Hacc.
  destruct Hacc as [Hig%present_false His%present_false].
  assert (Hne : lo ≠ ObjectProto) by (intros ->; congruence).
  assert (H0 : ObjectProto < length h) by (unfold ObjectProto, SymbolProto in *; lia).
  set (h0 := install "safeGet" FDefaultGet lo h).
  destruct (install_facts h lo "safeGet" FDefaultGet Hproto Hget)
    as (Hlen0 & Hsame0 & Hproto0 & Hext0 & Hother0 & Hsup0 & Hlack0 & Hid0). fold h0 in Hlen0,
    Hsame0, Hproto0, Hext0, Hother0, Hsup0, Hlack0, Hid0.
  assert (Hproto0' : proto_of h0 lo = Some ObjectProto) by (rewrite Hproto0; assumption).
  assert (Hset0 : lacks h0 lo "safeSet" ∨ supplied h0 lo "safeSet").
  { destruct Hset as [Hl|(v & e & Hv & Htr)]; [left|right; exists v, e; split; [|exact Htr]];
      unfold lacks; rewrite Hother0 by discriminate; assumption. }
  intros h1 P1 Hhost. unfold normalized in h1. fold h0 in h1.
  destruct (install_facts h0 lo "safeSet" FDefaultSet Hproto0' Hset0)
    as (Hlen1 & Hsame1 & Hproto1 & Hext1 & Hother1 & Hsup1 & Hlack1 & Hid1). fold h1 in Hlen1,
    Hsame1, Hproto1, Hext1, Hother1, Hsup1, Hlack1, Hid1.
  assert (Hsupg : supplied h1 lo "safeGet").
  { destruct Hsup0 as (v & e & Hv & Htr). exists v, e. split; [|exact Htr].
    rewrite Hother1 by discriminate. exact Hv. }
  assert (Hnorm : normalize_options (VRef lo) h = Ret (VRef lo) h1).
  { unfold normalize_options. unfold ret at 1. unfold bind at 1.
    rewrite (bind_Ret _ _ _ _ _
               (install_default_spec h lo "safeGet" FDefaultGet Hroot Hproto Hext Hig Hget)).
    fold h0.
    assert (Hroot0 : proto_of h0 ObjectProto = None) by (rewrite Hproto0; assumption).
    assert (His0 : plookup (KStr "safeSet") (own_props h0 ObjectProto) = None).
    { unfold own_props. rewrite Hsame0 by auto. exact His. }
    rewrite (bind_Ret _ _ _ _ _
               (install_default_spec h0 lo "safeSet" FDefaultSet Hroot0 Hproto0'
                  (eq_trans Hext0 Hext) His0 Hset0)).
    reflexivity. }
  split; [exact Hnorm|]. split.
  { intros name f [[= -> ->]|[= -> ->]] Hlack.
    - destruct (Hlack0 Hlack) as (Hl0 & Hown0 & Hfn0). exists (length h).
      split; [|split; [lia|]].
      + simpl. rewrite Hother1 by discriminate. exact Hown0.
      + rewrite Hsame1 by lia. exact Hfn0.
    - assert (Hlack' : lacks h0 lo "safeSet")
        by (unfold lacks; rewrite Hother0 by discriminate; exact Hlack).
      destruct (Hlack1 Hlack') as (Hl1 & Hown1 & Hfn1). exists (length h0).
      split; [exact Hown1|]. split; [lia|exact Hfn1]. }
  assert (Hfresh : ∀ l, l ∈ seq (length h) (length h1 - length h) → length h ≤ l).
  { intros l Hl. apply elem_of_seq in Hl. lia. }
  assert (P1valid : ∀ l, l ∈ P1 → l < length h1).
  { intros l Hl. apply elem_of_app in Hl. destruct Hl as [Hl|Hl].
    - specialize (Pvalid l Hl). lia.
    - apply elem_of_seq in Hl. lia. }
  assert (P1builtin : ∀ l, l ≤ SymbolProto → l ∉ P1).
  { intros l Hl Hin. apply elem_of_app in Hin. destruct Hin as [Hin|Hin].
    - exact (Pbuiltin l Hl Hin).
    - specialize (Hfresh l Hin). lia. }
  assert (Hlo1 : lo ∈ P1) by (apply elem_of_app; left; exact Hlo).
  assert (Hinv : frame_inv P1 h1 h1).
  { split; [lia|]. split; [reflexivity|]. intros l o Ho Hl.
    assert (Hlt : l < length h).
    { apply lookup_lt_Some in Ho. destruct (decide (l < length h)); [assumption|].
      exfalso. apply Hl, elem_of_app. right. apply elem_of_seq. lia. }
    assert (HlP : l ∉ P) by (intros Hin; apply Hl, elem_of_app; left; exact Hin).
    assert (Hnlo : l ≠ lo) by (intros ->; contradiction).
    rewrite Hsame1, Hsame0 in Ho by (auto; lia).
    apply (obj_outside_extend P _ (length h)); [|eapply heap_ok_obj; eauto|exact Hfresh].
    eapply sealed_spec; eauto. }
  assert (Heq : mergeDeep host (S fuel) target source (VRef lo) h
                = mergeDeep host (S fuel) target source (VRef lo) h1).
  { cbn [mergeDeep]. rewrite (bind_Ret _ _ _ _ _ Hnorm).
    rewrite (bind_Ret _ _ _ _ _ (normalize_supplied h1 lo Hsupg Hsup1)). reflexivity. }
  rewrite Heq.
  pose proof (keeps_mergeDeep host P1 h1 lo P1valid P1builtin Hlo1 Hsupg Hsup1 Hhost (S fuel)
                target source
                (outside_extend P _ _ _ Ht Htok Hfresh)
                (outside_extend P _ _ _ Hs Hsok Hfresh) h1 Hinv) as Hkeep.
  assert (Hfinal : ∀ h', frame_inv P1 h1 h' →
            h' !! lo = h1 !! lo ∧
            (∀ fn, length h ≤ fn < length h1 → h' !! fn = h1 !! fn) ∧
            normalize_options (VRef lo) h' = Ret (VRef lo) h').
  { intros h' Hinv'. pose proof Hinv' as (_ & Hprot & _). split; [apply Hprot, Hlo1|]. split.
    - intros fn Hfn. apply Hprot, elem_of_app. right. apply elem_of_seq. lia.
    - apply normalize_supplied; eapply supplied_frame; eauto. }
  destruct (mergeDeep host (S fuel) target source (VRef lo) h1) as [v h'|e h'|];
    [apply Hfinal, Hkeep|apply Hfinal, Hkeep|exact I].
Qed.
Lemma C9_witness :
  lacks options_heap 18 "safeGet" ∧
  lacks options_heap 18 "safeSet" ∧
  normalize_options (VRef 18) options_heap = Ret (VRef 18) (normalized 18 options_heap) ∧
  own_of (normalized 18 options_heap) (VRef 18) (KStr "safeGet") = Some (data (VRef 19)) ∧
  own_of (normalized 18 options_heap) (VRef 18) (KStr "safeSet") = Some (data (VRef 20)) ∧
  kind_of (normalized 18 options_heap) 19 = KFunction FDefaultGet ∧
  kind_of (normalized 18 options_heap) 20 = KFunction FDefaultSet ∧
  ∃ h', mergeDeep no_host 2 (VRef 13) (VRef 17) (VRef 18) options_heap = Ret (VRef 13) h' ∧
        own_of h' (VRef 13) (KStr "name") = Some (data (VStr "Grace")) ∧
        h' !! 18 = normalized 18 options_heap !! 18 ∧
        normalize_options (VRef 18) h' = Ret (VRef 18) h'.
Proof.
  assert (Hrun : ∃ h', mergeDeep no_host 2 (VRef 13) (VRef 17) (VRef 18) options_heap
                       = Ret (VRef 13) h' ∧
                       own_of h' (VRef 13) (KStr "name") = Some (data (VStr "Grace"))).
  { eexists. split; vm_compute; reflexivity. }
  destruct Hrun as (h' & Hrun & Hname).
  assert (HP : ∀ l : loc, l ∈ [18] → l = 18) by (intros l Hl; apply list_elem_of_singleton in Hl; exact Hl).
  destruct (C9_defaults_installed_on_the_callers_options no_host 1 (VRef 13) (VRef 17) 18
              options_heap [18]) as (Hnorm & _ & Hafter).
  - reflexivity.
  - reflexivity.
  - reflexivity.
  - reflexivity.
  - left. reflexivity.
  - left. reflexivity.
  - apply list_elem_of_here.
  - vm_compute. reflexivity.
  - intros l Hl. rewrite (HP l Hl). vm_compute. lia.
  - intros l Hl Hin. rewrite (HP l Hin) in Hl. unfold SymbolProto in Hl. lia.
  - vm_compute. reflexivity.
  - reflexivity.
  - vm_compute. reflexivity.
  - reflexivity.
  - intros n args _. apply (keeps_throw (A := value)).
  - rewrite Hrun in Hafter. destruct Hafter as (Hsame & _ & Hreuse).
    split; [reflexivity|]. split; [reflexivity|]. split; [exact Hnorm|].
    split; [vm_compute; reflexivity|]. split; [vm_compute; reflexivity|].
    split; [vm_compute; reflexivity|]. split; [vm_compute; reflexivity|].
    exists h'. auto.
Defined.
(** ** Re-merging the same source *)

(** C8, as stated, fails: the source below holds no wrapper, the first
    merge returns, and merging it a second time into the result ends in
    the generic failure, whatever the fuel.  The first merge stored the
    nested (frozen) source object in the target; the second one merges
    that object into itself and assigns to its read-only property. *)
Lemma C8_counterexample :
  own_of frozen_heap (VRef 15) (KStr "value") = None ∧
  own_of frozen_heap (VRef 14) (KStr "value") = None ∧
  instanceof frozen_heap (VRef 15) ChangeProto = false ∧
  instanceof frozen_heap (VRef 14) ChangeProto = false ∧
  ∃ h1, mergeDeep no_host 2 (VRef 13) (VRef 15) VUndef frozen_heap = Ret (VRef 13) h1 ∧
        ∀ n, ∃ h2, mergeDeep no_host (2 + n) (VRef 13) (VRef 15) VUndef h1
                   = Throw merge_failure h2.
Proof.
  split; [reflexivity|]. split; [reflexivity|]. split; [reflexivity|]. split; [reflexivity|].
  eexists. split; [vm_compute; reflexivity|].
  intros n. eexists. vm_compute. reflexivity.
Qed.
(** *** Trees *)

Lemma ht_ind' (Q : ht → Prop) :
  (∀ v, Q (HPrim v)) →
  (∀ l arr fields, (∀ k c, (k, c) ∈ fields → Q c) → Q (HNode l arr fields)) →
  ∀ t, Q t.
Proof.
  intros Hp Hn. fix IH 1. intros [v|l arr fields]; [apply Hp|].
  apply Hn. induction fields as [|[k0 c0] fields IHf]; intros k c Hin.
  - inversion Hin.
  - apply elem_of_cons in Hin. destruct Hin as [[= -> ->]|Hin]; [apply IH|].
    eapply IHf, Hin.
Qed.

Lemma cells_child l arr fields k c x :
  (k, c) ∈ fields → x ∈ cells c → x ∈ cells (HNode l arr fields).
Proof.
  intros Hin Hx. cbn [cells]. apply elem_of_cons. right.
  apply list_elem_of_In, in_flat_map. exists (k, c).
  split; apply list_elem_of_In; assumption.
Qed.

Lemma holds_node h l arr fields :
  holds h (HNode l arr fields) → h !! l = Some (node_obj arr fields).
Proof. intros H. apply H. cbn [cells]. apply list_elem_of_here. Qed.

Lemma holds_child h l arr fields k c :
  holds h (HNode l arr fields) → (k, c) ∈ fields → holds h c.
Proof. intros H Hin l' o Hc. apply H. eapply cells_child; eauto. Qed.

Lemma holds_preserved h h' t :
  holds h t → (∀ l, l ∈ locs t → h' !! l = h !! l) → holds h' t.
Proof.
  intros H Hsame l o Hin. rewrite Hsame; [apply H, Hin|].
  unfold locs. apply list_elem_of_fmap. exists (l, o). auto.
Qed.

Lemma locs_child l arr fields k c l' :
  (k, c) ∈ fields → l' ∈ locs c → l' ∈ locs (HNode l arr fields).
Proof.
  unfold locs. intros Hin Hl. apply list_elem_of_fmap in Hl. destruct Hl as ([l1 o] & -> & Hl).
  apply list_elem_of_fmap. exists (l1, o). split; [reflexivity|]. eapply cells_child; eauto.
Qed.

Lemma depth_child l arr fields k c :
  (k, c) ∈ fields → depth c < depth (HNode l arr fields).
Proof.
  cbn [depth]. induction fields as [|[k0 c0] fields IH]; intros Hin; [inversion Hin|].
  apply elem_of_cons in Hin. cbn [foldr]. destruct Hin as [[= -> ->]|Hin]; [simpl; lia|].
  specialize (IH Hin). simpl. lia.
Qed.

Lemma wf_tree_node l arr fields :
  wf_tree (HNode l arr fields) = true →
  NoDup fields.*1 ∧
  ∀ k c, (k, c) ∈ fields → k ≠ fields_key ∧ wf_tree c = true.
Proof.
  cbn [wf_tree]. rewrite andb_true_iff, forallb_forall, bool_decide_eq_true.
  intros [Hnd Hall]. split; [exact Hnd|]. intros k c Hin.
  specialize (Hall (k, c) (proj1 (list_elem_of_In _ _) Hin)). simpl in Hall.
  apply andb_true_iff in Hall. destruct Hall as [Hk Hc]. split; [|exact Hc].
  apply negb_true_iff, bool_decide_eq_false in Hk. exact Hk.
Qed.

Lemma no_value_key_node l arr fields :
  no_value_key (HNode l arr fields) = true →
  ∀ k c, (k, c) ∈ fields → k ≠ "value" ∧ no_value_key c = true.
Proof.
  cbn [no_value_key]. rewrite forallb_forall. intros Hall k c Hin.
  specialize (Hall (k, c) (proj1 (list_elem_of_In _ _) Hin)). simpl in Hall.
  apply andb_true_iff in Hall. destruct Hall as [Hk Hc]. split; [|exact Hc].
  apply negb_true_iff, bool_decide_eq_false in Hk. exact Hk.
Qed.

Lemma has_null_node l arr fields :
  has_null (HNode l arr fields) = false →
  ∀ k c, (k, c) ∈ fields → has_null c = false.
Proof.
  cbn [has_null]. intros Hall k c Hin.
  destruct (has_null c) eqn:Hc; [|reflexivity].
  rewrite <- Hall. symmetry. apply existsb_exists. exists (k, c).
  split; [apply list_elem_of_In, Hin|exact Hc].
Qed.

Lemma node_table_lookup fields k c :
  NoDup fields.*1 → (k, c) ∈ fields →
  plookup (KStr k) (node_table fields) = Some (data (root c)).
Proof.
  induction fields as [|[k0 c0] fields IH]; intros Hnd Hin; [inversion Hin|].
  apply NoDup_cons in Hnd. destruct Hnd as [Hk0 Hnd]. cbn.
  apply elem_of_cons in Hin. destruct Hin as [[= -> ->]|Hin].
  - rewrite decide_True by reflexivity. reflexivity.
  - rewrite decide_False.
    + apply IH; assumption.
    + intros [= ->]. apply Hk0. apply list_elem_of_fmap. exists (k0, c). auto.
Qed.

Lemma node_table_lookup_None fields k :
  k ∉ fields.*1 → plookup (KStr k) (node_table fields) = None.
Proof.
  induction fields as [|[k0 c0] fields IH]; intros Hk; [reflexivity|]. cbn.
  simpl in Hk. apply not_elem_of_cons in Hk. destruct Hk as [Hne Hk].
  rewrite decide_False by (intros [= ->]; contradiction). apply IH, Hk.
Qed.

Lemma node_table_lookup_inv fields k p :
  plookup (KStr k) (node_table fields) = Some p →
  ∃ c, (k, c) ∈ fields ∧ p = data (root c).
Proof.
  induction fields as [|[k0 c0] fields IH]; [discriminate|]. cbn.
  destruct (decide (KStr k = KStr k0)) as [[= ->]|Hne].
  - intros [= <-]. exists c0. split; [apply list_elem_of_here|reflexivity].
  - intros Hp. destruct (IH Hp) as (c & Hin & ->). exists c.
    split; [apply list_elem_of_further, Hin|reflexivity].
Qed.

Lemma node_table_keys fields :
  enumerable_keys true (node_table fields) = KStr <$> fields.*1.
Proof.
  unfold enumerable_keys, node_table. induction fields as [|[k c] fields IH]; [reflexivity|].
  cbn. rewrite decide_True by (apply bool_decide_pack; reflexivity).
  cbn. f_equal. exact IH.
Qed.

Lemma node_table_symbols fields : enumerable_keys false (node_table fields) = [].
Proof.
  unfold enumerable_keys, node_table. induction fields as [|[k c] fields IH]; [reflexivity|].
  cbn. rewrite decide_False by (intros H; apply bool_decide_unpack in H; discriminate).
  exact IH.
Qed.
(** *** The standard realm under a growing heap *)

Ltac realm_side := first [assumption | vm_compute; lia].

Lemma standard_length h : standard h → length realm ≤ length h.
Proof.
  intros Hstd. destruct (decide (length realm ≤ length h)) as [|Hlt]; [assumption|exfalso].
  assert (Hl : length h < length realm) by lia.
  pose proof (Hstd _ Hl) as E. rewrite lookup_ge_None_2 in E by lia.
  destruct (lookup_lt_is_Some_2 realm (length h) Hl) as [o Ho]. congruence.
Qed.

Lemma standard_own_props h l :
  standard h → l < length realm → own_props h l = own_props realm l.
Proof. intros Hstd Hl. unfold own_props. rewrite (Hstd l Hl). reflexivity. Qed.

Lemma standard_proto_of h l :
  standard h → l < length realm → proto_of h l = proto_of realm l.
Proof. intros Hstd Hl. unfold proto_of. rewrite (Hstd l Hl). reflexivity. Qed.

Lemma standard_root h : standard h → proto_of h ObjectProto = None.
Proof. intros Hstd. rewrite standard_proto_of by realm_side. reflexivity. Qed.

Lemma standard_preserved h h' : standard h → preserved h h' → standard h'.
Proof.
  intros Hstd Hp l Hl. rewrite Hp; [apply Hstd, Hl|].
  pose proof (standard_length _ Hstd). lia.
Qed.

Lemma defaults_preserved lo h h' : defaults_at lo h → preserved h h' → defaults_at lo h'.
Proof.
  intros (H0 & H1 & H2) Hp.
  repeat split; (rewrite Hp; [assumption|eapply lookup_lt_Some; eassumption]).
Qed.

Lemma preserved_refl h : preserved h h.
Proof. intros l _. reflexivity. Qed.

Lemma preserved_trans h1 h2 h3 :
  length h1 ≤ length h2 → preserved h1 h2 → preserved h2 h3 → preserved h1 h3.
Proof. intros Hlen H12 H23 l Hl. rewrite H23 by lia. apply H12, Hl. Qed.

Lemma preserved_length h h' : preserved h h' → length h ≤ length h'.
Proof.
  intros Hp. destruct (decide (length h ≤ length h')) as [|Hlt]; [assumption|exfalso].
  assert (Hl : length h' < length h) by lia.
  pose proof (Hp _ Hl) as E. rewrite lookup_ge_None_2 in E by lia.
  destruct (lookup_lt_is_Some_2 h (length h') Hl) as [o Ho]. congruence.
Qed.

(** *** Reading and writing plain objects *)

Lemma chain_plain h l tb k :
  standard h → h !! l = Some (plain tb) →
  chain_prop h l k =
    match plookup k tb with
    | Some p => Some p
    | None => plookup k (own_props realm ObjectProto)
    end.
Proof.
  intros Hstd Hl. rewrite chain_prop_plain.
  - unfold own_props at 1. rewrite Hl. cbn [o_props plain].
    rewrite standard_own_props by realm_side. reflexivity.
  - unfold proto_of. rewrite Hl. reflexivity.
  - apply standard_root, Hstd.
Qed.

Lemma get_own h l o k x e w :
  h !! l = Some o → plookup k (o_props o) = Some (PData x e w) →
  get (VRef l) k h = Ret x h.
Proof.
  intros Hl Hp. rewrite (child_own h l k (PData x e w)); [reflexivity|].
  unfold own_props. rewrite Hl. exact Hp.
Qed.

Lemma get_plain_absent h l tb k :
  standard h → h !! l = Some (plain tb) →
  plookup k tb = None → plookup k (own_props realm ObjectProto) = None →
  get (VRef l) k h = Ret VUndef h.
Proof.
  intros Hstd Hl Hown Hinh. unfold get, resolve. cbn [is_nullish].
  rewrite (chain_plain _ _ _ _ Hstd Hl), Hown, Hinh. reflexivity.
Qed.

Lemma defaults_get lo h :
  defaults_at lo h → get (VRef lo) (KStr "safeGet") h = Ret (VRef (S lo)) h.
Proof. intros (H0 & _). eapply get_own; [exact H0|reflexivity]. Qed.

Lemma defaults_set lo h :
  defaults_at lo h → get (VRef lo) (KStr "safeSet") h = Ret (VRef (S (S lo))) h.
Proof. intros (H0 & _). eapply get_own; [exact H0|reflexivity]. Qed.

Lemma defaults_supplied lo h :
  defaults_at lo h → supplied h lo "safeGet" ∧ supplied h lo "safeSet".
Proof.
  intros (H0 & _). unfold supplied, own_props. rewrite H0.
  split; eexists _, _; (split; [reflexivity|reflexivity]).
Qed.

Lemma safeGet_default host lo obj k h :
  defaults_at lo h → safeGet host (VRef lo) obj k h = get obj k h.
Proof.
  intros Hd. unfold safeGet. rewrite (bind_Ret _ _ _ _ _ (defaults_get _ _ Hd)).
  destruct Hd as (_ & H1 & _). unfold call, kind_of. rewrite H1. reflexivity.
Qed.

Lemma call_set_default host lo this obj k v h :
  defaults_at lo h →
  call host (VRef (S (S lo))) this obj k (Some v) h = (set obj k v ;;! ret v) h.
Proof. intros (_ & _ & H2). unfold call, kind_of. rewrite H2. reflexivity. Qed.

Lemma set_plain_own h l tb k x y :
  h !! l = Some (plain tb) → plookup k tb = Some (data y) →
  set (VRef l) k x h = Ret tt (<[l := plain (pupdate k (data x) tb)]> h).
Proof.
  intros Hl Hown. unfold set. cbn [is_nullish]. unfold own_props. rewrite Hl.
  cbn [o_props plain]. rewrite Hown. unfold data. unfold set_obj. rewrite Hl. reflexivity.
Qed.

Lemma set_plain_absent h l tb k x :
  standard h → h !! l = Some (plain tb) →
  plookup k tb = None → plookup k (own_props realm ObjectProto) = None →
  set (VRef l) k x h = Ret tt (<[l := plain (pinsert k (data x) tb)]> h).
Proof.
  intros Hstd Hl Hown Hinh. unfold set. cbn [is_nullish]. unfold own_props at 1. rewrite Hl.
  cbn [o_props plain]. rewrite Hown. unfold proto_of at 1. rewrite Hl. cbn [o_proto plain].
  rewrite chain_prop_root by apply standard_root, Hstd.
  rewrite standard_own_props by realm_side. rewrite Hinh.
  unfold extensible. rewrite Hl. cbn [o_ext plain]. unfold set_obj. rewrite Hl. reflexivity.
Qed.

Lemma set_plain_same h l tb k x :
  h !! l = Some (plain tb) → plookup k tb = Some (data x) →
  set (VRef l) k x h = Ret tt h.
Proof.
  intros Hl Hown. rewrite (set_plain_own _ _ _ _ _ _ Hl Hown).
  rewrite (pupdate_same _ _ _ Hown). rewrite list_insert_id by exact Hl. reflexivity.
Qed.
Lemma plookup_app_Some k a b p : plookup k a = Some p → plookup k (a ++ b) = Some p.
Proof.
  induction a as [|[k0 p0] a IH]; simpl; [discriminate|].
  destruct (decide (k = k0)); [auto|exact IH].
Qed.

Lemma plookup_app_None k a b : plookup k a = None → plookup k (a ++ b) = plookup k b.
Proof.
  induction a as [|[k0 p0] a IH]; simpl; [reflexivity|].
  destruct (decide (k = k0)); [discriminate|exact IH].
Qed.

Lemma node_obj_lookup arr fields k c :
  NoDup fields.*1 → (k, c) ∈ fields →
  plookup (KStr k) (o_props (node_obj arr fields)) = Some (data (root c)).
Proof.
  intros Hnd Hin. destruct arr; cbn [node_obj o_props plain].
  - apply plookup_app_Some, node_table_lookup; assumption.
  - apply node_table_lookup; assumption.
Qed.

Lemma node_obj_no_key arr fields k :
  k ∉ fields.*1 → k ≠ "length" →
  plookup (KStr k) (o_props (node_obj arr fields)) = None.
Proof.
  intros Hk Hlen. destruct arr; cbn [node_obj o_props plain].
  - rewrite plookup_app_None by (apply node_table_lookup_None, Hk).
    simpl. rewrite decide_False by congruence. reflexivity.
  - apply node_table_lookup_None, Hk.
Qed.

Lemma node_obj_keys arr fields :
  enumerable_keys true (o_props (node_obj arr fields)) = KStr <$> fields.*1 ∧
  enumerable_keys false (o_props (node_obj arr fields)) = [].
Proof.
  destruct arr; cbn [node_obj o_props plain].
  - unfold enumerable_keys. rewrite !filter_app, !fmap_app.
    fold (enumerable_keys true (node_table fields)).
    fold (enumerable_keys false (node_table fields)).
    rewrite node_table_keys, node_table_symbols. split; [apply app_nil_r|reflexivity].
  - split; [apply node_table_keys|apply node_table_symbols].
Qed.

Lemma getKeys_node h l arr fields :
  h !! l = Some (node_obj arr fields) →
  getKeys (VRef l) h = Ret (KStr <$> fields.*1) h.
Proof.
  intros Hl. unfold getKeys, bind, object_keys, getEnumerableOwnPropertySymbols, ret, own_props.
  rewrite Hl. destruct (node_obj_keys arr fields) as [-> ->]. rewrite app_nil_r. reflexivity.
Qed.

Lemma object_keys_node h l arr fields :
  h !! l = Some (node_obj arr fields) →
  object_keys (VRef l) h = Ret (KStr <$> fields.*1) h.
Proof.
  intros Hl. unfold object_keys, own_props. rewrite Hl.
  destruct (node_obj_keys arr fields) as [-> _]. reflexivity.
Qed.

Lemma get_child h l arr fields k c :
  h !! l = Some (node_obj arr fields) → NoDup fields.*1 → (k, c) ∈ fields →
  get (VRef l) (KStr k) h = Ret (root c) h.
Proof.
  intros Hl Hnd Hin. eapply get_own; [exact Hl|]. apply node_obj_lookup; assumption.
Qed.

Lemma isArray_node h l arr fields :
  h !! l = Some (node_obj arr fields) → isArray h (VRef l) = arr.
Proof. intros Hl. unfold isArray, kind_of. rewrite Hl. destruct arr; reflexivity. Qed.

Lemma isArray_prim h x : is_prim x = true → isArray h x = false.
Proof. destruct x; try reflexivity. discriminate. Qed.

Lemma node_table_symbol fields n : plookup (KSym n) (node_table fields) = None.
Proof.
  induction fields as [|[k c] fields IH]; [reflexivity|].
  cbn [node_table fmap list_fmap plookup fst]. rewrite decide_False by discriminate.
  exact IH.
Qed.

(** A tree node carries no [Symbol.toStringTag], own or inherited. *)
Lemma node_tag h l arr fields :
  standard h → h !! l = Some (node_obj arr fields) → resolve h (VRef l) toStringTag = None.
Proof.
  intros Hstd Hl. cbn [resolve]. destruct arr.
  - pose proof (standard_length _ Hstd) as Hlen.
    unfold chain_prop. destruct (length h) as [|[|n]] eqn:E;
      [vm_compute in Hlen; lia|vm_compute in Hlen; lia|].
    cbn [find_prop]. unfold own_props at 1, proto_of at 1. rewrite Hl.
    cbn [node_obj o_props o_proto].
    rewrite plookup_app_None by apply node_table_symbol. cbn [plookup toStringTag].
    rewrite decide_False by discriminate.
    rewrite (standard_own_props h ArrayProto), (standard_proto_of h ArrayProto)
      by realm_side.
    change (proto_of realm ArrayProto) with (Some ObjectProto). cbn iota.
    rewrite (standard_own_props h ObjectProto) by realm_side.
    rewrite (standard_root _ Hstd). reflexivity.
  - rewrite (chain_plain h l (node_table fields) _ Hstd Hl). unfold toStringTag.
    rewrite node_table_symbol. reflexivity.
Qed.

Lemma isMergeable_node h l arr fields :
  standard h → h !! l = Some (node_obj arr fields) → isMergeableObject h (VRef l) = true.
Proof.
  intros Hstd Hl.
  unfold isMergeableObject, isNonNullObject, isSpecial, object_toString, typeof_object.
  rewrite (node_tag _ _ _ _ Hstd Hl). cbn [builtin_tag]. unfold kind_of.
  rewrite Hl. destruct arr; reflexivity.
Qed.

Lemma isMergeable_prim h x : is_prim x = true → isMergeableObject h x = false.
Proof.
  unfold isMergeableObject, isNonNullObject. intros Hp.
  destruct x; try discriminate; simpl; rewrite ?andb_false_r; reflexivity.
Qed.

Lemma hasOwn_value_node h l arr fields :
  h !! l = Some (node_obj arr fields) → "value" ∉ fields.*1 →
  hasOwnProperty (VRef l) (KStr "value") h = Ret false h.
Proof.
  intros Hl Hk. unfold hasOwnProperty, own_of, own_props. cbn [is_nullish]. rewrite Hl.
  rewrite node_obj_no_key by (assumption || discriminate). reflexivity.
Qed.

Lemma no_value_key_fields l arr fields :
  no_value_key (HNode l arr fields) = true → "value" ∉ fields.*1.
Proof.
  intros Hnv Hin. apply list_elem_of_fmap in Hin. destruct Hin as ([k c] & Hk & Hin).
  simpl in Hk. subst k. destruct (no_value_key_node _ _ _ Hnv _ _ Hin) as [Hne _].
  congruence.
Qed.

(** *** Built-in objects are never maps or changes *)

Lemma realm_proto_low b p : b < length realm → proto_of realm b = Some p → p ≤ 1.
Proof.
  intros Hb. do 13 (destruct b as [|b]; [intros H; vm_compute in H; inversion H; lia|]).
  simpl in Hb. lia.
Qed.

Lemma on_chain_low h n p cp :
  standard h → p ≤ 2 → 3 ≤ cp → on_chain n h p cp = false.
Proof.
  intros Hstd. revert p. induction n as [|n IH]; intros p Hp Hcp; [reflexivity|]. simpl.
  rewrite decide_False by lia.
  rewrite standard_proto_of by (assumption || (simpl; lia)).
  destruct (proto_of realm p) as [p'|] eqn:Hp'; [|reflexivity].
  apply IH; [|exact Hcp]. assert (p' ≤ 1); [|lia].
  eapply realm_proto_low; [|exact Hp']. simpl. lia.
Qed.

Lemma instanceof_low h f cp :
  standard h → value_ok (length realm) f = true → 3 ≤ cp → instanceof h f cp = false.
Proof.
  intros Hstd Hf Hcp. destruct f; try reflexivity. simpl in Hf. apply Nat.ltb_lt in Hf.
  unfold instanceof. rewrite standard_proto_of by assumption.
  destruct (proto_of realm l) as [p|] eqn:Hp; [|reflexivity].
  apply on_chain_low; [assumption| |assumption]. assert (p ≤ 1); [|lia].
  eapply realm_proto_low; eauto.
Qed.

Lemma instanceof_prim h x cp : is_prim x = true → instanceof h x cp = false.
Proof. destruct x; try reflexivity. discriminate. Qed.

Lemma instanceof_node h l arr fields cp :
  standard h → h !! l = Some (node_obj arr fields) → 3 ≤ cp →
  instanceof h (VRef l) cp = false.
Proof.
  intros Hstd Hl Hcp. unfold instanceof, proto_of. rewrite Hl.
  destruct arr; cbn [node_obj o_proto plain];
    (apply on_chain_low; [assumption|unfold ArrayProto, ObjectProto; lia|lia]).
Qed.

Lemma instanceof_tree h c cp :
  standard h → holds h c → wf_tree c = true → 3 ≤ cp → instanceof h (root c) cp = false.
Proof.
  intros Hstd Hh Hwf Hcp. destruct c as [v|l arr fields].
  - apply instanceof_prim. exact Hwf.
  - eapply instanceof_node; eauto. apply holds_node, Hh.
Qed.
(** *** Primitives as merge targets *)

Lemma standard_realm : standard realm.
Proof. intros l _. reflexivity. Qed.

Lemma chain_wrapper h b k :
  standard h → b < length realm → proto_of realm b = Some ObjectProto →
  chain_prop h b k =
    match plookup k (own_props realm b) with
    | Some p => Some p
    | None => plookup k (own_props realm ObjectProto)
    end.
Proof.
  intros Hstd Hb Hp. rewrite chain_prop_plain.
  - rewrite (standard_own_props h b), (standard_own_props h ObjectProto) by realm_side.
    reflexivity.
  - rewrite standard_proto_of by assumption. exact Hp.
  - apply standard_root, Hstd.
Qed.

Lemma resolve_prim_standard h x k :
  standard h → is_prim x = true → resolve h x k = resolve realm x k.
Proof.
  intros Hstd Hx. destruct x; try discriminate; try reflexivity; unfold resolve;
    rewrite ?(chain_wrapper h), ?(chain_wrapper realm)
      by (assumption || apply standard_realm || (vm_compute; lia) || reflexivity);
    reflexivity.
Qed.

Lemma realm_prop_ok b k p :
  plookup k (own_props realm b) = Some p → prop_ok (length realm) p = true.
Proof.
  unfold own_props. destruct (realm !! b) as [o|] eqn:Hb; [|discriminate]. intros Hp.
  assert (Hok : heap_ok realm = true) by reflexivity.
  pose proof (heap_ok_obj _ _ _ Hok Hb) as Ho. unfold obj_ok in Ho.
  apply andb_true_iff in Ho. destruct Ho as [_ Hps]. rewrite forallb_forall in Hps.
  apply (Hps _ (plookup_In _ _ _ Hp)).
Qed.

Lemma resolve_prim_ok x k p :
  is_prim x = true → resolve realm x k = Some p → prop_ok (length realm) p = true.
Proof.
  intros Hx. assert (Hc : ∀ b, b < length realm → proto_of realm b = Some ObjectProto →
                           chain_prop realm b k = Some p → prop_ok (length realm) p = true).
  { intros b Hb Hp. rewrite (chain_wrapper realm b k standard_realm Hb Hp).
    destruct (plookup k (own_props realm b)) as [p'|] eqn:Hown.
    - intros [= <-]. eapply realm_prop_ok, Hown.
    - apply realm_prop_ok. }
  destruct x; try discriminate; unfold resolve;
    try (apply Hc; [vm_compute; lia|reflexivity]).
  destruct (str_own s k) as [p'|] eqn:Hs.
  - intros [= <-]. unfold str_own in Hs. destruct k; [|discriminate].
    destruct (decide _); [injection Hs as <-; reflexivity|].
    destruct (list_find _ _) as [[? ?]|]; [injection Hs as <-; reflexivity|discriminate].
  - apply Hc; [vm_compute; lia|reflexivity].
Qed.

(** What a primitive answers for any key is a primitive or a built-in. *)
Lemma get_prim_low h x k :
  standard h → is_prim x = true → is_nullish x = false →
  ∃ f, get x k h = Ret f h ∧ value_ok (length realm) f = true.
Proof.
  intros Hstd Hx Hn. unfold get. rewrite Hn. rewrite (resolve_prim_standard _ _ _ Hstd Hx).
  destruct (resolve realm x k) as [[f e w|]|] eqn:Hr.
  - exists f. split; [reflexivity|]. apply (resolve_prim_ok _ _ _ Hx Hr).
  - eexists. split; [reflexivity|]. destruct x; try discriminate; reflexivity.
  - exists VUndef. split; reflexivity.
Qed.

Lemma unsafe_prim host lo h x k :
  standard h → defaults_at lo h → is_prim x = true → is_nullish x = false →
  propertyIsUnsafe host x k (VRef lo) h = Ret false h.
Proof.
  intros Hstd Hd Hx Hn. unfold propertyIsUnsafe, hasEmberDataProperty.
  destruct (get_prim_low h x (KStr "constructor.fields") Hstd Hx Hn) as (f & Hf & Hlow).
  assert (Hdyn : (let! fields := safeGet host (VRef lo) x (KStr "constructor.fields") in
                  λ h0, if instanceof h0 fields MapProto then map_has fields k h0
                        else Ret false h0) h = Ret false h).
  { unfold bind. rewrite (safeGet_default _ _ _ _ _ Hd), Hf.
    rewrite instanceof_low by (assumption || (unfold MapProto; lia)). reflexivity. }
  rewrite (bind_Ret _ _ _ _ _ Hdyn). cbn iota.
  rewrite (bind_Ret _ _ _ _ _ (propertyIsOnObject_total x k h)).
  destruct x; try discriminate; reflexivity.
Qed.

Lemma unsafe_nullish host lo h x k :
  defaults_at lo h → is_nullish x = true →
  propertyIsUnsafe host x k (VRef lo) h = Throw TypeError h.
Proof.
  intros Hd Hn. unfold propertyIsUnsafe, hasEmberDataProperty, bind.
  rewrite (safeGet_default _ _ _ _ _ Hd). unfold get. rewrite Hn. reflexivity.
Qed.

Lemma set_prim h x k v :
  standard h → is_prim x = true →
  set x k v h = if prim_accepts x k then Ret tt h else Throw TypeError h.
Proof.
  intros Hstd Hx. unfold set, prim_accepts. destruct (is_nullish x) eqn:Hn; [reflexivity|].
  cbn [negb andb]. rewrite (resolve_prim_standard _ _ _ Hstd Hx).
  destruct x; try discriminate;
    (destruct (resolve realm _ k) as [[? ? ?|]|]; reflexivity).
Qed.

(** *** The classifier on a plain object *)

Lemma unsafe_plain host lo h lt tb k :
  standard h → defaults_at lo h →
  h !! lt = Some (plain tb) →
  plookup (KStr fields_key) tb = None →
  propertyIsUnsafe host (VRef lt) k (VRef lo) h =
    Ret (match plookup k tb with
         | Some p => negb (is_enumerable p)
         | None => present (plookup k (own_props realm ObjectProto))
         end) h.
Proof.
  intros Hstd Hd Hl Hcf. unfold fields_key in Hcf.
  unfold propertyIsUnsafe, hasEmberDataProperty.
  assert (Hdyn : (let! fields := safeGet host (VRef lo) (VRef lt) (KStr "constructor.fields") in
                  λ h0, if instanceof h0 fields MapProto then map_has fields k h0
                        else Ret false h0) h = Ret false h).
  { unfold bind. rewrite (safeGet_default _ _ _ _ _ Hd).
    rewrite (get_plain_absent h lt tb _ Hstd Hl Hcf eq_refl). reflexivity. }
  rewrite (bind_Ret _ _ _ _ _ Hdyn). cbn iota.
  rewrite (bind_Ret _ _ _ _ _ (propertyIsOnObject_total _ k h)).
  unfold exists_in, has_property. rewrite (chain_plain _ _ _ _ Hstd Hl).
  assert (Hown' : hasOwnProperty (VRef lt) k h = Ret (present (plookup k tb)) h).
  { unfold hasOwnProperty, own_of, own_props. cbn [is_nullish]. rewrite Hl. reflexivity. }
  assert (Henum : propertyIsEnumerable (VRef lt) k h =
                  Ret (match plookup k tb with Some p => is_enumerable p | None => false end) h).
  { unfold propertyIsEnumerable, own_of, own_props. cbn [is_nullish]. rewrite Hl. reflexivity. }
  destruct (plookup k tb) as [p|] eqn:Hown; cbn [present].
  - rewrite (bind_Ret _ _ _ _ _ Hown'). cbn [present].
    rewrite (bind_Ret _ _ _ _ _ Henum). reflexivity.
  - destruct (plookup k (own_props realm ObjectProto)); cbn [present]; [|reflexivity].
    rewrite (bind_Ret _ _ _ _ _ Hown'). reflexivity.
Qed.
(** *** Strings own no [value] *)

Lemma pretty_N_go_head x s :
  (0 < x)%N → ∃ d r, pretty_N_go x s = String (pretty_N_char d) r.
Proof.
  revert s. induction (N.lt_wf_0 x) as [x _ IH]. intros s Hx.
  rewrite pretty_N_go_step by exact Hx.
  destruct (N.eq_dec (x `div` 10) 0)%N as [E|E].
  - rewrite E, pretty_N_go_0. eauto.
  - apply IH; [apply N.div_lt; lia|apply N.neq_0_lt_0; exact E].
Qed.

Lemma pretty_nat_head (i : nat) : ∃ d r, pretty i = String (pretty_N_char d) r.
Proof.
  unfold pretty, pretty_nat, pretty, pretty_N.
  destruct (decide (N.of_nat i = 0%N)) as [_|Hne].
  - exists 0%N, "". reflexivity.
  - apply pretty_N_go_head. lia.
Qed.

Lemma pretty_nat_not_value (i : nat) : pretty i ≠ "value".
Proof.
  destruct (pretty_nat_head i) as (d & r & ->). intros [= Hc _]. revert Hc.
  unfold pretty_N_char. repeat case_match; discriminate.
Qed.

Lemma str_own_value s : str_own s (KStr "value") = None.
Proof.
  unfold str_own. rewrite decide_False by discriminate.
  destruct (list_find _ _) as [[i j]|] eqn:Hf; [|reflexivity].
  apply list_find_Some in Hf. destruct Hf as (_ & Hp & _).
  exfalso. exact (pretty_nat_not_value _ Hp).
Qed.

Lemma prim_not_wrapper h x :
  is_prim x = true →
  (if truthy x then hasOwnProperty x (KStr "value") else ret false) h = Ret false h.
Proof.
  intros Hx. destruct (truthy x) eqn:Ht; [|reflexivity].
  unfold hasOwnProperty, own_of.
  destruct x; try discriminate; try reflexivity. cbn [is_nullish].
  rewrite str_own_value. reflexivity.
Qed.
(** *** The path builder on a tree without wrappers *)

Lemma forEach_same {A} (f : A → M unit) ks h :
  (∀ k, k ∈ ks → f k h = Ret tt h) → forEach f ks h = Ret tt h.
Proof.
  induction ks as [|k ks IH]; intros Hf; [reflexivity|].
  cbn [forEach]. rewrite (bind_Ret _ _ _ _ _ (Hf k (list_elem_of_here _ _))).
  apply IH. intros k' Hk'. apply Hf, list_elem_of_further, Hk'.
Qed.

Lemma forEach_inv {A} (f : A → M unit) (Q : A → Prop) ks h u h' :
  (∀ k u' g, k ∈ ks → f k h = Ret u' g → g = h ∧ Q k) →
  forEach f ks h = Ret u h' → h' = h ∧ ∀ k, k ∈ ks → Q k.
Proof.
  induction ks as [|k ks IH]; intros Hf Hrun.
  - cbn [forEach] in Hrun. injection Hrun as _ <-. split; [reflexivity|].
    intros k Hk. inversion Hk.
  - cbn [forEach] in Hrun. unfold bind at 1 in Hrun.
    destruct (f k h) as [u' g| |] eqn:Hk; try discriminate.
    destruct (Hf k u' g (list_elem_of_here _ _) Hk) as [-> HQ].
    destruct IH as [-> HQs]; [|exact Hrun|].
    + intros k' u'' g' Hk'. apply Hf, list_elem_of_further, Hk'.
    + split; [reflexivity|]. intros k' Hk'. apply elem_of_cons in Hk'.
      destruct Hk' as [->|Hk']; [exact HQ|apply HQs, Hk'].
Qed.

Lemma fields_functional (fields : list (string * ht)) k c c' :
  NoDup fields.*1 → (k, c) ∈ fields → (k, c') ∈ fields → c = c'.
Proof.
  induction fields as [|[k0 c0] fields IH]; intros Hnd H1 H2; [inversion H1|].
  cbn [fmap list_fmap fst] in Hnd. apply NoDup_cons in Hnd. destruct Hnd as [Hk0 Hnd].
  assert (Hfst : ∀ x, (k0, x) ∈ fields → False).
  { intros x Hx. apply Hk0. apply list_elem_of_fmap. exists (k0, x). auto. }
  apply elem_of_cons in H1. apply elem_of_cons in H2.
  destruct H1 as [E1|H1], H2 as [E2|H2].
  - congruence.
  - injection E1 as -> ->. destruct (Hfst _ H2).
  - injection E2 as -> ->. destruct (Hfst _ H1).
  - apply IH; assumption.
Qed.

Lemma node_key_inv (fields : list (string * ht)) k :
  k ∈ KStr <$> fields.*1 → ∃ s c, k = KStr s ∧ (s, c) ∈ fields.
Proof.
  intros Hk. apply list_elem_of_fmap in Hk. destruct Hk as (s & -> & Hs).
  apply list_elem_of_fmap in Hs. destruct Hs as ([s' c] & -> & Hin).
  exists s', c. split; [reflexivity|exact Hin].
Qed.

Lemma node_key_intro (fields : list (string * ht)) s c :
  (s, c) ∈ fields → KStr s ∈ KStr <$> fields.*1.
Proof.
  intros Hin. apply list_elem_of_fmap. exists s. split; [reflexivity|].
  apply list_elem_of_fmap. exists (s, c). split; [reflexivity|exact Hin].
Qed.

Lemma has_null_node_intro l arr fields :
  (∀ k c, (k, c) ∈ fields → has_null c = false) → has_null (HNode l arr fields) = false.
Proof.
  intros H. cbn [has_null]. induction fields as [|[k c] fields IH]; [reflexivity|].
  cbn [existsb snd]. rewrite (H k c) by apply list_elem_of_here. cbn [orb].
  apply IH. intros k' c' Hin. eapply H, list_elem_of_further, Hin.
Qed.

Lemma typeof_object_node h l arr fields :
  h !! l = Some (node_obj arr fields) → typeof_object h (VRef l) = true.
Proof.
  intros Hl. unfold typeof_object, kind_of. rewrite Hl. destruct arr; reflexivity.
Qed.

Lemma node_not_wrapper h c :
  holds h c → wf_tree c = true → no_value_key c = true →
  (if truthy (root c) then hasOwnProperty (root c) (KStr "value") else ret false) h
  = Ret false h.
Proof.
  intros Hh Hwf Hnv. destruct c as [v|l arr fields].
  - apply prim_not_wrapper. exact Hwf.
  - cbn [root truthy]. eapply hasOwn_value_node; [apply holds_node, Hh|].
    eapply no_value_key_fields, Hnv.
Qed.

Lemma buildPathToValue_tree opts kv s :
  wf_tree s = true → no_value_key s = true → is_node s = true →
  ∀ fuel path h, holds h s →
    (∀ x h', buildPathToValue fuel (root s) opts kv path h = Ret x h' →
             x = kv ∧ h' = h ∧ has_null s = false) ∧
    (has_null s = false → depth s ≤ fuel →
     buildPathToValue fuel (root s) opts kv path h = Ret kv h).
Proof.
  induction s as [v|l arr fields IH] using ht_ind'; intros Hwf Hnv Hnode; [discriminate|].
  intros fuel path h Hh.
  pose proof (holds_node _ _ _ _ Hh) as Hl.
  destruct (wf_tree_node _ _ _ Hwf) as [Hnd Hwfc].
  pose proof (no_value_key_node _ _ _ Hnv) as Hnvc.
  destruct fuel as [|fuel].
  { split; [intros x h' H; discriminate|].
    intros _ Hd. cbn [depth] in Hd. lia. }
  cbn [buildPathToValue root].
  rewrite (bind_Ret _ _ _ _ _ (object_keys_node _ _ _ _ Hl)).
  set (V := visit_key _ _ _ _).
  assert (HV : ∀ k c, (k, c) ∈ fields →
    (∀ u g, V (KStr k) h = Ret u g → g = h ∧ has_null c = false) ∧
    (has_null c = false → depth c ≤ fuel → V (KStr k) h = Ret tt h)).
  { intros k c Hin. destruct (Hwfc k c Hin) as [_ Hwc]. destruct (Hnvc k c Hin) as [_ Hnc].
    pose proof (holds_child _ _ _ _ _ _ Hh Hin) as Hhc.
    unfold V, visit_key.
    rewrite (bind_Ret _ _ _ _ _ (get_child _ _ _ _ _ _ Hl Hnd Hin)).
    rewrite (bind_Ret _ _ _ _ _ (node_not_wrapper _ _ Hhc Hwc Hnc)).
    destruct c as [v|lc ac cf].
    - cbn [root has_null key_string]. destruct v; try discriminate; cbn [typeof_object].
      + split; [intros u g [= _ <-]; split; reflexivity|reflexivity].
      + split; [|intros; discriminate]. intros u g. unfold bind.
        destruct fuel; cbn; discriminate.
      + split; [intros u g [= _ <-]; split; reflexivity|reflexivity].
      + split; [intros u g [= _ <-]; split; reflexivity|reflexivity].
      + split; [intros u g [= _ <-]; split; reflexivity|reflexivity].
      + split; [intros u g [= _ <-]; split; reflexivity|reflexivity].
    - cbn [root key_string].
      rewrite (typeof_object_node _ _ _ _ (holds_node _ _ _ _ Hhc)).
      destruct (IH k _ Hin Hwc Hnc eq_refl fuel (path ++ [k]) h Hhc) as [Hinv Hrun].
      cbn [root] in Hinv, Hrun. split.
      + intros u g. unfold bind at 1.
        destruct (buildPathToValue _ _ _ _ _ _) as [x g'| |] eqn:Hb; try discriminate.
        destruct (Hinv _ _ eq_refl) as (_ & -> & Hn). intros [= _ <-]. auto.
      + intros Hn Hd. rewrite (bind_Ret _ _ _ _ _ (Hrun Hn Hd)). reflexivity. }
  split.
  - intros x h'. unfold bind at 1.
    destruct (forEach V _ h) as [u g| |] eqn:Hf; try discriminate.
    intros [= <- <-].
    apply (forEach_inv V (λ k, ∀ s c, k = KStr s → (s, c) ∈ fields → has_null c = false))
      in Hf.
    + destruct Hf as [-> HQ]. split; [reflexivity|]. split; [reflexivity|].
      apply has_null_node_intro. intros k c Hin. eapply HQ; [|reflexivity|exact Hin].
      eapply node_key_intro, Hin.
    + intros k u' g' Hk Hrun. destruct (node_key_inv _ _ Hk) as (s & c & -> & Hin).
      destruct (HV s c Hin) as [Hinv _]. destruct (Hinv _ _ Hrun) as [-> Hn].
      split; [reflexivity|]. intros s' c' [= <-] Hin'.
      rewrite (fields_functional _ _ _ _ Hnd Hin' Hin). exact Hn.
  - intros Hn Hd. rewrite (bind_Ret _ _ _ tt h); [reflexivity|].
    apply forEach_same. intros k Hk. destruct (node_key_inv _ _ Hk) as (s & c & -> & Hin).
    destruct (HV s c Hin) as [_ Hrun]. apply Hrun.
    + eapply has_null_node, Hin. exact Hn.
    + pose proof (depth_child l arr _ _ _ Hin). lia.
Qed.
(** *** One key of the merge, case by case *)

Lemma propertyIsOnObject_plain h lt tb k :
  standard h → h !! lt = Some (plain tb) →
  propertyIsOnObject (VRef lt) k h =
    Ret (match plookup k tb with
         | Some _ => true
         | None => present (plookup k (own_props realm ObjectProto))
         end) h.
Proof.
  intros Hs Hl. rewrite propertyIsOnObject_total. unfold exists_in, has_property.
  rewrite (chain_plain _ _ _ _ Hs Hl). destruct (plookup k tb); reflexivity.
Qed.

Lemma propertyIsOnObject_prim h x k :
  is_prim x = true → propertyIsOnObject x k h = Ret false h.
Proof.
  intros Hx. rewrite propertyIsOnObject_total. destruct x; try discriminate; reflexivity.
Qed.

Lemma store_default host lo this obj k v h :
  defaults_at lo h →
  (call host (VRef (S (S lo))) this obj k (Some v) ;;! ret tt) h = set obj k v h.
Proof.
  intros Hd. unfold bind at 1. rewrite (call_set_default _ _ _ _ _ _ _ Hd).
  unfold bind. destruct (set obj k v h) as [[] g| |]; reflexivity.
Qed.

Lemma holds_app h ext t : holds h t → holds (h ++ ext) t.
Proof. intros H l o Hin. apply lookup_app_l_Some, H, Hin. Qed.

Lemma own_props_fresh h o : own_props (h ++ [o]) (length h) = o_props o.
Proof. unfold own_props. rewrite list_lookup_middle by reflexivity. reflexivity. Qed.

Section MergeKey.

Variable host : nat → value → list value → M value.
Variables (fuel : nat) (rec : value → value → value → M value).
Variables (lo : loc) (h : heap) (ls : loc) (arr : bool) (sf : list (string * ht)).
Variables (k : string) (c : ht).
Hypothesis Hstd : standard h.
Hypothesis Hdef : defaults_at lo h.
Hypothesis Hsrc : holds h (HNode ls arr sf).
Hypothesis Hwf : wf_tree (HNode ls arr sf) = true.
Hypothesis Hnv : no_value_key (HNode ls arr sf) = true.
Hypothesis Hin : (k, c) ∈ sf.

Lemma source_child : get (VRef ls) (KStr k) h = Ret (root c) h.
Proof.
  eapply get_child; [apply holds_node, Hsrc| |exact Hin].
  apply (wf_tree_node _ _ _ Hwf).
Qed.

Lemma child_not_change : truthy (root c) && instanceof h (root c) ChangeProto = false.
Proof.
  rewrite instanceof_tree; [apply andb_false_r|exact Hstd| | |unfold ChangeProto; lia].
  - eapply holds_child; [exact Hsrc|exact Hin].
  - eapply (wf_tree_node _ _ _ Hwf), Hin.
Qed.

Lemma child_mergeable : isMergeableObject h (root c) = is_node c.
Proof.
  destruct c as [v|lc ac cf] eqn:Ec.
  - apply isMergeable_prim. apply (proj2 (wf_tree_node _ _ _ Hwf) _ _ Hin).
  - cbn [root is_node]. eapply isMergeable_node; [exact Hstd|].
    eapply holds_node, holds_child; [exact Hsrc|exact Hin].
Qed.

Lemma child_not_wrapper :
  is_node c = true → hasOwnProperty (root c) (KStr "value") h = Ret false h.
Proof.
  destruct c as [v|lc ac cf] eqn:Ec; [discriminate|]. intros _. cbn [root].
  eapply hasOwn_value_node.
  - eapply holds_node, holds_child; [exact Hsrc|exact Hin].
  - eapply no_value_key_fields, (no_value_key_node _ _ _ Hnv), Hin.
Qed.

(** The target is a primitive: the key is never found on it, and the
    assignment of line 112 is all that happens. *)
Lemma merge_key_prim x :
  is_prim x = true →
  merge_key host fuel rec x (VRef ls) (VRef lo) (KStr k) h =
    if prim_accepts x (KStr k) then Ret tt h else Throw TypeError h.
Proof.
  intros Hx. unfold merge_key. destruct (is_nullish x) eqn:Hn.
  - rewrite (bind_Throw _ _ _ _ _ (unsafe_nullish _ _ _ _ _ Hdef Hn)).
    unfold prim_accepts. rewrite Hn. reflexivity.
  - rewrite (bind_Ret _ _ _ _ _ (unsafe_prim _ _ _ _ _ Hstd Hdef Hx Hn)).
    rewrite (bind_Ret _ _ _ _ _ (propertyIsOnObject_prim _ _ _ Hx)).
    unfold bind at 1. unfold ret at 1. unfold bind at 1. cbn [andb].
    rewrite (bind_Ret _ _ _ _ _ source_child). rewrite child_not_change.
    rewrite (bind_Ret _ _ _ _ _ (defaults_set _ _ Hdef)).
    rewrite (store_default _ _ _ _ _ _ _ Hdef). apply set_prim; assumption.
Qed.

Section PlainTarget.

Variables (lt : loc) (tb : list (key * prop)).
Hypothesis Hlt : h !! lt = Some (plain tb).
Hypothesis Hcf : plookup (KStr fields_key) tb = None.

(** The target lacks the key, and so does [Object.prototype]: the source's
    value is stored as it is. *)
Lemma merge_key_absent :
  plookup (KStr k) tb = None → inherited k = false →
  merge_key host fuel rec (VRef lt) (VRef ls) (VRef lo) (KStr k) h =
    Ret tt (<[lt := plain (pinsert (KStr k) (data (root c)) tb)]> h).
Proof.
  intros Hk Hi. unfold inherited in Hi.
  destruct (plookup (KStr k) (own_props realm ObjectProto)) eqn:Hi'; [discriminate|].
  clear Hi. rename Hi' into Hi.
  unfold merge_key.
  rewrite (bind_Ret _ _ _ _ _ (unsafe_plain _ _ _ _ _ _ Hstd Hdef Hlt Hcf)).
  rewrite Hk, Hi. cbn [present].
  rewrite (bind_Ret _ _ _ _ _ (propertyIsOnObject_plain _ _ _ _ Hstd Hlt)).
  rewrite Hk, Hi. cbn [present].
  unfold bind at 1. unfold ret at 1. unfold bind at 1. cbn [andb].
  rewrite (bind_Ret _ _ _ _ _ source_child). rewrite child_not_change.
  rewrite (bind_Ret _ _ _ _ _ (defaults_set _ _ Hdef)).
  rewrite (store_default _ _ _ _ _ _ _ Hdef).
  apply set_plain_absent; assumption.
Qed.

(** The target owns the key and the source's value is a leaf. *)
Lemma merge_key_own_leaf x :
  plookup (KStr k) tb = Some (data x) → is_node c = false →
  merge_key host fuel rec (VRef lt) (VRef ls) (VRef lo) (KStr k) h =
    Ret tt (<[lt := plain (pupdate (KStr k) (data (root c)) tb)]> h).
Proof.
  intros Hk Hc. unfold merge_key.
  rewrite (bind_Ret _ _ _ _ _ (unsafe_plain _ _ _ _ _ _ Hstd Hdef Hlt Hcf)).
  rewrite Hk. cbn [is_enumerable data negb].
  rewrite (bind_Ret _ _ _ _ _ (propertyIsOnObject_plain _ _ _ _ Hstd Hlt)).
  rewrite Hk.
  rewrite (bind_Ret _ _ _ _ _ source_child).
  unfold bind at 1. rewrite child_mergeable, Hc. cbn [andb].
  rewrite (bind_Ret _ _ _ _ _ source_child). rewrite child_not_change.
  rewrite child_mergeable, Hc. cbn [andb].
  rewrite (bind_Ret _ _ _ _ _ (defaults_set _ _ Hdef)).
  rewrite (store_default _ _ _ _ _ _ _ Hdef).
  eapply set_plain_own; eassumption.
Qed.

(** The target owns the key and the source's value is an object: line
    104. *)
Lemma merge_key_own_node x :
  plookup (KStr k) tb = Some (data x) → is_node c = true →
  merge_key host fuel rec (VRef lt) (VRef ls) (VRef lo) (KStr k) h =
    (let! m := rec x (root c) (VRef lo) in
     call host (VRef (S (S lo))) (VRef lo) (VRef lt) (KStr k) (Some m) ;;! ret tt) h.
Proof.
  intros Hk Hc. unfold merge_key.
  rewrite (bind_Ret _ _ _ _ _ (unsafe_plain _ _ _ _ _ _ Hstd Hdef Hlt Hcf)).
  rewrite Hk. cbn [is_enumerable data negb].
  rewrite (bind_Ret _ _ _ _ _ (propertyIsOnObject_plain _ _ _ _ Hstd Hlt)).
  rewrite Hk.
  rewrite (bind_Ret _ _ _ _ _ source_child).
  unfold bind at 1. rewrite child_mergeable, Hc. cbn [andb].
  rewrite (child_not_wrapper Hc).
  rewrite child_mergeable, Hc. cbn [andb negb].
  rewrite (bind_Ret _ _ _ _ _ (defaults_set _ _ Hdef)).
  assert (Ht : safeGet host (VRef lo) (VRef lt) (KStr k) h = Ret x h).
  { rewrite (safeGet_default _ _ _ _ _ Hdef). eapply get_own; [exact Hlt|exact Hk]. }
  rewrite (bind_Ret _ _ _ _ _ Ht).
  assert (Hs : safeGet host (VRef lo) (VRef ls) (KStr k) h = Ret (root c) h).
  { rewrite (safeGet_default _ _ _ _ _ Hdef). apply source_child. }
  rewrite (bind_Ret _ _ _ _ _ Hs). reflexivity.
Qed.

End PlainTarget.

End MergeKey.

(** The target lacks the key but [Object.prototype] has it: lines 88-96.
    The source holds no wrapper, so no path is found and nothing is
    written; walking the source fails when it holds a [null]. *)
Lemma merge_key_unsafe host fuel rec lo h ls arr sf k lt tb :
  standard h → defaults_at lo h →
  holds h (HNode ls arr sf) →
  wf_tree (HNode ls arr sf) = true → no_value_key (HNode ls arr sf) = true →
  h !! lt = Some (plain tb) → plookup (KStr fields_key) tb = None →
  plookup (KStr k) tb = None → inherited k = true →
  (∀ u g, merge_key host fuel rec (VRef lt) (VRef ls) (VRef lo) (KStr k) h = Ret u g →
          g = h ++ [empty_object] ∧ has_null (HNode ls arr sf) = false) ∧
  (has_null (HNode ls arr sf) = false → depth (HNode ls arr sf) ≤ fuel →
   merge_key host fuel rec (VRef lt) (VRef ls) (VRef lo) (KStr k) h
   = Ret tt (h ++ [empty_object])).
Proof.
  intros Hstd Hdef Hsrc Hwf Hnv Hlt Hcf Hk Hi. unfold inherited in Hi.
  unfold merge_key.
  rewrite (bind_Ret _ _ _ _ _ (unsafe_plain _ _ _ _ _ _ Hstd Hdef Hlt Hcf)).
  rewrite Hk, Hi.
  rewrite (bind_Ret _ _ _ _ _ (defaults_set _ _ Hdef)). cbn [truthy].
  unfold alloc at 1. unfold bind at 1.
  destruct (buildPathToValue_tree (VRef lo) (VRef (length h)) _ Hwf Hnv eq_refl
              fuel [] (h ++ [empty_object]) (holds_app _ _ _ Hsrc)) as [Hinv Hrun].
  cbn [root] in Hinv, Hrun.
  assert (Hkeys : object_keys (VRef (length h)) (h ++ [empty_object])
                  = Ret [] (h ++ [empty_object])).
  { unfold object_keys. rewrite own_props_fresh. reflexivity. }
  split.
  - intros u g. unfold bind at 1.
    destruct (buildPathToValue _ _ _ _ _ _) as [x g'| |] eqn:Hb; try discriminate.
    destruct (Hinv _ _ eq_refl) as (-> & -> & Hn).
    rewrite (bind_Ret _ _ _ _ _ Hkeys). cbn. intros [= _ <-]. auto.
  - intros Hn Hd. unfold alloc at 1. unfold bind at 1. unfold bind at 1.
    rewrite (Hrun Hn Hd).
    rewrite (bind_Ret _ _ _ _ _ Hkeys). reflexivity.
Qed.

(** *** The entry point with the defaults already installed *)

Lemma mergeDeep_supplied host fuel lo t s h :
  defaults_at lo h →
  mergeDeep host (S fuel) t s (VRef lo) h =
    if negb (bool_decide (isArray h s = isArray h t)) then Ret s h
    else if isArray h s then Ret s h
    else try_catch (mergeTargetAndSource host fuel (mergeDeep host fuel) t s (VRef lo))
           (λ _, throw merge_failure) h.
Proof.
  intros Hd. destruct (defaults_supplied _ _ Hd) as [Hg Hs].
  cbn [mergeDeep]. rewrite (bind_Ret _ _ _ _ _ (normalize_supplied _ _ Hg Hs)).
  reflexivity.
Qed.

Lemma mergeTargetAndSource_node host fuel rec t lo h ls arr sf :
  h !! ls = Some (node_obj arr sf) →
  mergeTargetAndSource host fuel rec t (VRef ls) (VRef lo) h =
    (forEach (merge_key host fuel rec t (VRef ls) (VRef lo)) (KStr <$> sf.*1) ;;! ret t) h.
Proof.
  intros Hl. unfold mergeTargetAndSource.
  rewrite (bind_Ret _ _ _ _ _ (getKeys_node _ _ _ _ Hl)). reflexivity.
Qed.

Lemma normalize_fresh_standard h :
  standard h → normalize_options VUndef h = Ret (VRef (length h)) (with_defaults h).
Proof.
  intros Hstd. pose proof (standard_length _ Hstd) as Hlen.
  assert (H0 : ObjectProto < length h) by (revert Hlen; vm_compute; lia).
  pose proof (standard_root _ Hstd) as Hroot.
  assert (Hno : ∀ name, plookup (KStr name) (own_props realm ObjectProto) = None →
                plookup (KStr name) (own_props h ObjectProto) = None).
  { intros name E. rewrite standard_own_props; [exact E|exact Hstd|vm_compute; lia]. }
  unfold normalize_options. unfold alloc at 1. unfold bind at 1.
  erewrite bind_Ret
    by (apply (install_default_fresh h [] [] "safeGet" FDefaultGet); auto).
  cbn [pinsert app].
  erewrite bind_Ret
    by (apply (install_default_fresh h [_] [_] "safeSet" FDefaultSet); auto).
  unfold ret, with_defaults, default_options. rewrite !length_app. cbn [length app].
  rewrite !Nat.add_1_r, Nat.add_succ_r, Nat.add_1_r. reflexivity.
Qed.

Lemma with_defaults_at h : defaults_at (length h) (with_defaults h).
Proof.
  unfold defaults_at, with_defaults. repeat split.
  - apply list_lookup_middle. reflexivity.
  - rewrite lookup_app_r by lia. replace (S (length h) - length h) with 1 by lia. reflexivity.
  - rewrite lookup_app_r by lia. replace (S (S (length h)) - length h) with 2 by lia.
    reflexivity.
Qed.

(** *** Merging a source that is already incorporated *)

Lemma preserved_lookup h h' l o : preserved h h' → h !! l = Some o → h' !! l = Some o.
Proof. intros Hp Hl. rewrite Hp; [exact Hl|]. eapply lookup_lt_Some, Hl. Qed.

Lemma holds_kept h h' t : holds h t → preserved h h' → holds h' t.
Proof. intros Hh Hp l o Hin. eapply preserved_lookup; [exact Hp|]. apply Hh, Hin. Qed.

Lemma isArray_plain h l tb : h !! l = Some (plain tb) → isArray h (VRef l) = false.
Proof. intros Hl. unfold isArray, kind_of. rewrite Hl. reflexivity. Qed.

Lemma merged_leaf_inv D h v x : merged D h v (HPrim x) → v = x.
Proof. inversion 1. reflexivity. Qed.

Lemma merged_inv D h v l arr fields :
  merged D h v (HNode l arr fields) →
  v = VRef l ∨
  (arr = false ∧ is_prim v = true ∧ (fields = [] ∨ is_nullish v = false) ∧
   ∀ k c, (k, c) ∈ fields → prim_accepts v (KStr k) = true) ∨
  (arr = false ∧ ∃ lt tb,
     v = VRef lt ∧ lt ∈ D ∧ h !! lt = Some (plain tb) ∧
     plookup (KStr fields_key) tb = None ∧
     ((∃ k c, (k, c) ∈ fields ∧ plookup (KStr k) tb = None ∧ inherited k = true) →
      has_null (HNode l false fields) = false) ∧
     (∀ k c, (k, c) ∈ fields →
        (plookup (KStr k) tb = None ∧ inherited k = true) ∨
        (∃ x, plookup (KStr k) tb = Some (data x) ∧ merged D h x c))).
Proof.
  inversion 1; subst.
  - left. reflexivity.
  - right. left. auto.
  - right. right. split; [reflexivity|]. eauto 10.
Qed.

Lemma merged_weaken D D' h h' s :
  (∀ l, l ∈ D → l ∈ D') →
  (∀ l o, l ∈ D → h !! l = Some o → h' !! l = Some o) →
  ∀ v, merged D h v s → merged D' h' v s.
Proof.
  intros HD Hh. induction s as [x|l arr fields IH] using ht_ind'; intros v Hm.
  - apply merged_leaf_inv in Hm. subst v. apply (merged_alias _ _ (HPrim x)).
  - apply merged_inv in Hm.
    destruct Hm as [->|[(-> & Hp & Hn & Hacc)|(-> & lt & tb & -> & Hlt & Hl & Hcf & Hu & Hc)]].
    + apply (merged_alias _ _ (HNode l arr fields)).
    + apply merged_prim; assumption.
    + eapply merged_node; [apply HD, Hlt|eapply Hh; eassumption|exact Hcf|exact Hu|].
      intros k c Hin. destruct (Hc k c Hin) as [Hl'|(x & Hx & Hm)]; [left; exact Hl'|].
      right. exists x. split; [exact Hx|]. eapply IH; eassumption.
Qed.

Lemma merged_kept D h h' v s : preserved h h' → merged D h v s → merged D h' v s.
Proof.
  intros Hp. apply merged_weaken; [auto|]. intros l o _. apply preserved_lookup, Hp.
Qed.

Lemma forEach_invariant {A} (I : heap → Prop) (f : A → M unit) ks h :
  I h →
  (∀ k g, k ∈ ks → I g → ∃ g', f k g = Ret tt g' ∧ I g') →
  ∃ g', forEach f ks h = Ret tt g' ∧ I g'.
Proof.
  revert h. induction ks as [|k ks IH]; intros h HI Hstep.
  - exists h. split; [reflexivity|exact HI].
  - destruct (Hstep k h (list_elem_of_here _ _) HI) as (g & Hk & HIg).
    destruct (IH g HIg) as (g' & Hrun & HIg').
    + intros k' g0 Hk'. apply Hstep, list_elem_of_further, Hk'.
    + exists g'. split; [|exact HIg']. cbn [forEach].
      rewrite (bind_Ret _ _ _ _ _ Hk). exact Hrun.
Qed.

Lemma fields_key_absent l arr fields :
  wf_tree (HNode l arr fields) = true →
  plookup (KStr fields_key) (node_table fields) = None.
Proof.
  intros Hwf. apply node_table_lookup_None. intros Hin.
  apply list_elem_of_fmap in Hin. destruct Hin as ([k c] & E & Hin). cbn in E. subst k.
  destruct (proj2 (wf_tree_node _ _ _ Hwf) _ _ Hin) as [Hne _]. apply Hne. reflexivity.
Qed.

(** Once a value incorporates a source tree, merging that tree into it
    again returns the same value and changes no object. *)
Lemma remerge_noop host lo s :
  wf_tree s = true → no_value_key s = true → is_node s = true →
  ∀ D v h fuel,
    standard h → defaults_at lo h → holds h s → merged D h v s → depth s < fuel →
    ∃ h', mergeDeep host fuel v (root s) (VRef lo) h = Ret v h' ∧ preserved h h'.
Proof.
  induction s as [x|l arr fields IH] using ht_ind'; intros Hwf Hnv Hnode; [discriminate|].
  intros D v h fuel Hstd Hdef Hh Hm Hfuel.
  destruct fuel as [|fuel]; [lia|].
  pose proof (holds_node _ _ _ _ Hh) as Hl.
  destruct (wf_tree_node _ _ _ Hwf) as [Hnd Hwfc].
  pose proof (no_value_key_node _ _ _ Hnv) as Hnvc.
  rewrite (mergeDeep_supplied _ _ _ _ _ _ Hdef). cbn [root].
  rewrite (isArray_node _ _ _ _ Hl).
  destruct arr.
  { apply merged_inv in Hm. destruct Hm as [->|[(E & _)|(E & _)]]; try discriminate.
    exists h. split; [|apply preserved_refl].
    destruct (negb _); reflexivity. }
  assert (Hplain : ∀ lt tb,
    h !! lt = Some (plain tb) → plookup (KStr fields_key) tb = None →
    ((∃ k c, (k, c) ∈ fields ∧ plookup (KStr k) tb = None ∧ inherited k = true) →
     has_null (HNode l false fields) = false) →
    (∀ k c, (k, c) ∈ fields →
       (plookup (KStr k) tb = None ∧ inherited k = true) ∨
       (∃ x, plookup (KStr k) tb = Some (data x) ∧ merged D h x c)) →
    ∃ h', try_catch
            (mergeTargetAndSource host fuel (mergeDeep host fuel) (VRef lt) (VRef l) (VRef lo))
            (λ _, throw merge_failure) h = Ret (VRef lt) h' ∧ preserved h h').
  { intros lt tb Hlt Hcf Hu Hc.
    destruct (forEach_invariant (preserved h)
                (merge_key host fuel (mergeDeep host fuel) (VRef lt) (VRef l) (VRef lo))
                (KStr <$> fields.*1) h (preserved_refl h)) as (g' & Hrun & Hp').
    - intros k g Hk Hp. destruct (node_key_inv _ _ Hk) as (s & c & -> & Hin).
      pose proof (standard_preserved _ _ Hstd Hp) as Hstd'.
      pose proof (defaults_preserved _ _ _ Hdef Hp) as Hdef'.
      pose proof (holds_kept _ _ _ Hh Hp) as Hh'.
      pose proof (preserved_lookup _ _ _ _ Hp Hlt) as Hlt'.
      pose proof (preserved_length _ _ Hp) as Hlen.
      destruct (Hc s c Hin) as [[Hno Hi]|(x & Hx & Hmc)].
      + destruct (merge_key_unsafe host fuel (mergeDeep host fuel) lo g l false fields s lt tb
                    Hstd' Hdef' Hh' Hwf Hnv Hlt' Hcf Hno Hi) as [_ Hrun].
        exists (g ++ [empty_object]). split.
        * apply Hrun; [|lia]. apply Hu. eauto.
        * eapply preserved_trans; [exact Hlen|exact Hp|apply preserved_app].
      + destruct (is_node c) eqn:Hc'.
        * rewrite (merge_key_own_node host fuel (mergeDeep host fuel) lo g l false fields s c
                     Hstd' Hdef' Hh' Hwf Hnv Hin lt tb Hlt' Hcf x Hx Hc').
          destruct (Hwfc s c Hin) as [_ Hwc]. destruct (Hnvc s c Hin) as [_ Hnc].
          pose proof (depth_child l false _ _ _ Hin) as Hd.
          destruct (IH s c Hin Hwc Hnc Hc' D x g fuel Hstd' Hdef'
                      (holds_child _ _ _ _ _ _ Hh' Hin) (merged_kept _ _ _ _ _ Hp Hmc))
            as (g1 & Hrec & Hp1); [lia|].
          exists g1. rewrite (bind_Ret _ _ _ _ _ Hrec).
          rewrite (store_default _ _ _ _ _ _ _ (defaults_preserved _ _ _ Hdef' Hp1)).
          split.
          -- eapply set_plain_same; [eapply preserved_lookup; [exact Hp1|exact Hlt']|exact Hx].
          -- eapply preserved_trans; [exact Hlen|exact Hp|exact Hp1].
        * assert (x = root c) as ->.
          { destruct c as [y|? ? ?]; [|discriminate]. eapply merged_leaf_inv, Hmc. }
          rewrite (merge_key_own_leaf host fuel (mergeDeep host fuel) lo g l false fields s c
                     Hstd' Hdef' Hh' Hwf Hin lt tb Hlt' Hcf (root c) Hx Hc').
          exists g. split; [|exact Hp].
          rewrite (pupdate_same _ _ _ Hx). rewrite list_insert_id by exact Hlt'. reflexivity.
    - exists g'. split; [|exact Hp']. unfold try_catch.
      rewrite (mergeTargetAndSource_node _ _ _ _ _ _ _ _ _ Hl).
      rewrite (bind_Ret _ _ _ _ _ Hrun). reflexivity. }
  apply merged_inv in Hm.
  destruct Hm as [->|[(_ & Hp & Hn & Hacc)|(_ & lt & tb & -> & Hlt & Hlt' & Hcf & Hu & Hc)]].
  - rewrite (isArray_node _ _ _ _ Hl). rewrite bool_decide_true by reflexivity. cbn [negb].
    apply (Hplain l (node_table fields)).
    + exact Hl.
    + eapply fields_key_absent, Hwf.
    + intros (k & c & Hin & Hno & _). rewrite (node_table_lookup _ _ _ Hnd Hin) in Hno.
      discriminate.
    + intros k c Hin. right. exists (root c). split; [apply node_table_lookup; assumption|].
      apply merged_alias.
  - rewrite (isArray_prim _ _ Hp). rewrite bool_decide_true by reflexivity. cbn [negb].
    exists h. split; [|apply preserved_refl]. unfold try_catch.
    rewrite (mergeTargetAndSource_node _ _ _ _ _ _ _ _ _ Hl).
    rewrite (bind_Ret _ _ _ tt h); [reflexivity|].
    apply forEach_same. intros k Hk. destruct (node_key_inv _ _ Hk) as (s & c & -> & Hin).
    rewrite (merge_key_prim host fuel (mergeDeep host fuel) lo h l false fields s c
               Hstd Hdef Hh Hwf Hin v Hp).
    rewrite (Hacc s c Hin). reflexivity.
  - rewrite (isArray_plain _ _ _ Hlt'). rewrite bool_decide_true by reflexivity. cbn [negb].
    apply (Hplain lt tb); assumption.
Qed.

(** *** Frames and the locations of a tree *)

Lemma frame_refl W h : frame W h h.
Proof. split; [lia|auto]. Qed.

Lemma frame_trans W h1 h2 h3 : frame W h1 h2 → frame W h2 h3 → frame W h1 h3.
Proof.
  intros [L1 F1] [L2 F2]. split; [lia|]. intros l Hl HW.
  rewrite F2 by (auto; lia). apply F1; assumption.
Qed.

Lemma frame_weaken W W' h h' : (∀ l, l ∈ W → l ∈ W') → frame W h h' → frame W' h h'.
Proof. intros HW [L F]. split; [exact L|]. intros l Hl Hn. apply F; auto. Qed.

Lemma frame_app W h ext : frame W h (h ++ ext).
Proof.
  split; [rewrite length_app; lia|]. intros l Hl _. apply lookup_app_l, Hl.
Qed.

Lemma frame_insert W h l o : l ∈ W → frame W h (<[l := o]> h).
Proof.
  intros HW. split; [rewrite length_insert; lia|]. intros l' Hl' Hn.
  apply list_lookup_insert_ne. intros ->. apply Hn, HW.
Qed.

Lemma frame_lookup W h h' l o : frame W h h' → l ∉ W → h !! l = Some o → h' !! l = Some o.
Proof.
  intros [_ F] Hn Hl. rewrite F; [exact Hl| |exact Hn]. eapply lookup_lt_Some, Hl.
Qed.

Lemma frame_standard W h h' :
  frame W h h' → (∀ l, l ∈ W → length realm ≤ l) → standard h → standard h'.
Proof.
  intros [L F] HW Hs l Hl. pose proof (standard_length _ Hs).
  rewrite F; [apply Hs, Hl|lia|]. intros Hin. apply HW in Hin. lia.
Qed.

Lemma frame_defaults W lo h h' :
  frame W h h' → (∀ l, l ∈ W → l < lo) → defaults_at lo h → defaults_at lo h'.
Proof.
  intros Hf HW (H0 & H1 & H2).
  assert (Hn : ∀ l, lo ≤ l → l ∉ W) by (intros l Hl Hin; apply HW in Hin; lia).
  repeat split; (eapply frame_lookup; [exact Hf|apply Hn; lia|assumption]).
Qed.

Lemma cells_locs t l o : (l, o) ∈ cells t → l ∈ locs t.
Proof. intros Hin. apply list_elem_of_fmap. exists (l, o). auto. Qed.

Lemma locs_cells t l : l ∈ locs t → ∃ o, (l, o) ∈ cells t.
Proof.
  intros Hin. apply list_elem_of_fmap in Hin. destruct Hin as ([l' o] & -> & Hin). eauto.
Qed.

Lemma frame_holds W h h' t :
  frame W h h' → (∀ l, l ∈ locs t → l ∉ W) → holds h t → holds h' t.
Proof.
  intros Hf Hn Hh l o Hin. eapply frame_lookup; [exact Hf| |apply Hh, Hin].
  eapply Hn, cells_locs, Hin.
Qed.

Lemma holds_locs_lt h t l : holds h t → l ∈ locs t → l < length h.
Proof.
  intros Hh Hin. destruct (locs_cells _ _ Hin) as [o Ho].
  eapply lookup_lt_Some, Hh, Ho.
Qed.

Lemma locs_node l arr fields :
  locs (HNode l arr fields) = l :: flat_map (λ kc, locs kc.2) fields.
Proof.
  unfold locs. cbn [cells fmap list_fmap fst]. f_equal.
  induction fields as [|[k c] fields IH]; [reflexivity|].
  cbn [flat_map snd]. rewrite fmap_app, IH. reflexivity.
Qed.

Lemma locs_flat fields k c l :
  (k, c) ∈ fields → l ∈ locs c → l ∈ flat_map (λ kc : string * ht, locs kc.2) fields.
Proof.
  intros Hin Hl. apply list_elem_of_In, in_flat_map. exists (k, c).
  split; apply list_elem_of_In; assumption.
Qed.

Lemma locs_flat_disjoint fields k1 c1 k2 c2 l :
  NoDup (flat_map (λ kc : string * ht, locs kc.2) fields) →
  (k1, c1) ∈ fields → (k2, c2) ∈ fields → k1 ≠ k2 →
  l ∈ locs c1 → l ∈ locs c2 → False.
Proof.
  induction fields as [|[k0 c0] fields IH]; intros Hnd H1 H2 Hne Hl1 Hl2; [inversion H1|].
  cbn [flat_map snd] in Hnd. apply NoDup_app in Hnd. destruct Hnd as (_ & Hdis & Hnd).
  apply elem_of_cons in H1. apply elem_of_cons in H2.
  destruct H1 as [E1|H1], H2 as [E2|H2].
  - congruence.
  - injection E1 as -> ->. eapply Hdis; [exact Hl1|]. eapply locs_flat; eassumption.
  - injection E2 as -> ->. eapply Hdis; [exact Hl2|]. eapply locs_flat; eassumption.
  - eapply IH; eassumption.
Qed.

Lemma locs_flat_NoDup fields k c :
  NoDup (flat_map (λ kc : string * ht, locs kc.2) fields) → (k, c) ∈ fields → NoDup (locs c).
Proof.
  induction fields as [|[k0 c0] fields IH]; intros Hnd Hin; [inversion Hin|].
  cbn [flat_map snd] in Hnd. apply NoDup_app in Hnd. destruct Hnd as (Hc0 & _ & Hnd).
  apply elem_of_cons in Hin. destruct Hin as [E|Hin].
  - injection E as -> ->. exact Hc0.
  - apply IH; assumption.
Qed.

Lemma locs_NoDup_child l arr fields k c :
  NoDup (locs (HNode l arr fields)) → (k, c) ∈ fields → NoDup (locs c).
Proof.
  rewrite locs_node. intros Hnd%NoDup_cons Hin. eapply locs_flat_NoDup; [apply Hnd|exact Hin].
Qed.

Lemma locs_root_fresh l arr fields k c :
  NoDup (locs (HNode l arr fields)) → (k, c) ∈ fields → l ∉ locs c.
Proof.
  rewrite locs_node. intros Hnd%NoDup_cons Hin Hl. destruct Hnd as [Hn _].
  apply Hn. eapply locs_flat; eassumption.
Qed.

Lemma locs_disjoint l arr fields k1 c1 k2 c2 x :
  NoDup (locs (HNode l arr fields)) →
  (k1, c1) ∈ fields → (k2, c2) ∈ fields → k1 ≠ k2 →
  x ∈ locs c1 → x ∉ locs c2.
Proof.
  rewrite locs_node. intros Hnd%NoDup_cons H1 H2 Hne Hx1 Hx2.
  eapply locs_flat_disjoint; [apply Hnd|exact H1|exact H2|exact Hne|exact Hx1|exact Hx2].
Qed.

Lemma locs_root l arr fields : l ∈ locs (HNode l arr fields).
Proof. rewrite locs_node. apply list_elem_of_here. Qed.

Lemma plookup_pupdate_eq k p ps p0 :
  plookup k ps = Some p0 → plookup k (pupdate k p ps) = Some p.
Proof.
  induction ps as [|[k0 q] ps IH]; simpl; [discriminate|].
  destruct (decide (k = k0)) as [->|Hne]; simpl.
  - intros _. rewrite decide_True by reflexivity. reflexivity.
  - rewrite decide_False by exact Hne. exact IH.
Qed.

Lemma plookup_pupdate_ne k p ps k' : k' ≠ k → plookup k' (pupdate k p ps) = plookup k' ps.
Proof.
  intros Hne. induction ps as [|[k0 q] ps IH]; simpl; [reflexivity|].
  destruct (decide (k = k0)) as [->|Hk]; simpl.
  - rewrite !decide_False by exact Hne. reflexivity.
  - destruct (decide (k' = k0)); [reflexivity|exact IH].
Qed.

(** *** The first merge, key by key *)

Section MergeState.

Variables (h : heap) (lt : loc) (tf : list (string * ht)).
Variables (ls : loc) (sf : list (string * ht)) (nulls : bool).
Hypothesis HwT : wf_tree (HNode lt false tf) = true.
Hypothesis HwS : wf_tree (HNode ls false sf) = true.
Hypothesis HhT : holds h (HNode lt false tf).
Hypothesis HndT : NoDup (locs (HNode lt false tf)).

Lemma merging_start : merging h lt tf sf nulls [] h.
Proof.
  split; [apply frame_refl|]. exists (node_table tf).
  split; [apply (holds_node _ _ _ _ HhT)|].
  split; [eapply fields_key_absent, HwT|].
  split; [intros k c _ Hin; inversion Hin|]. auto.
Qed.

Lemma merging_write seen s c g g1 tb x D W tb' :
  (s, c) ∈ sf → KStr s ∉ seen →
  merging h lt tf sf nulls seen g →
  g !! lt = Some (plain tb) →
  frame W g g1 → (∀ l, l ∈ W → ∃ t, (s, t) ∈ tf ∧ l ∈ locs t) →
  merged D g1 x c → (∀ l, l ∈ D → ∃ t, (s, t) ∈ tf ∧ l ∈ locs t) →
  plookup (KStr s) tb' = Some (data x) →
  (∀ k', k' ≠ KStr s → plookup k' tb' = plookup k' tb) →
  merging h lt tf sf nulls (seen ++ [KStr s]) (<[lt := plain tb']> g1).
Proof.
  intros Hin Hnew (Hf & tb0 & Hlt0 & Hcf & Hseen & Hun & Hsub) Hlt HfW HW Hm HD Hs Hother.
  rewrite Hlt in Hlt0. injection Hlt0 as <-.
  destruct (wf_tree_node _ _ _ HwS) as [HndS HwSc].
  assert (HWT : ∀ l, l ∈ W → l ∈ locs (HNode lt false tf)).
  { intros l Hl. destruct (HW l Hl) as (t & Ht & Hlt'). eapply locs_child; eassumption. }
  assert (HltW : lt ∉ W).
  { intros Hl. destruct (HW _ Hl) as (t & Ht & Hlt').
    eapply locs_root_fresh; [exact HndT|exact Ht|exact Hlt']. }
  assert (Hlen : length g ≤ length g1) by apply HfW.
  assert (Hltg : lt < length g) by (eapply lookup_lt_Some, Hlt).
  assert (Hkeep : ∀ k t l o, (k, t) ∈ tf → k ≠ s → l ∈ locs t →
            g !! l = Some o → (<[lt := plain tb']> g1) !! l = Some o).
  { intros k t l o Ht Hne Hl Ho. rewrite list_lookup_insert_ne.
    - eapply frame_lookup; [exact HfW| |exact Ho]. intros Hl'.
      destruct (HW _ Hl') as (t' & Ht' & Hlt').
      eapply locs_disjoint; [exact HndT|exact Ht|exact Ht'|exact Hne|exact Hl|exact Hlt'].
    - intros <-. eapply locs_root_fresh; [exact HndT|exact Ht|exact Hl]. }
  split.
  { eapply frame_trans; [exact Hf|]. eapply frame_trans.
    - eapply frame_weaken; [exact HWT|exact HfW].
    - apply frame_insert, locs_root. }
  exists tb'. split; [apply list_lookup_insert_eq; lia|]. split.
  { rewrite Hother; [exact Hcf|]. intros [= E].
    destruct (HwSc _ _ Hin) as [Hne _]. apply Hne. symmetry. exact E. }
  split; [|split].
  - intros k c' Hin' Hk. apply elem_of_app in Hk. destruct Hk as [Hk|Hk].
    + assert (Hne : k ≠ s) by (intros ->; apply Hnew, Hk).
      assert (Hne' : KStr k ≠ KStr s) by (intros [= E]; apply Hne, E).
      destruct (Hseen k c' Hin' Hk) as [(Hno & Hi & Hn)|(x0 & D0 & Hx0 & Hm0 & HD0)].
      * left. rewrite Hother by exact Hne'. auto.
      * right. exists x0, D0. rewrite Hother by exact Hne'. split; [exact Hx0|].
        split; [|exact HD0]. eapply merged_weaken; [| |exact Hm0]; [auto|].
        intros l o Hl Ho. destruct (HD0 l Hl) as (t & Ht & Hlt').
        eapply Hkeep; eassumption.
    + apply list_elem_of_singleton in Hk. injection Hk as ->.
      rewrite (fields_functional _ _ _ _ HndS Hin' Hin).
      right. exists x, D. split; [exact Hs|]. split; [|exact HD].
      eapply merged_weaken; [| |exact Hm]; [auto|].
      intros l o Hl Ho. rewrite list_lookup_insert_ne; [exact Ho|].
      intros <-. destruct (HD _ Hl) as (t & Ht & Hlt').
      eapply locs_root_fresh; [exact HndT|exact Ht|exact Hlt'].
  - intros k Hk. rewrite Hother; [apply Hun|].
    + intros Hk'. apply Hk, elem_of_app. left. exact Hk'.
    + intros [= ->]. apply Hk, elem_of_app. right. apply list_elem_of_here.
  - intros k t l Ht Hk Hl.
    assert (Hks : KStr k ∉ seen) by (intros Hk'; apply Hk, elem_of_app; left; exact Hk').
    assert (Hne : k ≠ s).
    { intros ->. apply Hk, elem_of_app. right. apply list_elem_of_here. }
    pose proof (Hsub k t l Ht Hks Hl) as E.
    destruct (locs_cells _ _ Hl) as [o Ho].
    pose proof (HhT _ _ (cells_child lt false _ _ _ _ Ht Ho)) as Hh.
    rewrite Hh. eapply Hkeep; [exact Ht|exact Hne|exact Hl|]. rewrite E. exact Hh.
Qed.

Lemma merging_skip seen s c g tb ext :
  (s, c) ∈ sf → KStr s ∉ seen →
  merging h lt tf sf nulls seen g →
  g !! lt = Some (plain tb) →
  plookup (KStr s) tb = None → inherited s = true → nulls = false →
  merging h lt tf sf nulls (seen ++ [KStr s]) (g ++ ext).
Proof.
  intros Hin Hnew (Hf & tb0 & Hlt0 & Hcf & Hseen & Hun & Hsub) Hlt Hno Hi Hn.
  rewrite Hlt in Hlt0. injection Hlt0 as <-.
  destruct (wf_tree_node _ _ _ HwS) as [HndS HwSc].
  split; [eapply frame_trans; [exact Hf|apply frame_app]|].
  exists tb. split; [apply lookup_app_l_Some, Hlt|]. split; [exact Hcf|].
  split; [|split].
  - intros k c' Hin' Hk. apply elem_of_app in Hk. destruct Hk as [Hk|Hk].
    + destruct (Hseen k c' Hin' Hk) as [Hl|(x0 & D0 & Hx0 & Hm0 & HD0)]; [left; exact Hl|].
      right. exists x0, D0. split; [exact Hx0|]. split; [|exact HD0].
      eapply merged_kept; [apply preserved_app|exact Hm0].
    + apply list_elem_of_singleton in Hk. injection Hk as ->. left. auto.
  - intros k Hk. apply Hun. intros Hk'. apply Hk, elem_of_app. left. exact Hk'.
  - intros k t l Ht Hk Hl.
    assert (Hks : KStr k ∉ seen) by (intros Hk'; apply Hk, elem_of_app; left; exact Hk').
    rewrite <- (Hsub k t l Ht Hks Hl). apply lookup_app_l.
    destruct Hf as [Hlen _]. eapply Nat.lt_le_trans; [|exact Hlen].
    eapply holds_locs_lt; [exact HhT|]. eapply locs_child; eassumption.
Qed.

Lemma merging_finish g :
  nulls = has_null (HNode ls false sf) →
  merging h lt tf sf nulls (KStr <$> sf.*1) g →
  merged (locs (HNode lt false tf)) g (VRef lt) (HNode ls false sf) ∧
  frame (locs (HNode lt false tf)) h g.
Proof.
  intros Hnulls (Hf & tb & Hlt & Hcf & Hseen & _ & _). split; [|exact Hf].
  eapply merged_node; [apply locs_root|exact Hlt|exact Hcf| |].
  - intros (k & c & Hin & Hno & Hi).
    destruct (Hseen k c Hin (node_key_intro _ _ _ Hin)) as [(_ & _ & Hn)|(x & D & Hx & _)].
    + rewrite <- Hnulls. exact Hn.
    + rewrite Hx in Hno. discriminate.
  - intros k c Hin.
    destruct (Hseen k c Hin (node_key_intro _ _ _ Hin))
      as [(Hno & Hi & _)|(x & D & Hx & Hm & HD)]; [left; auto|].
    right. exists x. split; [exact Hx|]. eapply merged_weaken; [| |exact Hm]; [|auto].
    intros l Hl. destruct (HD l Hl) as (t & Ht & Hlt'). eapply locs_child; eassumption.
Qed.

End MergeState.

Lemma forEach_prefix {A} (I : list A → heap → Prop) (f : A → M unit) ks h u h' :
  I [] h →
  (∀ pre k post g u' g',
     ks = pre ++ k :: post → I pre g → f k g = Ret u' g' → I (pre ++ [k]) g') →
  forEach f ks h = Ret u h' → I ks h'.
Proof.
  intros H0 Hstep.
  assert (Hgen : ∀ rest pre g,
    ks = pre ++ rest → I pre g → forEach f rest g = Ret u h' → I ks h').
  { induction rest as [|k rest IH]; intros pre g E HI Hrun.
    - cbn [forEach] in Hrun. injection Hrun as _ <-. rewrite E, app_nil_r. exact HI.
    - cbn [forEach] in Hrun. unfold bind at 1 in Hrun.
      destruct (f k g) as [u' g1| |] eqn:Hk; try discriminate.
      apply (IH (pre ++ [k]) g1); [rewrite <- app_assoc; exact E| |exact Hrun].
      eapply Hstep; eassumption. }
  apply (Hgen ks [] h); [reflexivity|exact H0].
Qed.

Lemma node_keys_NoDup (fields : list (string * ht)) :
  NoDup fields.*1 → NoDup (KStr <$> fields.*1).
Proof.
  intros Hnd. apply NoDup_fmap_2_strong; [|exact Hnd].
  intros a b _ _ [= E]. exact E.
Qed.

(** The first merge of a source tree into a separate target tree: the
    result incorporates the source, and only the target's objects were
    written. *)
Lemma first_merge host lo s :
  wf_tree s = true → no_value_key s = true → is_node s = true →
  ∀ t h fuel v h1,
    standard h → defaults_at lo h → wf_tree t = true →
    holds h t → holds h s → NoDup (locs t) →
    (∀ l, l ∈ locs t → length realm ≤ l < lo ∧ l ∉ locs s) →
    mergeDeep host fuel (root t) (root s) (VRef lo) h = Ret v h1 →
    merged (locs t) h1 v s ∧ frame (locs t) h h1.
Proof.
  induction s as [x|ls arr sf IH] using ht_ind'; intros Hws Hnv Hnode; [discriminate|].
  intros t h fuel v h1 Hstd Hdef Hwt Hht Hhs HndT Hloc.
  destruct fuel as [|fuel]; [discriminate|].
  pose proof (holds_node _ _ _ _ Hhs) as Hls.
  destruct (wf_tree_node _ _ _ Hws) as [HndS HwSc].
  pose proof (no_value_key_node _ _ _ Hnv) as HnvSc.
  rewrite (mergeDeep_supplied _ _ _ _ _ _ Hdef). cbn [root].
  rewrite (isArray_node _ _ _ _ Hls).
  destruct arr.
  { destruct (negb _); intros [= <- <-];
      (split; [apply (merged_alias _ _ (HNode ls true sf))|apply frame_refl]). }
  destruct t as [x|lt tarr tf]; cbn [root].
  - cbn [wf_tree] in Hwt. rewrite (isArray_prim _ _ Hwt).
    rewrite bool_decide_true by reflexivity. cbn [negb].
    unfold try_catch. rewrite (mergeTargetAndSource_node _ _ _ _ _ _ _ _ _ Hls).
    unfold bind at 1.
    destruct (forEach _ _ h) as [u g| |] eqn:Hrun; try discriminate.
    intros [= <- <-].
    apply (forEach_inv _ (λ k, prim_accepts x k = true)) in Hrun.
    + destruct Hrun as [-> HQ]. split; [|apply frame_refl].
      apply merged_prim; [exact Hwt| |].
      * destruct sf as [|[k c] sf']; [left; reflexivity|right].
        pose proof (HQ (KStr k) (node_key_intro _ k c (list_elem_of_here _ _))) as Ha.
        unfold prim_accepts in Ha. apply andb_true_iff in Ha.
        destruct Ha as [Ha _]. destruct (is_nullish x); [discriminate|reflexivity].
      * intros k c Hin. eapply HQ, node_key_intro, Hin.
    + intros k u' g' Hk. destruct (node_key_inv _ _ Hk) as (s & c & -> & Hin).
      rewrite (merge_key_prim host fuel (mergeDeep host fuel) lo h ls false sf s c
                 Hstd Hdef Hhs Hws Hin x Hwt).
      destruct (prim_accepts x (KStr s)); [|discriminate]. intros [= _ <-]. auto.
  - pose proof (holds_node _ _ _ _ Hht) as Hlt0.
    rewrite (isArray_node _ _ _ _ Hlt0).
    destruct tarr.
    { rewrite bool_decide_false by discriminate. cbn [negb]. intros [= <- <-].
      split; [apply (merged_alias _ _ (HNode ls false sf))|apply frame_refl]. }
    rewrite bool_decide_true by reflexivity. cbn [negb].
    unfold try_catch. rewrite (mergeTargetAndSource_node _ _ _ _ _ _ _ _ _ Hls).
    unfold bind at 1.
    destruct (forEach _ _ h) as [u g| |] eqn:Hrun; try discriminate.
    intros [= <- <-].
    destruct (wf_tree_node _ _ _ Hwt) as [HndTk HwTc].
    eapply (merging_finish h lt tf ls sf (has_null (HNode ls false sf))); [reflexivity|].
    eapply (forEach_prefix (merging h lt tf sf (has_null (HNode ls false sf))));
      [apply merging_start; assumption| |exact Hrun].
    intros pre k post g0 u' g' Eks HI Hk.
    assert (Hkin : k ∈ KStr <$> sf.*1).
    { rewrite Eks. apply elem_of_app. right. apply list_elem_of_here. }
    assert (Hnew : k ∉ pre).
    { pose proof (node_keys_NoDup _ HndS) as Hnd. rewrite Eks in Hnd.
      apply NoDup_app in Hnd. destruct Hnd as (_ & Hdis & _).
      intros Hpre. eapply Hdis; [exact Hpre|apply list_elem_of_here]. }
    destruct (node_key_inv _ _ Hkin) as (s & c & -> & Hin).
    destruct (HwSc s c Hin) as [Hsne Hwc]. destruct (HnvSc s c Hin) as [_ Hnc].
    pose proof HI as (Hf & tb & Hlt & Hcf & Hseen & Hun & Hsub).
    assert (HlocT : ∀ l, l ∈ locs (HNode lt false tf) → length realm ≤ l)
      by (intros l Hl; apply Hloc in Hl; lia).
    assert (HlocT' : ∀ l, l ∈ locs (HNode lt false tf) → l < lo)
      by (intros l Hl; apply Hloc in Hl; lia).
    pose proof (frame_standard _ _ _ Hf HlocT Hstd) as Hstd'.
    pose proof (frame_defaults _ _ _ _ Hf HlocT' Hdef) as Hdef'.
    assert (Hhs' : holds g0 (HNode ls false sf)).
    { eapply frame_holds; [exact Hf| |exact Hhs]. intros l Hl HlT.
      apply Hloc in HlT. apply HlT, Hl. }
    pose proof (Hun s Hnew) as Hts.
    destruct (plookup (KStr s) (node_table tf)) as [p|] eqn:Htf.
    + apply node_table_lookup_inv in Htf. destruct Htf as (t' & Ht' & ->).
      destruct (is_node c) eqn:Hc.
      * rewrite (merge_key_own_node host fuel (mergeDeep host fuel) lo g0 ls false sf s c
                   Hstd' Hdef' Hhs' Hws Hnv Hin lt tb Hlt Hcf (root t') Hts Hc) in Hk.
        unfold bind at 1 in Hk.
        destruct (mergeDeep host fuel (root t') (root c) (VRef lo) g0)
          as [m g1| |] eqn:Hrec; try discriminate.
        assert (Hht' : holds g0 t').
        { eapply holds_preserved; [eapply holds_child; [exact Hht|exact Ht']|].
          intros l Hl. eapply Hsub; eassumption. }
        destruct (IH s c Hin Hwc Hnc Hc t' g0 fuel m g1 Hstd' Hdef'
                    (proj2 (HwTc _ _ Ht')) Hht' (holds_child _ _ _ _ _ _ Hhs' Hin)
                    (locs_NoDup_child _ _ _ _ _ HndT Ht')) as [Hm Hf1]; [|exact Hrec|].
        { intros l Hl. pose proof (locs_child lt false _ _ _ _ Ht' Hl) as HlT.
          apply Hloc in HlT. split; [lia|]. intros Hlc. apply HlT.
          eapply locs_child; eassumption. }
        assert (Hdef1 : defaults_at lo g1).
        { eapply frame_defaults; [exact Hf1| |exact Hdef']. intros l Hl.
          apply HlocT'. eapply locs_child; eassumption. }
        assert (Hlt1 : g1 !! lt = Some (plain tb)).
        { eapply frame_lookup; [exact Hf1| |exact Hlt].
          eapply locs_root_fresh; [exact HndT|exact Ht']. }
        rewrite (store_default _ _ _ _ _ _ _ Hdef1) in Hk.
        rewrite (set_plain_own _ _ _ _ _ _ Hlt1 Hts) in Hk. injection Hk as _ <-.
        eapply (merging_write h lt tf ls sf _ Hws Hht HndT) with (W := locs t') (D := locs t');
          [exact Hin|exact Hnew|exact HI|exact Hlt|exact Hf1| |exact Hm| | |].
        -- intros l Hl. eauto.
        -- intros l Hl. eauto.
        -- eapply plookup_pupdate_eq, Hts.
        -- intros k' Hk'. apply plookup_pupdate_ne, Hk'.
      * rewrite (merge_key_own_leaf host fuel (mergeDeep host fuel) lo g0 ls false sf s c
                   Hstd' Hdef' Hhs' Hws Hin lt tb Hlt Hcf (root t') Hts Hc) in Hk.
        injection Hk as _ <-.
        eapply (merging_write h lt tf ls sf _ Hws Hht HndT) with (W := []) (D := []);
          [exact Hin|exact Hnew|exact HI|exact Hlt|apply frame_refl| |apply merged_alias| | |].
        -- intros l Hl. inversion Hl.
        -- intros l Hl. inversion Hl.
        -- eapply plookup_pupdate_eq, Hts.
        -- intros k' Hk'. apply plookup_pupdate_ne, Hk'.
    + destruct (inherited s) eqn:Hi.
      * destruct (merge_key_unsafe host fuel (mergeDeep host fuel) lo g0 ls false sf s lt tb
                    Hstd' Hdef' Hhs' Hws Hnv Hlt Hcf Hts Hi) as [Hinv _].
        destruct (Hinv _ _ Hk) as [-> Hn].
        eapply merging_skip; eassumption.
      * rewrite (merge_key_absent host fuel (mergeDeep host fuel) lo g0 ls false sf s c
                   Hstd' Hdef' Hhs' Hws Hin lt tb Hlt Hcf Hts Hi) in Hk.
        injection Hk as _ <-.
        eapply (merging_write h lt tf ls sf _ Hws Hht HndT) with (W := []) (D := []);
          [exact Hin|exact Hnew|exact HI|exact Hlt|apply frame_refl| |apply merged_alias| | |].
        -- intros l Hl. inversion Hl.
        -- intros l Hl. inversion Hl.
        -- apply plookup_pinsert_eq, Hts.
        -- intros k' Hk'. apply plookup_pinsert_ne, Hk'.
Qed.

(** *** Idempotence on plain data *)

Lemma mergeDeep_fresh host fuel t s h :
  standard h →
  mergeDeep host (S fuel) t s VUndef h =
  mergeDeep host (S fuel) t s (VRef (length h)) (with_defaults h).
Proof.
  intros Hstd. rewrite (mergeDeep_supplied _ _ _ _ _ _ (with_defaults_at h)).
  cbn [mergeDeep]. rewrite (bind_Ret _ _ _ _ _ (normalize_fresh_standard _ Hstd)).
  reflexivity.
Qed.

(** C8, amended: for a target and a source that are plain JSON-like data
    (extensible objects and arrays whose properties are writable,
    enumerable data properties with primitive leaves, as a structural
    clone produces them), held in separate objects outside the built-ins,
    where the source is an object or array that owns no [value] key
    anywhere and no key is named [constructor.fields]: whenever
    [mergeDeep(target, source)] returns [v], merging the same source into
    [v] again returns [v] itself and leaves every existing object as the
    first merge left it; each call only allocates its own [options] and
    scratch objects. *)
Theorem C8_remerging_plain_data_is_a_noop host t s fuel h v h1 :
  standard h →
  wf_tree t = true → wf_tree s = true → no_value_key s = true → is_node s = true →
  holds h t → holds h s → NoDup (locs t) →
  (∀ l, l ∈ locs t → length realm ≤ l ∧ l ∉ locs s) →
  mergeDeep host fuel (root t) (root s) VUndef h = Ret v h1 →
  ∀ fuel', depth s < fuel' →
    ∃ h2, mergeDeep host fuel' v (root s) VUndef h1 = Ret v h2 ∧ preserved h1 h2.
Proof.
  intros Hstd Hwt Hws Hnv Hnode Hht Hhs Hnd Hloc Hrun fuel' Hfuel.
  destruct fuel as [|fuel]; [discriminate|].
  rewrite (mergeDeep_fresh _ _ _ _ _ Hstd) in Hrun.
  pose proof (preserved_app h
    [default_options (length h); function_object FDefaultGet; function_object FDefaultSet])
    as Hp0.
  fold (with_defaults h) in Hp0.
  pose proof (standard_preserved _ _ Hstd Hp0) as Hstd0.
  destruct (first_merge host (length h) s Hws Hnv Hnode t (with_defaults h) (S fuel) v h1
              Hstd0 (with_defaults_at h) Hwt (holds_kept _ _ _ Hht Hp0)
              (holds_kept _ _ _ Hhs Hp0) Hnd) as [Hm Hf]; [|exact Hrun|].
  { intros l Hl. destruct (Hloc l Hl) as [Hlow Hsep].
    pose proof (holds_locs_lt _ _ _ Hht Hl). auto. }
  assert (Hstd1 : standard h1).
  { eapply frame_standard; [exact Hf| |exact Hstd0]. intros l Hl. apply Hloc, Hl. }
  assert (Hhs1 : holds h1 s).
  { eapply frame_holds; [exact Hf| |exact (holds_kept _ _ _ Hhs Hp0)].
    intros l Hl HlT. apply (proj2 (Hloc l HlT)), Hl. }
  destruct fuel' as [|fuel']; [lia|].
  rewrite (mergeDeep_fresh _ _ _ _ _ Hstd1).
  pose proof (preserved_app h1
    [default_options (length h1); function_object FDefaultGet; function_object FDefaultSet])
    as Hp1.
  fold (with_defaults h1) in Hp1.
  destruct (remerge_noop host (length h1) s Hws Hnv Hnode (locs t) v (with_defaults h1)
              (S fuel') (standard_preserved _ _ Hstd1 Hp1) (with_defaults_at h1)
              (holds_kept _ _ _ Hhs1 Hp1) (merged_kept _ _ _ _ _ Hp1 Hm) Hfuel)
    as (h2 & Hrun2 & Hp2).
  exists h2. split; [exact Hrun2|].
  eapply preserved_trans; [|exact Hp1|exact Hp2].
  unfold with_defaults. rewrite length_app. lia.
Qed.

Lemma C8_witness :
  ∃ h1,
    mergeDeep no_host 3 (root target_tree) (root source_tree) VUndef tree_heap
    = Ret (VRef 13) h1 ∧
    own_of h1 (VRef 13) (KStr "c") = Some (data (VRef 17)) ∧
    own_of h1 (VRef 14) (KStr "y") = Some (data (VNum 3)) ∧
    own_of h1 (VRef 13) (KStr "toString") = None ∧
    ∃ h2, mergeDeep no_host 3 (VRef 13) (root source_tree) VUndef h1 = Ret (VRef 13) h2 ∧
          preserved h1 h2.
Proof.
  eexists. split; [vm_compute; reflexivity|].
  split; [vm_compute; reflexivity|]. split; [vm_compute; reflexivity|].
  split; [vm_compute; reflexivity|].
  apply (C8_remerging_plain_data_is_a_noop no_host target_tree source_tree 3 tree_heap).
  - unfold tree_heap. apply (standard_preserved realm); [apply standard_realm|].
    apply preserved_app.
  - vm_compute. reflexivity.
  - vm_compute. reflexivity.
  - vm_compute. reflexivity.
  - reflexivity.
  - intros l o Hin. cbn in Hin.
    repeat (apply elem_of_cons in Hin; destruct Hin as [E|Hin];
            [injection E as -> ->; reflexivity|]).
    inversion Hin.
  - intros l o Hin. cbn in Hin.
    repeat (apply elem_of_cons in Hin; destruct Hin as [E|Hin];
            [injection E as -> ->; reflexivity|]).
    inversion Hin.
  - apply (bool_decide_unpack _). vm_compute. exact I.
  - intros l Hl. cbn in Hl.
    repeat (apply elem_of_cons in Hl; destruct Hl as [->|Hl];
            [split; [vm_compute; lia|apply (bool_decide_unpack _); vm_compute; exact I]|]).
    inversion Hl.
  - vm_compute. reflexivity.
  - vm_compute. lia.
Defined.

(** * Further properties of the entry point *)

Lemma mergeTargetAndSource_returns_target host fuel rec target source options h v h1 :
  mergeTargetAndSource host fuel rec target source options h = Ret v h1 → v = target.
Proof.
  unfold mergeTargetAndSource, bind, ret.
  destruct (getKeys source h) as [ks g| |]; try discriminate.
  destruct (forEach _ ks g) as [u g'| |]; try discriminate.
  intros [= <- _]. reflexivity.
Qed.

(** X1: [mergeDeep] never builds its result: whatever the arguments, the
    accessors and the state of the heap, a call that returns hands back
    its [target] or its [source], the very value it was given. *)
Theorem X1_mergeDeep_returns_an_argument host fuel target source options h v h1 :
  mergeDeep host fuel target source options h = Ret v h1 →
  v = target ∨ v = source.
Proof.
  destruct fuel as [|fuel]; [discriminate|]. cbn [mergeDeep]. unfold bind at 1.
  destruct (normalize_options options h) as [opts g| |]; try discriminate.
  destruct (negb _); [intros [= <- _]; right; reflexivity|].
  destruct (isArray g source); [intros [= <- _]; right; reflexivity|].
  unfold try_catch.
  destruct (mergeTargetAndSource _ _ _ _ _ _ _) as [v' g'| |] eqn:Hrun; try discriminate.
  intros [= <- _]. left. eapply mergeTargetAndSource_returns_target, Hrun.
Qed.

Lemma X1_witness :
  ∃ h', mergeDeep no_host 3 (VRef 13) (VRef 15) VUndef pollution_heap = Ret (VRef 13) h' ∧
        (VRef 13 = VRef 13 ∨ VRef 13 = VRef 15).
Proof.
  eexists. split; [vm_compute; reflexivity|].
  eapply (X1_mergeDeep_returns_an_argument no_host 3 (VRef 13) (VRef 15) VUndef pollution_heap).
  vm_compute. reflexivity.
Defined.

Lemma mergeDeep_object_fresh host fuel target source h :
  standard h →
  value_ok (length h) target = true → value_ok (length h) source = true →
  isArray h target = false → isArray h source = false →
  mergeDeep host (S fuel) target source VUndef h =
    try_catch
      (mergeTargetAndSource host fuel (mergeDeep host fuel) target source (VRef (length h)))
      (λ _, throw merge_failure) (with_defaults h).
Proof.
  intros Hstd Ht Hs Hta Hsa. rewrite (mergeDeep_fresh _ _ _ _ _ Hstd).
  rewrite (mergeDeep_supplied _ _ _ _ _ _ (with_defaults_at h)).
  unfold with_defaults. rewrite !isArray_app by assumption. rewrite Hta, Hsa. reflexivity.
Qed.

Lemma enumerable_keys_none b ps :
  forallb (λ kp : key * prop, negb (is_enumerable kp.2)) ps = true →
  enumerable_keys b ps = [].
Proof.
  intros H. unfold enumerable_keys. induction ps as [|[k p] ps IH]; [reflexivity|].
  cbn [forallb snd] in H. apply andb_true_iff in H. destruct H as [Hp Hps].
  rewrite filter_cons. cbn [snd fst]. apply negb_true_iff in Hp. rewrite Hp. cbn [andb].
  rewrite decide_False by (intros []). apply IH, Hps.
Qed.

Lemma getKeys_keyless h ext v :
  keyless h v = true → getKeys v (h ++ ext) = Ret [] (h ++ ext).
Proof.
  intros Hk. unfold getKeys, object_keys, getEnumerableOwnPropertySymbols, bind, ret.
  destruct v as [| |b|z|s|n|l]; try discriminate; try reflexivity.
  - cbn [keyless] in Hk. apply bool_decide_eq_true in Hk. subst s. reflexivity.
  - cbn [keyless] in Hk. rewrite !andb_true_iff, Nat.ltb_lt in Hk.
    destruct Hk as [[Hl _] Hps]. rewrite (own_props_app _ _ _ Hl).
    rewrite !(enumerable_keys_none _ _ Hps). reflexivity.
Qed.

Lemma keyless_not_array h v : keyless h v = true → isArray h v = false ∧ value_ok (length h) v = true.
Proof.
  destruct v; try discriminate; try (intros; split; reflexivity).
  cbn [keyless value_ok]. rewrite !andb_true_iff, negb_true_iff. tauto.
Qed.

(** X2: a source that offers no key (a number, a boolean, a symbol, the
    empty string, an object without enumerable own properties) merges to
    nothing: for any target other than an array, [null] and [undefined]
    included, the call returns the target and its only trace is the
    [options] object it created for itself. *)
Theorem X2_keyless_source_returns_target host fuel h target source :
  standard h →
  value_ok (length h) target = true →
  isArray h target = false →
  keyless h source = true →
  mergeDeep host (S fuel) target source VUndef h = Ret target (with_defaults h).
Proof.
  intros Hstd Ht Hta Hk. destruct (keyless_not_array _ _ Hk) as [Hsa Hs].
  rewrite (mergeDeep_object_fresh _ _ _ _ _ Hstd Ht Hs Hta Hsa).
  unfold try_catch, mergeTargetAndSource, with_defaults.
  rewrite (bind_Ret _ _ _ _ _ (getKeys_keyless _ _ _ Hk)). reflexivity.
Qed.

Lemma X2_witness :
  mergeDeep no_host 1 VNull (VRef 5) VUndef realm = Ret VNull (with_defaults realm) ∧
  mergeDeep no_host 1 (VRef 5) (VNum 7) VUndef realm = Ret (VRef 5) (with_defaults realm).
Proof.
  split.
  - apply (X2_keyless_source_returns_target no_host 0 realm VNull (VRef 5));
      [apply standard_realm|reflexivity|reflexivity|vm_compute; reflexivity].
  - apply (X2_keyless_source_returns_target no_host 0 realm (VRef 5) (VNum 7));
      [apply standard_realm|vm_compute; reflexivity|reflexivity|reflexivity].
Defined.

(** X3: [null] or [undefined] as source of an object merge is a failure:
    for any target other than an array, listing the source's keys throws
    and the call ends in the generic failure, with nothing written beyond
    the call's own [options]. *)
Theorem X3_nullish_source_fails host fuel h target source :
  standard h →
  value_ok (length h) target = true →
  isArray h target = false →
  is_nullish source = true →
  mergeDeep host (S fuel) target source VUndef h = Throw merge_failure (with_defaults h).
Proof.
  intros Hstd Ht Hta Hn.
  assert (Hs : value_ok (length h) source = true ∧ isArray h source = false)
    by (destruct source; try discriminate; split; reflexivity).
  destruct Hs as [Hs Hsa].
  rewrite (mergeDeep_object_fresh _ _ _ _ _ Hstd Ht Hs Hta Hsa).
  unfold try_catch, mergeTargetAndSource, getKeys, bind, object_keys.
  destruct source; try discriminate; reflexivity.
Qed.

Lemma X3_witness :
  mergeDeep no_host 1 (VRef 5) VUndef VUndef realm = Throw merge_failure (with_defaults realm) ∧
  mergeDeep no_host 1 (VNum 0) VNull VUndef realm = Throw merge_failure (with_defaults realm).
Proof.
  split.
  - apply (X3_nullish_source_fails no_host 0 realm (VRef 5) VUndef);
      [apply standard_realm|vm_compute; reflexivity|reflexivity|reflexivity].
  - apply (X3_nullish_source_fails no_host 0 realm (VNum 0) VNull);
      [apply standard_realm|reflexivity|reflexivity|reflexivity].
Defined.

Ltac realm_props b :=
  let ps := eval vm_compute in (own_props realm b) in
  change (own_props realm b) with ps; cbn [plookup].

Lemma object_prototype_accessor k :
  plookup (KStr k) (own_props realm ObjectProto) = Some PProtoAccessor → k = "__proto__".
Proof.
  realm_props ObjectProto. repeat case_decide; try discriminate. congruence.
Qed.

Lemma prim_accepts_proto x k :
  is_prim x = true → prim_accepts x (KStr k) = true → k = "__proto__".
Proof.
  intros Hprim. unfold prim_accepts. destruct (is_nullish x) eqn:Hn; [discriminate|]. cbn [negb andb].
  assert (Hchain : ∀ b, b < length realm → proto_of realm b = Some ObjectProto →
            (∀ p, plookup (KStr k) (own_props realm b) = Some p → p ≠ PProtoAccessor) →
            match chain_prop realm b (KStr k) with Some PProtoAccessor => true | _ => false end = true →
            k = "__proto__").
  { intros b Hb Hp Hno. rewrite (chain_wrapper realm b _ standard_realm Hb Hp).
    destruct (plookup (KStr k) (own_props realm b)) as [p|] eqn:E.
    - destruct p; [discriminate|]. destruct (Hno _ eq_refl eq_refl).
    - destruct (plookup (KStr k) (own_props realm ObjectProto)) as [[? ? ?|]|] eqn:E';
        try discriminate. intros _. apply object_prototype_accessor, E'. }
  destruct x as [| |b|z|s|n|l]; try discriminate; cbn [resolve].
  - apply Hchain; [vm_compute; lia|reflexivity|].
    intros p. realm_props BooleanProto. discriminate.
  - apply Hchain; [vm_compute; lia|reflexivity|].
    intros p. realm_props NumberProto. discriminate.
  - destruct (str_own s (KStr k)) as [p|] eqn:Hs.
    + unfold str_own in Hs. case_decide; [injection Hs as <-; discriminate|].
      destruct (list_find _ _) as [[i j]|]; [injection Hs as <-; discriminate|discriminate].
    + apply Hchain; [vm_compute; lia|reflexivity|].
      intros p. realm_props StringProto. case_decide; [|discriminate].
      intros [= <-]. discriminate.
  - apply Hchain; [vm_compute; lia|reflexivity|].
    intros p. realm_props SymbolProto. case_decide; [|discriminate].
    intros [= <-]. discriminate.
Qed.

Lemma forEach_fails {A} (f : A → M unit) ks h k :
  k ∈ ks →
  (∀ k', k' ∈ ks → f k' h = Ret tt h ∨ ∃ e, f k' h = Throw e h) →
  (∃ e, f k h = Throw e h) →
  ∃ e, forEach f ks h = Throw e h.
Proof.
  induction ks as [|k0 ks IH]; intros Hin Hall Hk; [inversion Hin|].
  cbn [forEach]. destruct (Hall k0 (list_elem_of_here _ _)) as [H0|[e H0]].
  - rewrite (bind_Ret _ _ _ _ _ H0). apply elem_of_cons in Hin.
    destruct Hin as [->|Hin].
    + destruct Hk as [e Hk]. rewrite Hk in H0. discriminate.
    + apply IH; [exact Hin| |exact Hk]. intros k' Hk'. apply Hall, list_elem_of_further, Hk'.
  - exists e. apply (bind_Throw _ _ _ _ _ H0).
Qed.

(** X4: a primitive cannot receive properties.  When the target is a
    primitive ([null] and [undefined] included) and the source is a plain
    object with at least one key other than [__proto__], the assignment
    of line 112 (or, for [null] and [undefined], the classifier's read)
    throws and the call ends in the generic failure, with nothing written
    beyond the call's own [options]. *)
Theorem X4_primitive_target_fails host fuel h x ls sf k c :
  standard h →
  is_prim x = true →
  holds h (HNode ls false sf) →
  wf_tree (HNode ls false sf) = true →
  (k, c) ∈ sf → k ≠ "__proto__" →
  mergeDeep host (S fuel) x (VRef ls) VUndef h = Throw merge_failure (with_defaults h).
Proof.
  intros Hstd Hx Hhs Hws Hin Hk.
  pose proof (holds_node _ _ _ _ Hhs) as Hls.
  assert (Hlen : ls < length h) by (eapply lookup_lt_Some, Hls).
  rewrite (mergeDeep_object_fresh host fuel x (VRef ls) h Hstd).
  2: { destruct x; try discriminate; reflexivity. }
  2: { cbn [value_ok]. apply Nat.ltb_lt, Hlen. }
  2: { apply isArray_prim, Hx. }
  2: { apply (isArray_node _ _ _ _ Hls). }
  pose proof (preserved_app h
    [default_options (length h); function_object FDefaultGet; function_object FDefaultSet])
    as Hp0.
  fold (with_defaults h) in Hp0.
  pose proof (standard_preserved _ _ Hstd Hp0) as Hstd0.
  pose proof (holds_kept _ _ _ Hhs Hp0) as Hhs0.
  unfold try_catch.
  rewrite (mergeTargetAndSource_node _ _ _ _ _ _ _ _ _ (holds_node _ _ _ _ Hhs0)).
  assert (Hstep : ∀ s c', (s, c') ∈ sf →
    merge_key host fuel (mergeDeep host fuel) x (VRef ls) (VRef (length h)) (KStr s)
      (with_defaults h)
    = if prim_accepts x (KStr s) then Ret tt (with_defaults h)
      else Throw TypeError (with_defaults h)).
  { intros s c' Hin'.
    apply (merge_key_prim host fuel (mergeDeep host fuel) (length h) (with_defaults h)
             ls false sf s c' Hstd0 (with_defaults_at h) Hhs0 Hws Hin' x Hx). }
  destruct (forEach_fails
              (merge_key host fuel (mergeDeep host fuel) x (VRef ls) (VRef (length h)))
              (KStr <$> sf.*1) (with_defaults h) (KStr k)) as [e He].
  - eapply node_key_intro, Hin.
  - intros k' Hk'. destruct (node_key_inv _ _ Hk') as (s & c' & -> & Hin').
    rewrite (Hstep s c' Hin'). destruct (prim_accepts x (KStr s)); eauto.
  - rewrite (Hstep k c Hin). destruct (prim_accepts x (KStr k)) eqn:Ha; [|eauto].
    destruct (Hk (prim_accepts_proto _ _ Hx Ha)).
  - rewrite (bind_Throw _ _ _ _ _ He). reflexivity.
Qed.

Lemma X4_witness :
  mergeDeep no_host 1 (VNum 5) (root source_tree) VUndef tree_heap
  = Throw merge_failure (with_defaults tree_heap).
Proof.
  apply (X4_primitive_target_fails no_host 0 tree_heap (VNum 5) 15
           [ ("a", HNode 16 false [ ("y", HPrim (VNum 3)) ]);
             ("c", HNode 17 true [ ("0", HPrim (VNum 4)) ]);
             ("toString", HPrim (VNum 5)) ]
           "c" (HNode 17 true [ ("0", HPrim (VNum 4)) ])).
  - unfold tree_heap. apply (standard_preserved realm); [apply standard_realm|].
    apply preserved_app.
  - reflexivity.
  - intros l o Hin. cbn in Hin.
    repeat (apply elem_of_cons in Hin; destruct Hin as [E|Hin];
            [injection E as -> ->; reflexivity|]).
    inversion Hin.
  - vm_compute. reflexivity.
  - apply list_elem_of_further, list_elem_of_here.
  - discriminate.
Defined.

(** * The first merge of plain data, entry by entry *)

Lemma mergeDeep_tree_result host lo fuel t c h m h1 :
  defaults_at lo h → wf_tree t = true → holds h t → holds h c → is_node c = true →
  mergeDeep host fuel (root t) (root c) (VRef lo) h = Ret m h1 →
  m = merge_value t c.
Proof.
  intros Hdef Hwt Hht Hhc Hc. destruct fuel as [|fuel]; [discriminate|].
  rewrite (mergeDeep_supplied _ _ _ _ _ _ Hdef).
  destruct c as [y|lc ac cf]; [discriminate|]. cbn [root].
  rewrite (isArray_node _ _ _ _ (holds_node _ _ _ _ Hhc)).
  assert (Ht : isArray h (root t) = is_array t).
  { destruct t as [x|lt at' tf]; cbn [root is_array].
    - apply isArray_prim, Hwt.
    - apply (isArray_node _ _ _ _ (holds_node _ _ _ _ Hht)). }
  rewrite Ht. unfold merge_value. cbn [is_node is_array root andb].
  destruct ac, (is_array t); cbn [negb andb];
    rewrite ?bool_decide_true by reflexivity; rewrite ?bool_decide_false by discriminate;
    cbn [negb]; try (intros [= <- _]; reflexivity).
  unfold try_catch.
  destruct (mergeTargetAndSource _ _ _ _ _ _ _) as [v' g'| |] eqn:Hrun; try discriminate.
  intros [= <- _]. eapply mergeTargetAndSource_returns_target, Hrun.
Qed.

Lemma node_table_absent (fields : list (string * ht)) k :
  NoDup fields.*1 → plookup (KStr k) (node_table fields) = None → k ∉ fields.*1.
Proof.
  intros Hnd Hno Hin. apply list_elem_of_fmap in Hin. destruct Hin as ([k' c] & E & Hin).
  cbn in E. subst k. rewrite (node_table_lookup _ _ _ Hnd Hin) in Hno. discriminate.
Qed.

Lemma field_key_in (fields : list (string * ht)) k c : (k, c) ∈ fields → k ∈ fields.*1.
Proof. intros Hin. apply list_elem_of_fmap. exists (k, c). auto. Qed.

Section ExactStep.

Variable host : nat → value → list value → M value.
Variables (lo fuel : nat) (h : heap) (lt : loc) (tf : list (string * ht)).
Variables (ls : loc) (sf : list (string * ht)).
Hypothesis Hstd : standard h.
Hypothesis Hdef : defaults_at lo h.
Hypothesis Hwt : wf_tree (HNode lt false tf) = true.
Hypothesis Hws : wf_tree (HNode ls false sf) = true.
Hypothesis Hnv : no_value_key (HNode ls false sf) = true.
Hypothesis Hht : holds h (HNode lt false tf).
Hypothesis Hhs : holds h (HNode ls false sf).
Hypothesis HndT : NoDup (locs (HNode lt false tf)).
Hypothesis Hloc :
  ∀ l, l ∈ locs (HNode lt false tf) → length realm ≤ l < lo ∧ l ∉ locs (HNode ls false sf).

Lemma merging_exact_start :
  merging_exact h lt tf sf (has_null (HNode ls false sf)) [] h.
Proof.
  split; [apply merging_start; assumption|]. exists (node_table tf).
  split; [apply (holds_node _ _ _ _ Hht)|].
  split; [intros k c t _ Hin; inversion Hin|intros k c _ Hin; inversion Hin].
Qed.

Lemma merging_exact_step seen s c g u g' :
  merging_exact h lt tf sf (has_null (HNode ls false sf)) seen g →
  (s, c) ∈ sf → KStr s ∉ seen →
  merge_key host fuel (mergeDeep host fuel) (VRef lt) (VRef ls) (VRef lo) (KStr s) g
  = Ret u g' →
  merging_exact h lt tf sf (has_null (HNode ls false sf)) (seen ++ [KStr s]) g'.
Proof.
  intros [HI (tb0 & Hlt0 & Hshared & Hfresh)] Hin Hnew Hk.
  destruct (wf_tree_node _ _ _ Hws) as [HndS HwSc].
  destruct (wf_tree_node _ _ _ Hwt) as [HndTk HwTc].
  pose proof (no_value_key_node _ _ _ Hnv) as HnvSc.
  destruct (HwSc s c Hin) as [Hsne Hwc]. destruct (HnvSc s c Hin) as [_ Hnc].
  pose proof HI as (Hf & tb & Hlt & Hcf & Hseen & Hun & Hsub).
  rewrite Hlt in Hlt0. injection Hlt0 as <-.
  assert (HlocT : ∀ l, l ∈ locs (HNode lt false tf) → length realm ≤ l)
    by (intros l Hl; apply Hloc in Hl; lia).
  assert (HlocT' : ∀ l, l ∈ locs (HNode lt false tf) → l < lo)
    by (intros l Hl; apply Hloc in Hl; lia).
  pose proof (frame_standard _ _ _ Hf HlocT Hstd) as Hstd'.
  pose proof (frame_defaults _ _ _ _ Hf HlocT' Hdef) as Hdef'.
  assert (Hhs' : holds g (HNode ls false sf)).
  { eapply frame_holds; [exact Hf| |exact Hhs]. intros l Hl HlT.
    apply Hloc in HlT. apply HlT, Hl. }
  pose proof (Hun s Hnew) as Hts.
  assert (Hltg : lt < length g) by (eapply lookup_lt_Some, Hlt).
  (* the table part, once the new table is known *)
  assert (Htable : ∀ g1 tb' expected,
    length g ≤ length g1 →
    plookup (KStr s) tb' = expected →
    (∀ k', k' ≠ KStr s → plookup k' tb' = plookup k' tb) →
    (∀ t, (s, t) ∈ tf → expected = Some (data (merge_value t c))) →
    (s ∉ tf.*1 → expected = if inherited s then None else Some (data (root c))) →
    ∃ tb1, (<[lt := plain tb']> g1) !! lt = Some (plain tb1) ∧
      (∀ k c0 t, (k, c0) ∈ sf → KStr k ∈ seen ++ [KStr s] → (k, t) ∈ tf →
         plookup (KStr k) tb1 = Some (data (merge_value t c0))) ∧
      (∀ k c0, (k, c0) ∈ sf → KStr k ∈ seen ++ [KStr s] → k ∉ tf.*1 →
         plookup (KStr k) tb1 = if inherited k then None else Some (data (root c0)))).
  { intros g1 tb' expected Hlen Hs Hother Hsh Hfr. exists tb'.
    split; [apply list_lookup_insert_eq; lia|]. split.
    - intros k c0 t Hin0 Hk0 Ht. apply elem_of_app in Hk0. destruct Hk0 as [Hk0|Hk0].
      + rewrite Hother; [eapply Hshared; eassumption|]. intros [= ->]. apply Hnew, Hk0.
      + apply list_elem_of_singleton in Hk0. injection Hk0 as ->.
        rewrite (fields_functional _ _ _ _ HndS Hin0 Hin). rewrite Hs. apply Hsh, Ht.
    - intros k c0 Hin0 Hk0 Ht. apply elem_of_app in Hk0. destruct Hk0 as [Hk0|Hk0].
      + rewrite Hother; [eapply Hfresh; eassumption|]. intros [= ->]. apply Hnew, Hk0.
      + apply list_elem_of_singleton in Hk0. injection Hk0 as ->.
        rewrite (fields_functional _ _ _ _ HndS Hin0 Hin). rewrite Hs. apply Hfr, Ht. }
  destruct (plookup (KStr s) (node_table tf)) as [p|] eqn:Htf.
  - apply node_table_lookup_inv in Htf. destruct Htf as (t' & Ht' & ->).
    assert (Hsame : ∀ t, (s, t) ∈ tf → t = t')
      by (intros t Ht; apply (fields_functional _ _ _ _ HndTk Ht Ht')).
    destruct (is_node c) eqn:Hc.
    + rewrite (merge_key_own_node host fuel (mergeDeep host fuel) lo g ls false sf s c
                 Hstd' Hdef' Hhs' Hws Hnv Hin lt tb Hlt Hcf (root t') Hts Hc) in Hk.
      unfold bind at 1 in Hk.
      destruct (mergeDeep host fuel (root t') (root c) (VRef lo) g)
        as [m g1| |] eqn:Hrec; try discriminate.
      assert (Hht' : holds g t').
      { eapply holds_preserved; [eapply holds_child; [exact Hht|exact Ht']|].
        intros l Hl. eapply Hsub; eassumption. }
      pose proof (holds_child _ _ _ _ _ _ Hhs' Hin) as Hhc.
      destruct (first_merge host lo c Hwc Hnc Hc t' g fuel m g1 Hstd' Hdef'
                  (proj2 (HwTc _ _ Ht')) Hht' Hhc
                  (locs_NoDup_child _ _ _ _ _ HndT Ht')) as [Hm Hf1]; [|exact Hrec|].
      { intros l Hl. pose proof (locs_child lt false _ _ _ _ Ht' Hl) as HlT.
        apply Hloc in HlT. split; [lia|]. intros Hlc. apply HlT.
        eapply locs_child; eassumption. }
      pose proof (mergeDeep_tree_result _ _ _ _ _ _ _ _ Hdef' (proj2 (HwTc _ _ Ht'))
                    Hht' Hhc Hc Hrec) as Hmv.
      assert (Hdef1 : defaults_at lo g1).
      { eapply frame_defaults; [exact Hf1| |exact Hdef']. intros l Hl.
        apply HlocT'. eapply locs_child; eassumption. }
      assert (Hlt1 : g1 !! lt = Some (plain tb)).
      { eapply frame_lookup; [exact Hf1| |exact Hlt].
        eapply locs_root_fresh; [exact HndT|exact Ht']. }
      rewrite (store_default _ _ _ _ _ _ _ Hdef1) in Hk.
      rewrite (set_plain_own _ _ _ _ _ _ Hlt1 Hts) in Hk. injection Hk as _ <-.
      split.
      * eapply (merging_write h lt tf ls sf _ Hws Hht HndT) with (W := locs t') (D := locs t');
          [exact Hin|exact Hnew|exact HI|exact Hlt|exact Hf1| |exact Hm| | |].
        -- intros l Hl. eauto.
        -- intros l Hl. eauto.
        -- eapply plookup_pupdate_eq, Hts.
        -- intros k' Hk'. apply plookup_pupdate_ne, Hk'.
      * apply (Htable g1 _ (Some (data m))); [apply Hf1| | | |].
        -- eapply plookup_pupdate_eq, Hts.
        -- intros k' Hk'. apply plookup_pupdate_ne, Hk'.
        -- intros t Ht. rewrite (Hsame t Ht), Hmv. reflexivity.
        -- intros Hno. destruct (Hno (field_key_in _ _ _ Ht')).
    + rewrite (merge_key_own_leaf host fuel (mergeDeep host fuel) lo g ls false sf s c
                 Hstd' Hdef' Hhs' Hws Hin lt tb Hlt Hcf (root t') Hts Hc) in Hk.
      injection Hk as _ <-. split.
      * eapply (merging_write h lt tf ls sf _ Hws Hht HndT) with (W := []) (D := []);
          [exact Hin|exact Hnew|exact HI|exact Hlt|apply frame_refl| |apply merged_alias| | |].
        -- intros l Hl. inversion Hl.
        -- intros l Hl. inversion Hl.
        -- eapply plookup_pupdate_eq, Hts.
        -- intros k' Hk'. apply plookup_pupdate_ne, Hk'.
      * apply (Htable g _ (Some (data (root c)))); [lia| | | |].
        -- eapply plookup_pupdate_eq, Hts.
        -- intros k' Hk'. apply plookup_pupdate_ne, Hk'.
        -- intros t Ht. unfold merge_value. rewrite Hc. reflexivity.
        -- intros Hno. destruct (Hno (field_key_in _ _ _ Ht')).
  - pose proof (node_table_absent _ _ HndTk Htf) as Hnot.
    destruct (inherited s) eqn:Hi.
    + destruct (merge_key_unsafe host fuel (mergeDeep host fuel) lo g ls false sf s lt tb
                  Hstd' Hdef' Hhs' Hws Hnv Hlt Hcf Hts Hi) as [Hinv _].
      destruct (Hinv _ _ Hk) as [-> Hn]. split.
      * eapply merging_skip; eassumption.
      * exists tb. split; [apply lookup_app_l_Some, Hlt|]. split.
        -- intros k c0 t Hin0 Hk0 Ht. apply elem_of_app in Hk0. destruct Hk0 as [Hk0|Hk0].
           ++ eapply Hshared; eassumption.
           ++ apply list_elem_of_singleton in Hk0. injection Hk0 as ->.
              destruct (Hnot (field_key_in _ _ _ Ht)).
        -- intros k c0 Hin0 Hk0 Ht. apply elem_of_app in Hk0. destruct Hk0 as [Hk0|Hk0].
           ++ eapply Hfresh; eassumption.
           ++ apply list_elem_of_singleton in Hk0. injection Hk0 as ->.
              rewrite Hi. exact Hts.
    + rewrite (merge_key_absent host fuel (mergeDeep host fuel) lo g ls false sf s c
                 Hstd' Hdef' Hhs' Hws Hin lt tb Hlt Hcf Hts Hi) in Hk.
      injection Hk as _ <-. split.
      * eapply (merging_write h lt tf ls sf _ Hws Hht HndT) with (W := []) (D := []);
          [exact Hin|exact Hnew|exact HI|exact Hlt|apply frame_refl| |apply merged_alias| | |].
        -- intros l Hl. inversion Hl.
        -- intros l Hl. inversion Hl.
        -- apply plookup_pinsert_eq, Hts.
        -- intros k' Hk'. apply plookup_pinsert_ne, Hk'.
      * apply (Htable g _ (Some (data (root c)))); [lia| | | |].
        -- apply plookup_pinsert_eq, Hts.
        -- intros k' Hk'. apply plookup_pinsert_ne, Hk'.
        -- intros t Ht. destruct (Hnot (field_key_in _ _ _ Ht)).
        -- intros _. reflexivity.
Qed.

(** The whole first merge of two plain objects. *)
Lemma first_merge_exact v h1 :
  mergeDeep host (S fuel) (VRef lt) (VRef ls) (VRef lo) h = Ret v h1 →
  v = VRef lt ∧
  merging_exact h lt tf sf (has_null (HNode ls false sf)) (KStr <$> sf.*1) h1.
Proof.
  pose proof (holds_node _ _ _ _ Hhs) as Hls.
  pose proof (holds_node _ _ _ _ Hht) as Hlt0.
  destruct (wf_tree_node _ _ _ Hws) as [HndS _].
  rewrite (mergeDeep_supplied _ _ _ _ _ _ Hdef).
  rewrite (isArray_node _ _ _ _ Hls), (isArray_node _ _ _ _ Hlt0).
  rewrite bool_decide_true by reflexivity. cbn [negb].
  unfold try_catch. rewrite (mergeTargetAndSource_node _ _ _ _ _ _ _ _ _ Hls).
  unfold bind at 1.
  destruct (forEach _ _ h) as [u g| |] eqn:Hrun; try discriminate.
  intros [= <- <-]. split; [reflexivity|].
  eapply (forEach_prefix (merging_exact h lt tf sf (has_null (HNode ls false sf))));
    [apply merging_exact_start| |exact Hrun].
  intros pre k post g0 u' g' Eks HI Hk.
  assert (Hkin : k ∈ KStr <$> sf.*1).
  { rewrite Eks. apply elem_of_app. right. apply list_elem_of_here. }
  assert (Hnew : k ∉ pre).
  { pose proof (node_keys_NoDup _ HndS) as Hnd. rewrite Eks in Hnd.
    apply NoDup_app in Hnd. destruct Hnd as (_ & Hdis & _).
    intros Hpre. eapply Hdis; [exact Hpre|apply list_elem_of_here]. }
  destruct (node_key_inv _ _ Hkin) as (s & c & -> & Hin).
  eapply merging_exact_step; eassumption.
Qed.

End ExactStep.

Lemma with_defaults_preserved h : preserved h (with_defaults h).
Proof. unfold with_defaults. apply preserved_app. Qed.

Lemma first_merge_fresh_exact host fuel h lt tf ls sf v h1 :
  standard h →
  wf_tree (HNode lt false tf) = true → wf_tree (HNode ls false sf) = true →
  no_value_key (HNode ls false sf) = true →
  holds h (HNode lt false tf) → holds h (HNode ls false sf) →
  NoDup (locs (HNode lt false tf)) →
  (∀ l, l ∈ locs (HNode lt false tf) → length realm ≤ l ∧ l ∉ locs (HNode ls false sf)) →
  mergeDeep host fuel (VRef lt) (VRef ls) VUndef h = Ret v h1 →
  v = VRef lt ∧
  merging_exact (with_defaults h) lt tf sf (has_null (HNode ls false sf)) (KStr <$> sf.*1) h1.
Proof.
  intros Hstd Hwt Hws Hnv Hht Hhs Hnd Hloc Hrun.
  destruct fuel as [|fuel]; [discriminate|].
  rewrite (mergeDeep_fresh _ _ _ _ _ Hstd) in Hrun.
  pose proof (with_defaults_preserved h) as Hp0.
  eapply (first_merge_exact host (length h) fuel (with_defaults h) lt tf ls sf);
    [exact (standard_preserved _ _ Hstd Hp0)|apply with_defaults_at|exact Hwt|exact Hws
    |exact Hnv|exact (holds_kept _ _ _ Hht Hp0)|exact (holds_kept _ _ _ Hhs Hp0)|exact Hnd
    | |exact Hrun].
  intros l Hl. destruct (Hloc l Hl) as [Hlow Hsep].
  pose proof (holds_locs_lt _ _ _ Hht Hl). auto.
Qed.

Ltac tree_heap_standard :=
  unfold tree_heap; apply (standard_preserved realm); [apply standard_realm|apply preserved_app].

Ltac tree_heap_holds :=
  let l := fresh "l" in let o := fresh "o" in let Hin := fresh "Hin" in
  let E := fresh "E" in
  intros l o Hin; cbn in Hin;
  repeat (apply elem_of_cons in Hin; destruct Hin as [E|Hin];
          [injection E as -> ->; reflexivity|]);
  inversion Hin.

Ltac tree_heap_apart :=
  let l := fresh "l" in let Hl := fresh "Hl" in
  intros l Hl; cbn in Hl;
  repeat (apply elem_of_cons in Hl; destruct Hl as [->|Hl];
          [split; [vm_compute; lia|apply (bool_decide_unpack _); vm_compute; exact I]|]);
  inversion Hl.

(** X5: on plain data without wrappers the merge writes into the
    target's own objects and nowhere else.  Target and source are plain
    JSON-like trees (no key named [constructor.fields]) held in separate
    objects outside the built-ins, and the source is an object or array
    in which no object owns a [value] key.  When
    [mergeDeep(target, source)] returns, the source tree is exactly as it
    was, and so is every other object that existed before the call and
    is not part of the target (the built-ins included); objects are only
    added, never removed. *)
Theorem X5_merge_writes_only_into_the_target host t s fuel h v h1 :
  standard h →
  wf_tree t = true → wf_tree s = true → no_value_key s = true → is_node s = true →
  holds h t → holds h s → NoDup (locs t) →
  (∀ l, l ∈ locs t → length realm ≤ l ∧ l ∉ locs s) →
  mergeDeep host fuel (root t) (root s) VUndef h = Ret v h1 →
  holds h1 s ∧ standard h1 ∧ length h ≤ length h1 ∧
  ∀ l, l < length h → l ∉ locs t → h1 !! l = h !! l.
Proof.
  intros Hstd Hwt Hws Hnv Hnode Hht Hhs Hnd Hloc Hrun.
  destruct fuel as [|fuel]; [discriminate|].
  rewrite (mergeDeep_fresh _ _ _ _ _ Hstd) in Hrun.
  pose proof (with_defaults_preserved h) as Hp0.
  pose proof (standard_preserved _ _ Hstd Hp0) as Hstd0.
  destruct (first_merge host (length h) s Hws Hnv Hnode t (with_defaults h) (S fuel) v h1
              Hstd0 (with_defaults_at h) Hwt (holds_kept _ _ _ Hht Hp0)
              (holds_kept _ _ _ Hhs Hp0) Hnd) as [_ Hf]; [|exact Hrun|].
  { intros l Hl. destruct (Hloc l Hl) as [Hlow Hsep].
    pose proof (holds_locs_lt _ _ _ Hht Hl). auto. }
  split; [|split; [|split]].
  - eapply frame_holds; [exact Hf| |exact (holds_kept _ _ _ Hhs Hp0)].
    intros l Hl HlT. apply (proj2 (Hloc l HlT)), Hl.
  - eapply frame_standard; [exact Hf| |exact Hstd0]. intros l Hl. apply Hloc, Hl.
  - destruct Hf as [Hlen _]. pose proof (preserved_length _ _ Hp0). lia.
  - intros l Hl Hn. destruct Hf as [Hlen Hsame]. pose proof (preserved_length _ _ Hp0).
    rewrite Hsame by (auto; lia). apply Hp0, Hl.
Qed.

Lemma X5_witness :
  ∃ h1, mergeDeep no_host 3 (root target_tree) (root source_tree) VUndef tree_heap
        = Ret (VRef 13) h1 ∧
        holds h1 source_tree ∧ standard h1 ∧ length tree_heap ≤ length h1 ∧
        ∀ l, l < length tree_heap → l ∉ locs target_tree → h1 !! l = tree_heap !! l.
Proof.
  eexists. split; [vm_compute; reflexivity|].
  apply (X5_merge_writes_only_into_the_target no_host target_tree source_tree 3 tree_heap
           (VRef 13)).
  - tree_heap_standard.
  - vm_compute. reflexivity.
  - vm_compute. reflexivity.
  - vm_compute. reflexivity.
  - reflexivity.
  - tree_heap_holds.
  - tree_heap_holds.
  - apply (bool_decide_unpack _). vm_compute. exact I.
  - tree_heap_apart.
  - vm_compute. reflexivity.
Defined.

Lemma merging_exact_table h lt tf sf nulls seen g :
  merging_exact h lt tf sf nulls seen g →
  ∃ tb, own_props g lt = tb ∧
    (∀ k, KStr k ∉ seen → plookup (KStr k) tb = plookup (KStr k) (node_table tf)) ∧
    (∀ k c t, (k, c) ∈ sf → KStr k ∈ seen → (k, t) ∈ tf →
       plookup (KStr k) tb = Some (data (merge_value t c))) ∧
    (∀ k c, (k, c) ∈ sf → KStr k ∈ seen → k ∉ tf.*1 →
       plookup (KStr k) tb = if inherited k then None else Some (data (root c))).
Proof.
  intros [(_ & tb & Hlt & _ & _ & Hun & _) (tb' & Hlt' & Hsh & Hfr)].
  rewrite Hlt in Hlt'. injection Hlt' as <-. exists tb.
  split; [unfold own_props; rewrite Hlt; reflexivity|]. auto.
Qed.

Lemma key_not_listed (fields : list (string * ht)) k :
  k ∉ fields.*1 → KStr k ∉ KStr <$> fields.*1.
Proof.
  intros Hk Hin. apply list_elem_of_fmap in Hin. destruct Hin as (k' & [= ->] & Hin).
  apply Hk, Hin.
Qed.

(** X6: the merge only touches the keys the source names.  When two
    plain objects are merged (JSON-like trees in separate objects
    outside the built-ins, no key named [constructor.fields], no object
    of the source owning a [value] key) and the call returns, every
    property of the target whose key the source does not have keeps its
    value, and the whole subtree below it is left as it was. *)
Theorem X6_keys_absent_from_the_source_are_kept host fuel h lt tf ls sf v h1 k t :
  standard h →
  wf_tree (HNode lt false tf) = true → wf_tree (HNode ls false sf) = true →
  no_value_key (HNode ls false sf) = true →
  holds h (HNode lt false tf) → holds h (HNode ls false sf) →
  NoDup (locs (HNode lt false tf)) →
  (∀ l, l ∈ locs (HNode lt false tf) → length realm ≤ l ∧ l ∉ locs (HNode ls false sf)) →
  mergeDeep host fuel (VRef lt) (VRef ls) VUndef h = Ret v h1 →
  (k, t) ∈ tf → k ∉ sf.*1 →
  own_of h1 (VRef lt) (KStr k) = Some (data (root t)) ∧ holds h1 t.
Proof.
  intros Hstd Hwt Hws Hnv Hht Hhs Hnd Hloc Hrun Ht Hk.
  destruct (first_merge_fresh_exact _ _ _ _ _ _ _ _ _ Hstd Hwt Hws Hnv Hht Hhs Hnd Hloc Hrun)
    as [_ HI].
  pose proof (key_not_listed _ _ Hk) as Hk'.
  destruct (merging_exact_table _ _ _ _ _ _ _ HI) as (tb & Htb & Hun & _ & _).
  split.
  - cbn [own_of]. rewrite Htb, (Hun k Hk').
    apply node_table_lookup; [apply (wf_tree_node _ _ _ Hwt)|exact Ht].
  - destruct HI as [(_ & _ & _ & _ & _ & _ & Hsub) _].
    pose proof (with_defaults_preserved h) as Hp0.
    eapply holds_preserved; [eapply holds_child; [exact (holds_kept _ _ _ Hht Hp0)|exact Ht]|].
    intros l Hl. eapply Hsub; eassumption.
Qed.

Lemma X6_witness :
  ∃ h1, mergeDeep no_host 3 (VRef 13) (VRef 15) VUndef tree_heap = Ret (VRef 13) h1 ∧
        own_of h1 (VRef 13) (KStr "b") = Some (data (VNum 2)).
Proof.
  eexists. split; [vm_compute; reflexivity|].
  refine (proj1 (X6_keys_absent_from_the_source_are_kept no_host 3 tree_heap
           13 [ ("a", HNode 14 false [ ("x", HPrim (VNum 1)) ]); ("b", HPrim (VNum 2)) ]
           15 [ ("a", HNode 16 false [ ("y", HPrim (VNum 3)) ]);
                ("c", HNode 17 true [ ("0", HPrim (VNum 4)) ]);
                ("toString", HPrim (VNum 5)) ]
           (VRef 13) _ "b" (HPrim (VNum 2)) _ _ _ _ _ _ _ _ _ _ _)).
  - tree_heap_standard.
  - vm_compute. reflexivity.
  - vm_compute. reflexivity.
  - vm_compute. reflexivity.
  - tree_heap_holds.
  - tree_heap_holds.
  - apply (bool_decide_unpack _). vm_compute. exact I.
  - tree_heap_apart.
  - vm_compute. reflexivity.
  - apply list_elem_of_further, list_elem_of_here.
  - apply (bool_decide_unpack _). vm_compute. exact I.
Defined.

(** X7: under the conditions of X6 (no object of the source owns a
    [value] key), a key the target does not have is added with the
    source's value itself (a nested source object is stored by
    reference, not copied), unless [Object.prototype] defines that key
    (one of its twelve: [constructor], [__proto__], [hasOwnProperty],
    [toString], [valueOf], [toLocaleString], [isPrototypeOf],
    [propertyIsEnumerable], [__defineGetter__], [__defineSetter__],
    [__lookupGetter__], [__lookupSetter__]): then the key is taken for
    unsafe and the target gets no such property. *)
Theorem X7_new_keys_are_added_by_reference host fuel h lt tf ls sf v h1 k c :
  standard h →
  wf_tree (HNode lt false tf) = true → wf_tree (HNode ls false sf) = true →
  no_value_key (HNode ls false sf) = true →
  holds h (HNode lt false tf) → holds h (HNode ls false sf) →
  NoDup (locs (HNode lt false tf)) →
  (∀ l, l ∈ locs (HNode lt false tf) → length realm ≤ l ∧ l ∉ locs (HNode ls false sf)) →
  mergeDeep host fuel (VRef lt) (VRef ls) VUndef h = Ret v h1 →
  (k, c) ∈ sf → k ∉ tf.*1 →
  own_of h1 (VRef lt) (KStr k) = if inherited k then None else Some (data (root c)).
Proof.
  intros Hstd Hwt Hws Hnv Hht Hhs Hnd Hloc Hrun Hc Hk.
  destruct (first_merge_fresh_exact _ _ _ _ _ _ _ _ _ Hstd Hwt Hws Hnv Hht Hhs Hnd Hloc Hrun)
    as [_ HI].
  destruct (merging_exact_table _ _ _ _ _ _ _ HI) as (tb & Htb & _ & _ & Hfr).
  cbn [own_of]. rewrite Htb. eapply Hfr; [exact Hc|eapply node_key_intro, Hc|exact Hk].
Qed.

Lemma X7_witness :
  ∃ h1, mergeDeep no_host 3 (VRef 13) (VRef 15) VUndef tree_heap = Ret (VRef 13) h1 ∧
        own_of h1 (VRef 13) (KStr "c") = Some (data (VRef 17)) ∧
        own_of h1 (VRef 13) (KStr "toString") = None.
Proof.
  eexists. split; [vm_compute; reflexivity|].
  pose proof (X7_new_keys_are_added_by_reference no_host 3 tree_heap
           13 [ ("a", HNode 14 false [ ("x", HPrim (VNum 1)) ]); ("b", HPrim (VNum 2)) ]
           15 [ ("a", HNode 16 false [ ("y", HPrim (VNum 3)) ]);
                ("c", HNode 17 true [ ("0", HPrim (VNum 4)) ]);
                ("toString", HPrim (VNum 5)) ]
           (VRef 13)) as H.
  split.
  - refine (H _ "c" (HNode 17 true [ ("0", HPrim (VNum 4)) ]) _ _ _ _ _ _ _ _ _ _ _).
    + tree_heap_standard.
    + vm_compute. reflexivity.
    + vm_compute. reflexivity.
    + vm_compute. reflexivity.
    + tree_heap_holds.
    + tree_heap_holds.
    + apply (bool_decide_unpack _). vm_compute. exact I.
    + tree_heap_apart.
    + vm_compute. reflexivity.
    + apply list_elem_of_further, list_elem_of_here.
    + apply (bool_decide_unpack _). vm_compute. exact I.
  - refine (H _ "toString" (HPrim (VNum 5)) _ _ _ _ _ _ _ _ _ _ _).
    + tree_heap_standard.
    + vm_compute. reflexivity.
    + vm_compute. reflexivity.
    + vm_compute. reflexivity.
    + tree_heap_holds.
    + tree_heap_holds.
    + apply (bool_decide_unpack _). vm_compute. exact I.
    + tree_heap_apart.
    + vm_compute. reflexivity.
    + apply list_elem_of_further, list_elem_of_further, list_elem_of_here.
    + apply (bool_decide_unpack _). vm_compute. exact I.
Defined.

(** X8: a key both objects have, under the conditions of X6 (in
    particular no object of the source owns a [value] key).  The call
    returns the target itself, and under that key the target ends up
    with: its own nested value, merged in place and keeping its
    identity, when the source's value is an object and neither side is
    an array; the source's value itself in every other case (a primitive
    leaf overwrites, an array on either side replaces by reference). *)
Theorem X8_shared_keys_merge_in_place_or_replace host fuel h lt tf ls sf v h1 k c t :
  standard h →
  wf_tree (HNode lt false tf) = true → wf_tree (HNode ls false sf) = true →
  no_value_key (HNode ls false sf) = true →
  holds h (HNode lt false tf) → holds h (HNode ls false sf) →
  NoDup (locs (HNode lt false tf)) →
  (∀ l, l ∈ locs (HNode lt false tf) → length realm ≤ l ∧ l ∉ locs (HNode ls false sf)) →
  mergeDeep host fuel (VRef lt) (VRef ls) VUndef h = Ret v h1 →
  (k, c) ∈ sf → (k, t) ∈ tf →
  v = VRef lt ∧ own_of h1 (VRef lt) (KStr k) = Some (data (merge_value t c)).
Proof.
  intros Hstd Hwt Hws Hnv Hht Hhs Hnd Hloc Hrun Hc Ht.
  destruct (first_merge_fresh_exact _ _ _ _ _ _ _ _ _ Hstd Hwt Hws Hnv Hht Hhs Hnd Hloc Hrun)
    as [Hv HI].
  split; [exact Hv|].
  destruct (merging_exact_table _ _ _ _ _ _ _ HI) as (tb & Htb & _ & Hsh & _).
  cbn [own_of]. rewrite Htb. eapply Hsh; [exact Hc|eapply node_key_intro, Hc|exact Ht].
Qed.

Lemma X8_witness :
  ∃ h1, mergeDeep no_host 3 (VRef 13) (VRef 15) VUndef tree_heap = Ret (VRef 13) h1 ∧
        own_of h1 (VRef 13) (KStr "a") = Some (data (VRef 14)).
Proof.
  eexists. split; [vm_compute; reflexivity|].
  refine (proj2 (X8_shared_keys_merge_in_place_or_replace no_host 3 tree_heap
           13 [ ("a", HNode 14 false [ ("x", HPrim (VNum 1)) ]); ("b", HPrim (VNum 2)) ]
           15 [ ("a", HNode 16 false [ ("y", HPrim (VNum 3)) ]);
                ("c", HNode 17 true [ ("0", HPrim (VNum 4)) ]);
                ("toString", HPrim (VNum 5)) ]
           (VRef 13) _ "a" (HNode 16 false [ ("y", HPrim (VNum 3)) ])
           (HNode 14 false [ ("x", HPrim (VNum 1)) ]) _ _ _ _ _ _ _ _ _ _ _)).
  - tree_heap_standard.
  - vm_compute. reflexivity.
  - vm_compute. reflexivity.
  - vm_compute. reflexivity.
  - tree_heap_holds.
  - tree_heap_holds.
  - apply (bool_decide_unpack _). vm_compute. exact I.
  - tree_heap_apart.
  - vm_compute. reflexivity.
  - apply list_elem_of_here.
  - apply list_elem_of_here.
Defined.

(** * The key lister *)

Lemma plookup_elem k p (ps : list (key * prop)) :
  NoDup ps.*1 → (k, p) ∈ ps → plookup k ps = Some p.
Proof.
  induction ps as [|[k0 p0] ps IH]; intros Hnd Hin; [inversion Hin|].
  cbn [fmap list_fmap fst] in Hnd. apply NoDup_cons in Hnd. destruct Hnd as [Hk0 Hnd].
  cbn [plookup]. apply elem_of_cons in Hin. destruct Hin as [E|Hin].
  - injection E as -> ->. rewrite decide_True by reflexivity. reflexivity.
  - destruct (decide (k = k0)) as [->|Hne]; [|apply IH; assumption].
    exfalso. apply Hk0. apply list_elem_of_fmap. exists (k0, p). auto.
Qed.

Lemma enumerable_keys_elem b (ps : list (key * prop)) k :
  NoDup ps.*1 →
  k ∈ enumerable_keys b ps ↔
  ∃ p, plookup k ps = Some p ∧ is_enumerable p = true ∧ is_str_key k = b.
Proof.
  intros Hnd. unfold enumerable_keys. split.
  - intros Hin. apply list_elem_of_fmap in Hin. destruct Hin as ([k' p] & -> & Hin).
    apply list_elem_of_filter in Hin. destruct Hin as [Hc Hin]. cbn [fst snd] in *.
    apply Is_true_true, andb_true_iff in Hc. destruct Hc as [He Hs].
    apply bool_decide_eq_true in Hs. exists p. split; [apply plookup_elem; assumption|auto].
  - intros (p & Hp & He & Hs). apply list_elem_of_fmap. exists (k, p).
    split; [reflexivity|]. apply list_elem_of_filter. split.
    + cbn [fst snd]. rewrite He. cbn [andb]. apply Is_true_true, bool_decide_eq_true, Hs.
    + apply list_elem_of_In, plookup_In, Hp.
Qed.

Lemma enumerable_keys_NoDup b (ps : list (key * prop)) :
  NoDup ps.*1 → NoDup (enumerable_keys b ps).
Proof.
  intros Hnd. unfold enumerable_keys. eapply sublist_NoDup; [exact Hnd|].
  apply fmap_sublist, sublist_filter.
Qed.

(** X9: for an object, [getKeys] lists exactly its own enumerable
    properties, each once: the string keys first, in property order, then
    the symbols.  Inherited and non-enumerable properties never appear,
    and the heap is left as it is. *)
Theorem X9_getKeys_lists_own_enumerable_keys h l o :
  h !! l = Some o →
  NoDup (o_props o).*1 →
  ∃ strs syms,
    getKeys (VRef l) h = Ret (strs ++ syms) h ∧
    Forall (λ k, is_str_key k = true) strs ∧
    Forall (λ k, is_str_key k = false) syms ∧
    NoDup (strs ++ syms) ∧
    ∀ k, k ∈ strs ++ syms ↔ own_enumerable h (VRef l) k = true.
Proof.
  intros Hl Hnd.
  assert (Hown : own_props h l = o_props o) by (unfold own_props; rewrite Hl; reflexivity).
  exists (enumerable_keys true (o_props o)), (enumerable_keys false (o_props o)).
  assert (Hkind : ∀ b, Forall (λ k, is_str_key k = b) (enumerable_keys b (o_props o))).
  { intros b. apply Forall_forall. intros k Hk.
    apply (enumerable_keys_elem _ _ _ Hnd) in Hk. destruct Hk as (p & _ & _ & Hs). exact Hs. }
  split; [|split; [apply Hkind|split; [apply Hkind|split]]].
  - unfold getKeys, object_keys, getEnumerableOwnPropertySymbols, bind, ret.
    rewrite Hown. reflexivity.
  - apply NoDup_app. split; [apply enumerable_keys_NoDup, Hnd|].
    split; [|apply enumerable_keys_NoDup, Hnd].
    intros k H1 H2. apply (enumerable_keys_elem _ _ _ Hnd) in H1, H2.
    destruct H1 as (_ & _ & _ & E1), H2 as (_ & _ & _ & E2). congruence.
  - intros k. unfold own_enumerable. cbn [own_of]. rewrite Hown, elem_of_app.
    rewrite !(enumerable_keys_elem _ _ _ Hnd). split.
    + intros [(p & -> & He & _)|(p & -> & He & _)]; exact He.
    + destruct (plookup k (o_props o)) as [p|] eqn:Hp; [|discriminate]. intros He.
      destruct (is_str_key k) eqn:Hs; [left|right]; exists p; auto.
Qed.

Lemma X9_witness :
  ∃ strs syms,
    getKeys (VRef 15) tree_heap = Ret (strs ++ syms) tree_heap ∧
    Forall (λ k, is_str_key k = true) strs ∧
    Forall (λ k, is_str_key k = false) syms ∧
    NoDup (strs ++ syms) ∧
    ∀ k, k ∈ strs ++ syms ↔ own_enumerable tree_heap (VRef 15) k = true.
Proof.
  apply (X9_getKeys_lists_own_enumerable_keys tree_heap 15
           (plain [ (KStr "a", data (VRef 16)); (KStr "c", data (VRef 17));
                    (KStr "toString", data (VNum 5)) ])).
  - reflexivity.
  - apply (bool_decide_unpack _). vm_compute. exact I.
Defined.

(** * Values that are not merged *)

(** X10: a source value that [Object.prototype.toString] reports as
    ["[object Date]"] or ["[object RegExp]"] (a [Date] or a [RegExp]
    with no [Symbol.toStringTag] of its own or inherited, or any object
    whose tag says so), and likewise a function, is never merged into:
    even when the target holds an object under that key, the merger does
    not recurse and stores the source's value itself, by reference, in
    place of the target's. *)
Theorem X10_special_values_replace_by_reference host fuel rec lo h lt tb source k x d :
  standard h → defaults_at lo h →
  h !! lt = Some (plain tb) →
  plookup (KStr fields_key) tb = None →
  plookup k tb = Some (data x) →
  get source k h = Ret (VRef d) h →
  (object_toString h (VRef d) = "[object Date]" ∨
   object_toString h (VRef d) = "[object RegExp]" ∨
   ∃ f, kind_of h d = KFunction f) →
  instanceof h (VRef d) ChangeProto = false →
  merge_key host fuel rec (VRef lt) source (VRef lo) k h
  = Ret tt (<[lt := plain (pupdate k (data (VRef d)) tb)]> h).
Proof.
  intros Hstd Hdef Hlt Hcf Hk Hget Hkind Hinst.
  assert (Hm : isMergeableObject h (VRef d) = false).
  { unfold isMergeableObject, isNonNullObject, isSpecial, typeof_object. cbn [truthy andb].
    destruct Hkind as [->|[->|[f ->]]]; [apply andb_false_r|apply andb_false_r|reflexivity]. }
  unfold merge_key.
  rewrite (bind_Ret _ _ _ _ _ (unsafe_plain _ _ _ _ _ _ Hstd Hdef Hlt Hcf)).
  rewrite Hk. cbn [is_enumerable data negb].
  rewrite (bind_Ret _ _ _ _ _ (propertyIsOnObject_plain _ _ _ _ Hstd Hlt)).
  rewrite Hk.
  rewrite (bind_Ret _ _ _ _ _ Hget).
  unfold bind at 1. rewrite Hm. cbn [andb].
  rewrite (bind_Ret _ _ _ _ _ Hget). rewrite Hinst, andb_false_r.
  rewrite Hm. cbn [andb].
  rewrite (bind_Ret _ _ _ _ _ (defaults_set _ _ Hdef)).
  rewrite (store_default _ _ _ _ _ _ _ Hdef).
  eapply set_plain_own; eassumption.
Qed.

Lemma X10_witness :
  own_of date_heap (VRef 13) (KStr "when") = Some (data (VRef 14)) ∧
  merge_key no_host 1 (mergeDeep no_host 1) (VRef 13) (VRef 15) (VRef 17) (KStr "when")
    date_heap
  = Ret tt (<[13 := plain (pupdate (KStr "when") (data (VRef 16))
                             [ (KStr "when", data (VRef 14)) ])]> date_heap).
Proof.
  split; [reflexivity|].
  apply (X10_special_values_replace_by_reference no_host 1 (mergeDeep no_host 1) 17
           date_heap 13 [ (KStr "when", data (VRef 14)) ] (VRef 15) (KStr "when")
           (VRef 14) 16).
  - unfold date_heap, with_defaults. rewrite <- app_assoc.
    apply (standard_preserved realm); [apply standard_realm|apply preserved_app].
  - repeat split; vm_compute; reflexivity.
  - reflexivity.
  - reflexivity.
  - reflexivity.
  - vm_compute. reflexivity.
  - left. vm_compute. reflexivity.
  - vm_compute. reflexivity.
Defined.

(** * The path builder without wrappers *)

(** X11: on a source tree in which no object owns a [value] key, the path
    builder finds nothing.  Whenever it returns, it returns the [kv] it
    was given and has written nowhere, and the source holds no [null];
    and it does return when the source holds no [null] and the nesting
    is within the fuel. *)
Theorem X11_path_builder_finds_nothing_without_wrappers opts kv s fuel path h :
  wf_tree s = true → no_value_key s = true → is_node s = true →
  holds h s →
  (∀ x h', buildPathToValue fuel (root s) opts kv path h = Ret x h' →
           x = kv ∧ h' = h ∧ has_null s = false) ∧
  (has_null s = false → depth s ≤ fuel →
   buildPathToValue fuel (root s) opts kv path h = Ret kv h).
Proof.
  intros Hwf Hnv Hnode Hh. apply buildPathToValue_tree; assumption.
Qed.

Lemma X11_witness :
  buildPathToValue 2 (root source_tree) VUndef (VRef 13) [] tree_heap
  = Ret (VRef 13) tree_heap.
Proof.
  refine (proj2 (X11_path_builder_finds_nothing_without_wrappers VUndef (VRef 13)
                   source_tree 2 [] tree_heap _ _ _ _) _ _).
  - vm_compute. reflexivity.
  - vm_compute. reflexivity.
  - reflexivity.
  - tree_heap_holds.
  - vm_compute. reflexivity.
  - vm_compute. lia.
Defined.

(** * Merging an object into itself *)

(** X12: merging plain data into itself is harmless.  For a tree of
    plain objects without [value] keys, [mergeDeep(x, x)] returns [x] and
    leaves every existing object as it was. *)
Theorem X12_self_merge_changes_nothing host s fuel h :
  standard h →
  wf_tree s = true → no_value_key s = true → is_node s = true →
  holds h s → depth s < fuel →
  ∃ h', mergeDeep host fuel (root s) (root s) VUndef h = Ret (root s) h' ∧ preserved h h'.
Proof.
  intros Hstd Hwf Hnv Hnode Hh Hfuel. destruct fuel as [|fuel]; [lia|].
  rewrite (mergeDeep_fresh _ _ _ _ _ Hstd).
  pose proof (with_defaults_preserved h) as Hp0.
  destruct (remerge_noop host (length h) s Hwf Hnv Hnode [] (root s) (with_defaults h)
              (S fuel) (standard_preserved _ _ Hstd Hp0) (with_defaults_at h)
              (holds_kept _ _ _ Hh Hp0) (merged_alias _ _ s) Hfuel) as (h' & Hrun & Hp).
  exists h'. split; [exact Hrun|].
  eapply preserved_trans; [|exact Hp0|exact Hp].
  unfold with_defaults. rewrite length_app. lia.
Qed.

Lemma X12_witness :
  ∃ h', mergeDeep no_host 3 (VRef 15) (VRef 15) VUndef tree_heap = Ret (VRef 15) h' ∧
        preserved tree_heap h'.
Proof.
  apply (X12_self_merge_changes_nothing no_host source_tree 3 tree_heap).
  - tree_heap_standard.
  - vm_compute. reflexivity.
  - vm_compute. reflexivity.
  - reflexivity.
  - tree_heap_holds.
  - vm_compute. lia.
Defined.

(** * The path builder with wrappers *)

Lemma forEach_fmap {A B} (f : B → M unit) (g : A → B) xs h :
  forEach f (g <$> xs) h = forEach (λ x, f (g x)) xs h.
Proof.
  revert h. induction xs as [|x xs IH]; intros h; [reflexivity|].
  cbn [fmap list_fmap forEach]. unfold bind.
  destruct (f (g x) h) as [u g'| |]; [apply IH|reflexivity|reflexivity].
Qed.

Lemma forEach_app {A} (f : A → M unit) xs ys h :
  forEach f (xs ++ ys) h = (forEach f xs ;;! forEach f ys) h.
Proof.
  revert h. induction xs as [|x xs IH]; intros h; [reflexivity|].
  cbn [app forEach]. unfold bind.
  destruct (f x h) as [u g'| |]; [|reflexivity|reflexivity].
  rewrite IH. unfold bind. reflexivity.
Qed.

Lemma forEach_flat_map {A B} (g : B → M unit) (F : A → list B) xs h :
  forEach g (flat_map F xs) h = forEach (λ x, forEach g (F x)) xs h.
Proof.
  revert h. induction xs as [|x xs IH]; intros h; [reflexivity|].
  cbn [flat_map forEach]. rewrite forEach_app. unfold bind.
  destruct (forEach g (F x) h) as [u g'| |]; [apply IH|reflexivity|reflexivity].
Qed.

Lemma forEach_ext_inv {A} (I : heap → Prop) (f f' : A → M unit) xs h :
  I h →
  (∀ x g, x ∈ xs → I g → f x g = f' x g ∧ ∀ u g', f x g = Ret u g' → I g') →
  forEach f xs h = forEach f' xs h.
Proof.
  revert h. induction xs as [|x xs IH]; intros h HI Hstep; [reflexivity|].
  cbn [forEach]. destruct (Hstep x h (list_elem_of_here _ _) HI) as [E Hnext].
  unfold bind. rewrite <- E. destruct (f x h) as [u g'| |]; [|reflexivity|reflexivity].
  apply IH; [eapply Hnext; reflexivity|].
  intros y g Hy. apply Hstep, list_elem_of_further, Hy.
Qed.

Lemma forEach_tt {A} (f : A → M unit) xs h : (forEach f xs ;;! ret tt) h = forEach f xs h.
Proof. unfold bind, ret. destruct (forEach f xs h) as [[] g| |]; reflexivity. Qed.

Lemma set_tt v k x h : (set v k x ;;! ret tt) h = set v k x h.
Proof. unfold bind, ret. destruct (set v k x h) as [[] g| |]; reflexivity. Qed.

Lemma writes_only_kv kv (ps : list (string * value)) h u h' :
  forEach (λ pv, set kv (KStr pv.1) pv.2) ps h = Ret u h' →
  ∀ l, kv ≠ VRef l → h' !! l = h !! l.
Proof.
  revert h. induction ps as [|[p v] ps IH]; intros h Hrun l Hne.
  - cbn [forEach] in Hrun. injection Hrun as _ <-. reflexivity.
  - cbn [forEach] in Hrun. unfold bind at 1 in Hrun. cbn [fst snd] in Hrun.
    destruct (set kv (KStr p) v h) as [[] g| |] eqn:Hset; try discriminate.
    rewrite (IH g Hrun l Hne). eapply set_other; eassumption.
Qed.

Lemma field_Some (fields : list (string * ht)) k c :
  NoDup fields.*1 → field fields k = Some c ↔ (k, c) ∈ fields.
Proof.
  intros Hnd. unfold field. induction fields as [|[k0 c0] fields IH].
  - split; [discriminate|intros H; inversion H].
  - cbn [fmap list_fmap fst] in Hnd. apply NoDup_cons in Hnd. destruct Hnd as [Hk0 Hnd].
    cbn [find fst]. destruct (bool_decide (k0 = k)) eqn:Hk.
    + apply bool_decide_eq_true in Hk. subst k0. cbn. split.
      * intros [= ->]. apply list_elem_of_here.
      * intros Hin. apply elem_of_cons in Hin. destruct Hin as [E|Hin]; [congruence|].
        exfalso. apply Hk0, (field_key_in _ _ _ Hin).
    + apply bool_decide_eq_false in Hk. rewrite (IH Hnd). split.
      * intros Hin. apply list_elem_of_further, Hin.
      * intros Hin. apply elem_of_cons in Hin. destruct Hin as [E|Hin]; [congruence|exact Hin].
Qed.

Lemma field_None (fields : list (string * ht)) k :
  field fields k = None → k ∉ fields.*1.
Proof.
  unfold field. induction fields as [|[k0 c0] fields IH]; intros Hf Hin; [inversion Hin|].
  cbn [find fst] in Hf. destruct (bool_decide (k0 = k)) eqn:Hk; [discriminate|].
  apply bool_decide_eq_false in Hk.
  cbn [fmap list_fmap fst] in Hin. apply elem_of_cons in Hin.
  destruct Hin as [E|Hin]; [congruence|]. apply (IH Hf Hin).
Qed.

(** X13: what the path builder collects.  On a tree of plain objects and
    arrays with no [null] on the way, [buildPathToValue] is exactly this
    sequence of assignments to [kv], in depth-first key order: for every
    object that owns a [value] property, reached under the keys
    [k1, ..., kn] through objects that own none, the assignment
    [kv["k1.....kn"] = payload]; it never looks below such an object,
    writes nowhere but to [kv], and returns [kv]. *)
Theorem X13_path_builder_assigns_dotted_paths opts kv s :
  wf_tree s = true → is_node s = true → walkable s = true →
  (∀ l, l ∈ locs s → kv ≠ VRef l) →
  ∀ fuel prefix h,
    holds h s → depth s ≤ fuel →
    buildPathToValue fuel (root s) opts kv prefix h =
      (forEach (λ pv, set kv (KStr pv.1) pv.2) (paths s prefix) ;;! ret kv) h.
Proof.
  induction s as [x|l arr fields IH] using ht_ind'; intros Hwf Hnode Hwalk Hkv; [discriminate|].
  intros fuel prefix h Hh Hd.
  destruct fuel as [|fuel]; [cbn [depth] in Hd; lia|].
  destruct (wf_tree_node _ _ _ Hwf) as [Hnd Hwfc].
  cbn [buildPathToValue root paths].
  rewrite (bind_Ret _ _ _ _ _ (object_keys_node _ _ _ _ (holds_node _ _ _ _ Hh))).
  set (V := visit_key _ _ _ _).
  set (g := λ pv : string * value, set kv (KStr pv.1) pv.2).
  set (F := λ kc : string * ht,
              match wrapped_value kc.2 with
              | Some v => [ (join_path (prefix ++ [kc.1]), v) ]
              | None => paths kc.2 (prefix ++ [kc.1])
              end).
  assert (E : forEach V (KStr <$> fields.*1) h = forEach g (flat_map F fields) h).
  { rewrite <- list_fmap_compose, forEach_fmap, forEach_flat_map.
    apply (forEach_ext_inv (λ g0, holds g0 (HNode l arr fields))); [exact Hh|].
    intros [k c] g0 Hin Hh0. cbn [compose fst].
    assert (Hstep : V (KStr k) g0 = forEach g (F (k, c)) g0).
    { pose proof (holds_child _ _ _ _ _ _ Hh0 Hin) as Hhc.
      destruct (Hwfc k c Hin) as [_ Hwc].
      unfold V, visit_key, F. cbn [fst snd key_string].
      rewrite (bind_Ret _ _ _ _ _
                 (get_child _ _ _ _ _ _ (holds_node _ _ _ _ Hh0) Hnd Hin)).
      cbn [walkable] in Hwalk. rewrite forallb_forall in Hwalk.
      pose proof (Hwalk (k, c) (proj1 (list_elem_of_In _ _) Hin)) as Hwc'. cbn [snd] in Hwc'.
      destruct c as [v|lc ac cf].
      - cbn [wrapped_value present orb walkable] in *.
        rewrite (bind_Ret _ _ _ _ _ (prim_not_wrapper _ _ Hwc)). cbn [root].
        apply negb_true_iff, bool_decide_eq_false in Hwc'.
        destruct v; try discriminate; try reflexivity. congruence.
      - cbn [wrapped_value root truthy]. pose proof (holds_node _ _ _ _ Hhc) as Hlc.
        destruct (wf_tree_node _ _ _ Hwc) as [Hndc _].
        destruct (field cf "value") as [cv|] eqn:Hf; cbn [fmap option_fmap option_map].
        + apply (field_Some _ _ _ Hndc) in Hf.
          assert (Hown : hasOwnProperty (VRef lc) (KStr "value") g0 = Ret true g0).
          { unfold hasOwnProperty, own_of, own_props. cbn [is_nullish]. rewrite Hlc.
            rewrite (node_obj_lookup _ _ _ _ Hndc Hf). reflexivity. }
          rewrite (bind_Ret _ _ _ _ _ Hown).
          rewrite (bind_Ret _ _ _ _ _ (get_child _ _ _ _ _ _ Hlc Hndc Hf)).
          unfold g. cbn [forEach fst snd]. rewrite set_tt. reflexivity.
        + cbn [wrapped_value] in Hwc'. rewrite Hf in Hwc'. cbn in Hwc'.
          rewrite (bind_Ret _ _ _ _ _
                     (hasOwn_value_node _ _ _ _ Hlc (field_None _ _ Hf))).
          rewrite (typeof_object_node _ _ _ _ Hlc).
          pose proof (depth_child l arr _ _ _ Hin) as Hdc.
          assert (Hfuel : depth (HNode lc ac cf) ≤ fuel) by lia.
          pose proof (IH k _ Hin Hwc eq_refl Hwc'
                        (λ l' Hl', Hkv l' (locs_child l arr _ _ _ _ Hin Hl'))
                        fuel (prefix ++ [k]) g0 Hhc Hfuel) as Hc.
          cbn [root] in Hc. unfold bind at 1. rewrite Hc.
          fold g. unfold bind, ret.
          destruct (forEach g _ g0) as [[] g1| |]; reflexivity. }
    split; [exact Hstep|]. intros u g' Hrun. rewrite Hstep in Hrun.
    apply (holds_preserved g0); [exact Hh0|]. intros l' Hl'.
    eapply writes_only_kv; [exact Hrun|]. apply Hkv, Hl'. }
  unfold bind. rewrite E. reflexivity.
Qed.

Lemma X13_witness :
  ∃ h', buildPathToValue 3 (root changes_tree) VUndef (VRef 13) [] changes_heap
        = Ret (VRef 13) h' ∧
        own_props h' 13 =
          [ (KStr "profile.first", data (VStr "Grace"));
            (KStr "profile.last", data (VStr "Hopper"));
            (KStr "age", data (VNum 36)) ].
Proof.
  assert (Hrun : buildPathToValue 3 (root changes_tree) VUndef (VRef 13) [] changes_heap =
            (forEach (λ pv, set (VRef 13) (KStr pv.1) pv.2) (paths changes_tree []) ;;!
             ret (VRef 13)) changes_heap).
  { apply (X13_path_builder_assigns_dotted_paths VUndef (VRef 13) changes_tree).
    - vm_compute. reflexivity.
    - reflexivity.
    - vm_compute. reflexivity.
    - intros l Hl. cbn in Hl.
      repeat (apply elem_of_cons in Hl; destruct Hl as [->|Hl]; [discriminate|]).
      inversion Hl.
    - intros l o Hin. cbn in Hin.
      repeat (apply elem_of_cons in Hin; destruct Hin as [E|Hin];
              [injection E as -> ->; reflexivity|]).
      inversion Hin.
    - vm_compute. lia. }
  eexists. split; [rewrite Hrun; vm_compute; reflexivity|]. vm_compute. reflexivity.
Defined.

(** * When a merge of plain data goes through *)


Lemma fresh_key (fields : list (string * ht)) pre k post :
  NoDup fields.*1 → (KStr <$> fields.*1) = (pre ++ k :: post) →
  (k ∉ pre) ∧ (∃ s c, k = KStr s ∧ (s, c) ∈ fields).
Proof.
  intros Hnd Eks. split.
  - pose proof (node_keys_NoDup _ Hnd) as Hnd'. rewrite Eks in Hnd'.
    apply NoDup_app in Hnd'. destruct Hnd' as (_ & Hdis & _).
    intros Hpre. eapply Hdis; [exact Hpre|apply list_elem_of_here].
  - apply node_key_inv. rewrite Eks. apply elem_of_app. right. apply list_elem_of_here.
Qed.

Section Outcome.

Variable host : nat → value → list value → M value.
Variables (lo fuel : nat) (h : heap) (lt : loc) (tf : list (string * ht)).
Variables (ls : loc) (sf : list (string * ht)).
Hypothesis Hstd : standard h.
Hypothesis Hdef : defaults_at lo h.
Hypothesis Hwt : wf_tree (HNode lt false tf) = true.
Hypothesis Hws : wf_tree (HNode ls false sf) = true.
Hypothesis Hnv : no_value_key (HNode ls false sf) = true.
Hypothesis Hht : holds h (HNode lt false tf).
Hypothesis Hhs : holds h (HNode ls false sf).
Hypothesis HndT : NoDup (locs (HNode lt false tf)).
Hypothesis Hloc :
  ∀ l, l ∈ locs (HNode lt false tf) → length realm ≤ l < lo ∧ l ∉ locs (HNode ls false sf).

Lemma merging_facts nulls seen g :
  merging h lt tf sf nulls seen g →
  standard g ∧ defaults_at lo g ∧ holds g (HNode ls false sf) ∧
  ∃ tb, g !! lt = Some (plain tb) ∧ plookup (KStr fields_key) tb = None ∧
    (∀ k, KStr k ∉ seen → plookup (KStr k) tb = plookup (KStr k) (node_table tf)) ∧
    (∀ k t, (k, t) ∈ tf → KStr k ∉ seen → holds g t).
Proof.
  intros (Hf & tb & Hlt & Hcf & _ & Hun & Hsub).
  assert (HlocT : ∀ l, l ∈ locs (HNode lt false tf) → length realm ≤ l)
    by (intros l Hl; apply Hloc in Hl; lia).
  assert (HlocT' : ∀ l, l ∈ locs (HNode lt false tf) → l < lo)
    by (intros l Hl; apply Hloc in Hl; lia).
  split; [exact (frame_standard _ _ _ Hf HlocT Hstd)|].
  split; [exact (frame_defaults _ _ _ _ Hf HlocT' Hdef)|].
  split.
  { eapply frame_holds; [exact Hf| |exact Hhs]. intros l Hl HlT.
    apply Hloc in HlT. apply HlT, Hl. }
  exists tb. split; [exact Hlt|]. split; [exact Hcf|]. split; [exact Hun|].
  intros k t Ht Hk. eapply holds_preserved; [eapply holds_child; [exact Hht|exact Ht]|].
  intros l Hl. eapply Hsub; eassumption.
Qed.



(** One key that went through met its own condition. *)
Lemma merge_key_ran seen s c g u g' :
  merging_exact h lt tf sf (has_null (HNode ls false sf)) seen g →
  (s, c) ∈ sf → KStr s ∉ seen →
  merge_key host fuel (mergeDeep host fuel) (VRef lt) (VRef ls) (VRef lo) (KStr s) g
  = Ret u g' →
  (∀ t, (s, t) ∈ tf → is_node c = true →
     ∃ g0 m g1, standard g0 ∧ defaults_at lo g0 ∧ holds g0 t ∧ holds g0 c ∧
                mergeDeep host fuel (root t) (root c) (VRef lo) g0 = Ret m g1) ∧
  (s ∉ tf.*1 → inherited s = true → has_null (HNode ls false sf) = false).
Proof.
  intros [HI _] Hin Hnew Hk.
  destruct (merging_facts _ _ _ HI) as (Hstd' & Hdef' & Hhs' & tb & Hlt & Hcf & Hun & Hsub).
  destruct (wf_tree_node _ _ _ Hwt) as [HndTk HwTc].
  pose proof (Hun s Hnew) as Hts.
  split.
  - intros t Ht Hc.
    rewrite (node_table_lookup _ _ _ HndTk Ht) in Hts.
    rewrite (merge_key_own_node host fuel (mergeDeep host fuel) lo g ls false sf s c
               Hstd' Hdef' Hhs' Hws Hnv Hin lt tb Hlt Hcf (root t) Hts Hc) in Hk.
    unfold bind at 1 in Hk.
    destruct (mergeDeep host fuel (root t) (root c) (VRef lo) g) as [m g1| |] eqn:Hrec;
      try discriminate.
    exists g, m, g1. split; [exact Hstd'|]. split; [exact Hdef'|].
    split; [exact (Hsub _ _ Ht Hnew)|]. split; [|exact Hrec].
    eapply holds_child; [exact Hhs'|exact Hin].
  - intros Hnot Hi. rewrite (node_table_lookup_None _ _ Hnot) in Hts.
    destruct (merge_key_unsafe host fuel (mergeDeep host fuel) lo g ls false sf s lt tb
                Hstd' Hdef' Hhs' Hws Hnv Hlt Hcf Hts Hi) as [Hinv _].
    apply (Hinv _ _ Hk).
Qed.

End Outcome.




(** A merge that returns was given data that fits. *)
Lemma merge_returns_fits host lo s :
  wf_tree s = true → no_value_key s = true → is_node s = true →
  ∀ t h fuel v h1,
    standard h → defaults_at lo h → wf_tree t = true →
    holds h t → holds h s → NoDup (locs t) →
    (∀ l, l ∈ locs t → length realm ≤ l < lo ∧ l ∉ locs s) →
    mergeDeep host fuel (root t) (root s) (VRef lo) h = Ret v h1 →
    fits s t = true.
Proof.
  induction s as [x|ls arr sf IH] using ht_ind'; intros Hws Hnv Hnode; [discriminate|].
  intros t h fuel v h1 Hstd Hdef Hwt Hht Hhs HndT Hloc.
  destruct fuel as [|fuel]; [discriminate|].
  pose proof (holds_node _ _ _ _ Hhs) as Hls.
  destruct (wf_tree_node _ _ _ Hws) as [HndS HwSc].
  pose proof (no_value_key_node _ _ _ Hnv) as HnvSc.
  rewrite (mergeDeep_supplied _ _ _ _ _ _ Hdef). cbn [root fits].
  rewrite (isArray_node _ _ _ _ Hls).
  destruct arr; [reflexivity|]. cbn [orb].
  destruct t as [x|lt tarr tf]; cbn [root].
  - cbn [wf_tree] in Hwt. rewrite (isArray_prim _ _ Hwt).
    rewrite bool_decide_true by reflexivity. cbn [negb].
    unfold try_catch. rewrite (mergeTargetAndSource_node _ _ _ _ _ _ _ _ _ Hls).
    unfold bind at 1.
    destruct (forEach _ _ h) as [u g| |] eqn:Hrun; try discriminate. intros _.
    apply (forEach_inv _ (λ k, prim_accepts x k = true)) in Hrun.
    + destruct Hrun as [_ HQ]. apply forallb_forall. intros [k c] Hin. cbn [fst].
      eapply HQ, node_key_intro. apply list_elem_of_In. exact Hin.
    + intros k u' g' Hk. destruct (node_key_inv _ _ Hk) as (s & c & -> & Hin).
      rewrite (merge_key_prim host fuel (mergeDeep host fuel) lo h ls false sf s c
                 Hstd Hdef Hhs Hws Hin x Hwt).
      destruct (prim_accepts x (KStr s)); [|discriminate]. intros [= _ <-]. auto.
  - pose proof (holds_node _ _ _ _ Hht) as Hlt0.
    rewrite (isArray_node _ _ _ _ Hlt0).
    destruct tarr; [reflexivity|]. cbn [orb].
    rewrite bool_decide_true by reflexivity. cbn [negb].
    unfold try_catch. rewrite (mergeTargetAndSource_node _ _ _ _ _ _ _ _ _ Hls).
    unfold bind at 1.
    destruct (forEach _ _ h) as [u g| |] eqn:Hrun; try discriminate. intros _.
    destruct (wf_tree_node _ _ _ Hwt) as [HndTk HwTc].
    set (body := λ kc : string * ht,
                   match field tf kc.1 with
                   | Some t' => fits kc.2 t'
                   | None => negb (inherited kc.1) || negb (has_null (HNode ls false sf))
                   end).
    assert (Hend :
      merging_exact h lt tf sf (has_null (HNode ls false sf)) (KStr <$> sf.*1) g ∧
      ∀ s c, (s, c) ∈ sf → KStr s ∈ KStr <$> sf.*1 → body (s, c) = true).
    { eapply (forEach_prefix
                (λ pre g0, merging_exact h lt tf sf (has_null (HNode ls false sf)) pre g0 ∧
                           ∀ s c, (s, c) ∈ sf → KStr s ∈ pre → body (s, c) = true));
        [| |exact Hrun].
      - split; [apply merging_exact_start; assumption|]. intros s c _ Hin. inversion Hin.
      - intros pre k post g0 u' g' Eks [HI Hbody] Hk.
        destruct (fresh_key _ _ _ _ HndS Eks) as [Hnew (s & c & -> & Hin)].
        destruct (HwSc s c Hin) as [_ Hwc]. destruct (HnvSc s c Hin) as [_ Hnc].
        split.
        + eapply (merging_exact_step host lo fuel h lt tf ls sf); eassumption.
        + destruct (merge_key_ran host lo fuel h lt tf ls sf Hstd Hdef Hwt Hws Hnv Hht Hhs
                      Hloc pre s c g0 u' g' HI Hin Hnew Hk) as [Hrec Hnull].
          intros s' c' Hin' Hs'. apply elem_of_app in Hs'. destruct Hs' as [Hs'|Hs'].
          * apply Hbody; assumption.
          * apply list_elem_of_singleton in Hs'. injection Hs' as ->.
            rewrite (fields_functional _ _ _ _ HndS Hin' Hin).
            unfold body. cbn [fst snd].
            destruct (field tf s) as [t'|] eqn:Hf.
            -- apply (field_Some _ _ _ HndTk) in Hf.
               destruct (is_node c) eqn:Hc; [|destruct c; [reflexivity|discriminate]].
               destruct (Hrec t' Hf eq_refl) as (g1 & m & g2 & Hs1 & Hd1 & Hh1 & Hc1 & Hrun1).
               eapply (IH s c Hin Hwc Hnc Hc t' g1 fuel m g2 Hs1 Hd1 (proj2 (HwTc _ _ Hf))
                         Hh1 Hc1 (locs_NoDup_child _ _ _ _ _ HndT Hf)); [|exact Hrun1].
               intros l Hl. pose proof (locs_child lt false _ _ _ _ Hf Hl) as HlT.
               apply Hloc in HlT. split; [lia|]. intros Hlc. apply HlT.
               eapply locs_child; [exact Hin|exact Hlc].
            -- apply field_None in Hf. destruct (inherited s) eqn:Hi; [|reflexivity].
               rewrite (Hnull Hf eq_refl). reflexivity. }
    destruct Hend as [_ Hbody]. apply forallb_forall. intros [s c] Hin.
    apply list_elem_of_In in Hin. apply Hbody; [exact Hin|eapply node_key_intro, Hin].
Qed.



(** X15: and only data that fits merges.  Under the same conditions on
    the data (plain JSON-like trees in separate objects, the source an
    object or array in which no object owns a [value] key), whenever
    [mergeDeep] returns, [fits source target] holds: had a primitive of
    the target met a source object with a key other than [__proto__], or
    a key found only on [Object.prototype] met a source object holding a
    [null], the call would not have returned. *)
Theorem X15_merge_returns_only_when_data_fits host t s fuel h v h1 :
  standard h →
  wf_tree t = true → wf_tree s = true → no_value_key s = true → is_node s = true →
  holds h t → holds h s → NoDup (locs t) →
  (∀ l, l ∈ locs t → length realm ≤ l ∧ l ∉ locs s) →
  mergeDeep host fuel (root t) (root s) VUndef h = Ret v h1 →
  fits s t = true.
Proof.
  intros Hstd Hwt Hws Hnv Hnode Hht Hhs Hnd Hloc Hrun.
  destruct fuel as [|fuel]; [discriminate|].
  rewrite (mergeDeep_fresh _ _ _ _ _ Hstd) in Hrun.
  pose proof (with_defaults_preserved h) as Hp0.
  apply (merge_returns_fits host (length h) s Hws Hnv Hnode t (with_defaults h) (S fuel) v h1
           (standard_preserved _ _ Hstd Hp0) (with_defaults_at h) Hwt
           (holds_kept _ _ _ Hht Hp0) (holds_kept _ _ _ Hhs Hp0) Hnd); [|exact Hrun].
  intros l Hl. destruct (Hloc l Hl) as [Hlow Hsep].
  pose proof (holds_locs_lt _ _ _ Hht Hl). auto.
Qed.

Lemma X15_witness : fits source_tree target_tree = true.
Proof.
  eapply (X15_merge_returns_only_when_data_fits no_host target_tree source_tree 3 tree_heap).
  - tree_heap_standard.
  - vm_compute. reflexivity.
  - vm_compute. reflexivity.
  - vm_compute. reflexivity.
  - reflexivity.
  - tree_heap_holds.
  - tree_heap_holds.
  - apply (bool_decide_unpack _). vm_compute. exact I.
  - tree_heap_apart.
  - vm_compute. reflexivity.
Defined.

(** * Plain data that does not fit *)

Lemma forEach_steady {A} (f : A → M unit) ks h :
  (∀ k, k ∈ ks → f k h ≠ OutOfFuel ∧ ∀ u g, f k h = Ret u g → g = h) →
  forEach f ks h ≠ OutOfFuel.
Proof.
  induction ks as [|k ks IH]; intros Hf; [discriminate|].
  cbn [forEach]. unfold bind. destruct (Hf k (list_elem_of_here _ _)) as [Hk Hsame].
  destruct (f k h) as [u g| |] eqn:E; [|discriminate|congruence].
  rewrite (Hsame u g eq_refl). apply IH. intros k' Hk'. apply Hf, list_elem_of_further, Hk'.
Qed.

Lemma forEach_prefix_progress {A} (I : list A → heap → Prop) (f : A → M unit) ks h :
  I [] h →
  (∀ pre k post g, ks = pre ++ k :: post → I pre g →
     f k g ≠ OutOfFuel ∧ ∀ u g', f k g = Ret u g' → I (pre ++ [k]) g') →
  forEach f ks h ≠ OutOfFuel.
Proof.
  intros H0 Hstep.
  assert (Hgen : ∀ rest pre g, ks = pre ++ rest → I pre g → forEach f rest g ≠ OutOfFuel).
  { induction rest as [|k rest IH]; intros pre g E HI; [discriminate|].
    destruct (Hstep pre k rest g E HI) as [Hk Hnext].
    cbn [forEach]. unfold bind. destruct (f k g) as [u g1| |] eqn:Ek; [|discriminate|congruence].
    apply (IH (pre ++ [k])); [rewrite <- app_assoc; exact E|]. eapply Hnext. reflexivity. }
  apply (Hgen ks [] h); [reflexivity|exact H0].
Qed.

(** With fuel beyond the nesting, the path builder comes to an end. *)
Lemma buildPathToValue_terminates opts kv s :
  wf_tree s = true → no_value_key s = true → is_node s = true →
  ∀ fuel path h, holds h s → depth s < fuel →
    buildPathToValue fuel (root s) opts kv path h ≠ OutOfFuel.
Proof.
  induction s as [x|l arr fields IH] using ht_ind'; intros Hwf Hnv Hnode; [discriminate|].
  intros fuel path h Hh Hd.
  destruct fuel as [|fuel]; [lia|].
  pose proof (holds_node _ _ _ _ Hh) as Hl.
  destruct (wf_tree_node _ _ _ Hwf) as [Hnd Hwfc].
  pose proof (no_value_key_node _ _ _ Hnv) as Hnvc.
  cbn [buildPathToValue root].
  rewrite (bind_Ret _ _ _ _ _ (object_keys_node _ _ _ _ Hl)).
  unfold bind at 1.
  destruct (forEach _ _ h) as [u g| |] eqn:Hrun; [discriminate|discriminate|].
  exfalso. revert Hrun. apply forEach_steady.
  intros k Hk. destruct (node_key_inv _ _ Hk) as (s & c & -> & Hin).
  destruct (Hwfc s c Hin) as [_ Hwc]. destruct (Hnvc s c Hin) as [_ Hnc].
  pose proof (holds_child _ _ _ _ _ _ Hh Hin) as Hhc.
  pose proof (depth_child l arr _ _ _ Hin) as Hdc.
  unfold visit_key.
  rewrite (bind_Ret _ _ _ _ _ (get_child _ _ _ _ _ _ Hl Hnd Hin)).
  rewrite (bind_Ret _ _ _ _ _ (node_not_wrapper _ _ Hhc Hwc Hnc)).
  destruct c as [v|lc ac cf].
  - cbn [root key_string]. destruct v; try discriminate; cbn [typeof_object];
      try (split; [discriminate|intros u g [= _ <-]; reflexivity]).
    destruct fuel as [|fuel]; [cbn [depth] in Hd; lia|].
    split; [discriminate|]. intros u g. discriminate.
  - cbn [root key_string].
    rewrite (typeof_object_node _ _ _ _ (holds_node _ _ _ _ Hhc)).
    pose proof (IH s _ Hin Hwc Hnc eq_refl fuel (path ++ [s]) h Hhc) as Hterm.
    destruct (buildPathToValue_tree opts kv _ Hwc Hnc eq_refl fuel (path ++ [s]) h Hhc)
      as [Hinv _].
    cbn [root] in Hterm, Hinv. unfold bind.
    destruct (buildPathToValue fuel (VRef lc) opts kv (path ++ [s]) h) as [x g'| |] eqn:Hb.
    + destruct (Hinv _ _ eq_refl) as (_ & -> & _).
      split; [discriminate|]. intros u g [= _ <-]. reflexivity.
    + split; [discriminate|]. intros u g. discriminate.
    + exfalso. apply Hterm; [lia|reflexivity].
Qed.

Lemma merge_key_unsafe_terminates host fuel rec lo h ls arr sf k lt tb :
  standard h → defaults_at lo h →
  holds h (HNode ls arr sf) →
  wf_tree (HNode ls arr sf) = true → no_value_key (HNode ls arr sf) = true →
  h !! lt = Some (plain tb) → plookup (KStr fields_key) tb = None →
  plookup (KStr k) tb = None → inherited k = true →
  depth (HNode ls arr sf) < fuel →
  merge_key host fuel rec (VRef lt) (VRef ls) (VRef lo) (KStr k) h ≠ OutOfFuel.
Proof.
  intros Hstd Hdef Hsrc Hwf Hnv Hlt Hcf Hk Hi Hd. unfold inherited in Hi.
  unfold merge_key.
  rewrite (bind_Ret _ _ _ _ _ (unsafe_plain _ _ _ _ _ _ Hstd Hdef Hlt Hcf)).
  rewrite Hk, Hi.
  rewrite (bind_Ret _ _ _ _ _ (defaults_set _ _ Hdef)). cbn [truthy].
  unfold alloc at 1. unfold bind at 1.
  pose proof (buildPathToValue_terminates (VRef lo) (VRef (length h)) _ Hwf Hnv eq_refl
                fuel [] (h ++ [empty_object]) (holds_app _ _ _ Hsrc) Hd) as Hterm.
  destruct (buildPathToValue_tree (VRef lo) (VRef (length h)) _ Hwf Hnv eq_refl
              fuel [] (h ++ [empty_object]) (holds_app _ _ _ Hsrc)) as [Hinv _].
  cbn [root] in Hterm, Hinv.
  assert (Hkeys : object_keys (VRef (length h)) (h ++ [empty_object])
                  = Ret [] (h ++ [empty_object])).
  { unfold object_keys. rewrite own_props_fresh. reflexivity. }
  unfold bind at 1.
  destruct (buildPathToValue _ _ _ _ _ _) as [x g'| |] eqn:Hb; [|discriminate|congruence].
  destruct (Hinv _ _ eq_refl) as (-> & -> & _).
  rewrite (bind_Ret _ _ _ _ _ Hkeys). discriminate.
Qed.

(** With fuel beyond the nesting of the source, a merge of plain data
    comes to an end. *)
Lemma merge_terminates host lo s :
  wf_tree s = true → no_value_key s = true → is_node s = true →
  ∀ t h fuel,
    standard h → defaults_at lo h → wf_tree t = true →
    holds h t → holds h s → NoDup (locs t) →
    (∀ l, l ∈ locs t → length realm ≤ l < lo ∧ l ∉ locs s) →
    depth s + 1 < fuel →
    mergeDeep host fuel (root t) (root s) (VRef lo) h ≠ OutOfFuel.
Proof.
  induction s as [x|ls arr sf IH] using ht_ind'; intros Hws Hnv Hnode; [discriminate|].
  intros t h fuel Hstd Hdef Hwt Hht Hhs HndT Hloc Hfuel.
  destruct fuel as [|fuel]; [lia|].
  pose proof (holds_node _ _ _ _ Hhs) as Hls.
  destruct (wf_tree_node _ _ _ Hws) as [HndS HwSc].
  pose proof (no_value_key_node _ _ _ Hnv) as HnvSc.
  rewrite (mergeDeep_supplied _ _ _ _ _ _ Hdef). cbn [root].
  rewrite (isArray_node _ _ _ _ Hls).
  destruct arr.
  { destruct (negb _); discriminate. }
  assert (Hloop : ∀ target,
    forEach (merge_key host fuel (mergeDeep host fuel) target (VRef ls) (VRef lo))
      (KStr <$> sf.*1) h ≠ OutOfFuel →
    try_catch (mergeTargetAndSource host fuel (mergeDeep host fuel) target (VRef ls) (VRef lo))
      (λ _, throw merge_failure) h ≠ OutOfFuel).
  { intros target Hrun. unfold try_catch.
    rewrite (mergeTargetAndSource_node _ _ _ _ _ _ _ _ _ Hls). unfold bind at 1.
    destruct (forEach _ _ h) as [u g| |]; [discriminate|discriminate|congruence]. }
  destruct t as [x|lt tarr tf]; cbn [root].
  - cbn [wf_tree] in Hwt. rewrite (isArray_prim _ _ Hwt).
    rewrite bool_decide_true by reflexivity. cbn [negb].
    apply Hloop, forEach_steady.
    intros k Hk. destruct (node_key_inv _ _ Hk) as (s & c & -> & Hin).
    rewrite (merge_key_prim host fuel (mergeDeep host fuel) lo h ls false sf s c
               Hstd Hdef Hhs Hws Hin x Hwt).
    destruct (prim_accepts x (KStr s)); split; try discriminate.
    intros u g [= _ <-]. reflexivity.
  - pose proof (holds_node _ _ _ _ Hht) as Hlt0.
    rewrite (isArray_node _ _ _ _ Hlt0).
    destruct tarr.
    { rewrite bool_decide_false by discriminate. discriminate. }
    rewrite bool_decide_true by reflexivity. cbn [negb].
    destruct (wf_tree_node _ _ _ Hwt) as [HndTk HwTc].
    apply Hloop.
    apply (forEach_prefix_progress (merging_exact h lt tf sf (has_null (HNode ls false sf)))).
    + apply merging_exact_start; assumption.
    + intros pre k post g Eks HI.
      destruct (fresh_key _ _ _ _ HndS Eks) as [Hnew (s & c & -> & Hin)].
      destruct (HwSc s c Hin) as [_ Hwc]. destruct (HnvSc s c Hin) as [_ Hnc].
      split; [|intros u g' Hk;
               eapply (merging_exact_step host lo fuel h lt tf ls sf); eassumption].
      destruct HI as [HI _].
      destruct (merging_facts lo h lt tf ls sf Hstd Hdef Hht Hhs Hloc _ _ _ HI)
        as (Hstd' & Hdef' & Hhs' & tb & Hlt & Hcf & Hun & Hsub).
      pose proof (Hun s Hnew) as Hts.
      destruct (plookup (KStr s) (node_table tf)) as [p|] eqn:Htf.
      * apply node_table_lookup_inv in Htf. destruct Htf as (t' & Ht' & ->).
        destruct (is_node c) eqn:Hc.
        -- rewrite (merge_key_own_node host fuel (mergeDeep host fuel) lo g ls false sf s c
                      Hstd' Hdef' Hhs' Hws Hnv Hin lt tb Hlt Hcf (root t') Hts Hc).
           pose proof (Hsub _ _ Ht' Hnew) as Hht'.
           pose proof (holds_child _ _ _ _ _ _ Hhs' Hin) as Hhc.
           pose proof (depth_child ls false _ _ _ Hin) as Hdc.
           assert (Hapart : ∀ l, l ∈ locs t' → length realm ≤ l < lo ∧ l ∉ locs c).
           { intros l Hl. pose proof (locs_child lt false _ _ _ _ Ht' Hl) as HlT.
             apply Hloc in HlT. split; [lia|]. intros Hlc. apply HlT.
             eapply locs_child; [exact Hin|exact Hlc]. }
           pose proof (IH s c Hin Hwc Hnc Hc t' g fuel Hstd' Hdef' (proj2 (HwTc _ _ Ht'))
                         Hht' Hhc (locs_NoDup_child _ _ _ _ _ HndT Ht') Hapart) as Hterm.
           unfold bind at 1.
           destruct (mergeDeep host fuel (root t') (root c) (VRef lo) g)
             as [m g1| |] eqn:Hrec; [|discriminate|exfalso; apply Hterm; [lia|reflexivity]].
           destruct (first_merge host lo c Hwc Hnc Hc t' g fuel m g1 Hstd' Hdef'
                       (proj2 (HwTc _ _ Ht')) Hht' Hhc (locs_NoDup_child _ _ _ _ _ HndT Ht')
                       Hapart Hrec) as [_ Hf1].
           assert (Hdef1 : defaults_at lo g1).
           { eapply frame_defaults; [exact Hf1| |exact Hdef']. intros l Hl.
             apply (Hapart l Hl). }
           assert (Hlt1 : g1 !! lt = Some (plain tb)).
           { eapply frame_lookup; [exact Hf1| |exact Hlt].
             eapply locs_root_fresh; [exact HndT|exact Ht']. }
           rewrite (store_default _ _ _ _ _ _ _ Hdef1).
           rewrite (set_plain_own _ _ _ _ _ _ Hlt1 Hts). discriminate.
        -- rewrite (merge_key_own_leaf host fuel (mergeDeep host fuel) lo g ls false sf s c
                      Hstd' Hdef' Hhs' Hws Hin lt tb Hlt Hcf (root t') Hts Hc). discriminate.
      * destruct (inherited s) eqn:Hi.
        -- apply (merge_key_unsafe_terminates host fuel (mergeDeep host fuel) lo g ls false sf
                    s lt tb Hstd' Hdef' Hhs' Hws Hnv Hlt Hcf Hts Hi). lia.
        -- rewrite (merge_key_absent host fuel (mergeDeep host fuel) lo g ls false sf s c
                      Hstd' Hdef' Hhs' Hws Hin lt tb Hlt Hcf Hts Hi). discriminate.
Qed.

(** X16: plain data that does not fit fails, and fails cleanly.  Under
    the conditions of X14 on the data (in particular no object of the
    source owns a [value] key), when [fits source target] does not hold
    and the fuel exceeds the source's nesting by two, the call ends in
    the generic failure ['Unable to `mergeDeep` with your data']; no
    other exception comes out and the call does not run on. *)
Theorem X16_merge_of_unfitting_data_fails host t s fuel h :
  standard h →
  wf_tree t = true → wf_tree s = true → no_value_key s = true → is_node s = true →
  holds h t → holds h s → NoDup (locs t) →
  (∀ l, l ∈ locs t → length realm ≤ l ∧ l ∉ locs s) →
  fits s t = false → depth s + 1 < fuel →
  ∃ h1, mergeDeep host fuel (root t) (root s) VUndef h = Throw merge_failure h1.
Proof.
  intros Hstd Hwt Hws Hnv Hnode Hht Hhs Hnd Hloc Hfits Hfuel.
  destruct fuel as [|fuel]; [lia|].
  rewrite (mergeDeep_fresh _ _ _ _ _ Hstd).
  pose proof (with_defaults_preserved h) as Hp0.
  pose proof (standard_preserved _ _ Hstd Hp0) as Hstd0.
  assert (Hloc0 : ∀ l, l ∈ locs t → length realm ≤ l < length h ∧ l ∉ locs s).
  { intros l Hl. destruct (Hloc l Hl) as [Hlow Hsep].
    pose proof (holds_locs_lt _ _ _ Hht Hl). auto. }
  pose proof (merge_terminates host (length h) s Hws Hnv Hnode t (with_defaults h) (S fuel)
                Hstd0 (with_defaults_at h) Hwt (holds_kept _ _ _ Hht Hp0)
                (holds_kept _ _ _ Hhs Hp0) Hnd Hloc0 Hfuel) as Hterm.
  destruct (mergeDeep host (S fuel) (root t) (root s) (VRef (length h)) (with_defaults h))
    as [v h1|e h1|] eqn:Hrun; [| |congruence].
  - rewrite (merge_returns_fits host (length h) s Hws Hnv Hnode t (with_defaults h) (S fuel)
               v h1 Hstd0 (with_defaults_at h) Hwt (holds_kept _ _ _ Hht Hp0)
               (holds_kept _ _ _ Hhs Hp0) Hnd Hloc0 Hrun) in Hfits. discriminate.
  - exists h1. f_equal.
    rewrite (mergeDeep_supplied _ _ _ _ _ _ (with_defaults_at h)) in Hrun.
    destruct (negb _); [discriminate|]. destruct (isArray _ _); [discriminate|].
    unfold try_catch in Hrun.
    destruct (mergeTargetAndSource _ _ _ _ _ _ _); try discriminate.
    unfold throw in Hrun. congruence.
Qed.

Lemma X16_witness :
  ∃ h1, mergeDeep no_host 4 (root target_tree) (root misfit_tree) VUndef misfit_heap
        = Throw merge_failure h1.
Proof.
  apply (X16_merge_of_unfitting_data_fails no_host target_tree misfit_tree 4 misfit_heap).
  - unfold misfit_heap. apply (standard_preserved tree_heap); [|apply preserved_app].
    tree_heap_standard.
  - vm_compute. reflexivity.
  - vm_compute. reflexivity.
  - vm_compute. reflexivity.
  - reflexivity.
  - tree_heap_holds.
  - tree_heap_holds.
  - apply (bool_decide_unpack _). vm_compute. exact I.
  - tree_heap_apart.
  - vm_compute. reflexivity.
  - vm_compute. lia.
Defined.
